(** * A shallow embedding of picaso's climate solver (src/picaso/climate.py)

    The radiative-convective solver is a set of numba-compiled numerical
    routines over NumPy arrays.  The embedding keeps the shape of the
    source:

    - a float is a number, an infinity or NaN; numbers are idealised as
      rationals (no rounding, no overflow, no signed zero), NaN absorbs
      arithmetic and makes every comparison false;
    - an array is a list, indexed the way Python does it (a negative
      index counts from the end, anything else out of range raises);
    - division by zero raises, as it does in code compiled by numba with
      its default error model;
    - a raised exception is a value of the result type [res]. *)

From Stdlib Require Import ZArith QArith Lia Bool.
From Stdlib Require Import Qabs Lqa.
From stdpp Require Import base list.
From Equations Require Import Equations.

Set Default Proof Using "Type".
Local Open Scope Z_scope.

(** ** Exceptions and results *)

Inductive exn : Type :=
| IndexError
| ZeroDivisionError
| SingularMatrix      (* the ValueError raised by lu_decomp *)
| NegativeDimension   (* the ValueError of numpy.zeros on a negative shape *)
| ShapeMismatch       (* the ValueError of an elementwise operation *)
| EmptyReduction      (* the ValueError of min or max over an empty array *)
| UnboundLocalError
| OutOfFuel.          (* model only: a while loop was cut off *)

Inductive res (A : Type) : Type :=
| Ok (a : A)
| Raise (e : exn).
Arguments Ok {A} a.
Arguments Raise {A} e.

#[global] Instance res_ret : MRet res := fun A a => Ok a.
#[global] Instance res_bind : MBind res := fun A B k m =>
  match m with
  | Ok a => k a
  | Raise e => Raise e
  end.


(** ** Floats

    [Inf false] is [+inf] and [Inf true] is [-inf]. *)

Inductive float : Type :=
| Fin (q : Q)
| Inf (neg : bool)
| NaN.

Definition Qlt_bool (a b : Q) : bool := negb (Qle_bool b a).

Definition fneg (x : float) : float :=
  match x with Fin a => Fin (- a) | Inf s => Inf (negb s) | NaN => NaN end.
Definition fabs (x : float) : float :=
  match x with Fin a => Fin (Qabs a) | Inf _ => Inf false | NaN => NaN end.

Definition fadd (x y : float) : float :=
  match x, y with
  | Fin a, Fin b => Fin (a + b)
  | Inf s, Fin _ | Fin _, Inf s => Inf s
  | Inf s, Inf s' => if Bool.eqb s s' then Inf s else NaN
  | _, _ => NaN
  end.
Definition fsub (x y : float) : float :=
  match x, y with
  | Fin a, Fin b => Fin (a - b)
  | Inf s, Fin _ => Inf s
  | Fin _, Inf s => Inf (negb s)
  | Inf s, Inf s' => if Bool.eqb s s' then NaN else Inf s
  | _, _ => NaN
  end.

(** The sign of [inf * b] and of [inf / b] for a number [b]. *)
Definition scaled_inf (s : bool) (b : Q) : float :=
  if Qeq_bool b 0 then NaN else Inf (xorb s (Qlt_bool b 0)).

Definition fmul (x y : float) : float :=
  match x, y with
  | Fin a, Fin b => Fin (a * b)
  | Inf s, Fin b | Fin b, Inf s => scaled_inf s b
  | Inf s, Inf s' => Inf (xorb s s')
  | _, _ => NaN
  end.

(** [x / y]: numba's Python error model raises on a zero divisor. *)
Definition fdiv (x y : float) : res float :=
  match y with
  | Fin b => if Qeq_bool b 0 then Raise ZeroDivisionError
             else match x with
                  | Fin a => Ok (Fin (a / b))
                  | Inf s => Ok (scaled_inf s b)
                  | NaN => Ok NaN
                  end
  | Inf _ => match x with Fin _ => Ok (Fin 0) | _ => Ok NaN end
  | NaN => Ok NaN
  end.

Definition flt (x y : float) : bool :=
  match x, y with
  | Fin a, Fin b => Qlt_bool a b
  | Fin _, Inf s => negb s
  | Inf s, Fin _ => s
  | Inf s, Inf s' => s && negb s'
  | _, _ => false
  end.
Definition fle (x y : float) : bool :=
  match x, y with
  | Fin a, Fin b => Qle_bool a b
  | Fin _, Inf s => negb s
  | Inf s, Fin _ => s
  | Inf s, Inf s' => s || negb s'
  | _, _ => false
  end.
Definition fgt (x y : float) : bool := flt y x.
Definition fge (x y : float) : bool := fle y x.
Definition feq (x y : float) : bool :=
  match x, y with
  | Fin a, Fin b => Qeq_bool a b
  | Inf s, Inf s' => Bool.eqb s s'
  | _, _ => false
  end.
Definition isnan (x : float) : bool :=
  match x with NaN => true | _ => false end.

(** Python's builtin [max(a, b)]: [b] if [b > a], else [a]. *)
Definition fmax (a b : float) : float := if fgt b a then b else a.

Definition of_Z (z : Z) : float := Fin (inject_Z z).


(** ** Arrays with Python indexing *)

Definition norm_index (len : nat) (i : Z) : option nat :=
  if (0 <=? i) && (i <? Z.of_nat len) then Some (Z.to_nat i)
  else if (- Z.of_nat len <=? i) && (i <? 0) then Some (Z.to_nat (Z.of_nat len + i))
  else None.

Definition getitem {A : Type} (l : list A) (i : Z) : res A :=
  match norm_index (length l) i with
  | Some k => match l !! k with Some x => Ok x | None => Raise IndexError end
  | None => Raise IndexError
  end.

Definition setitem {A : Type} (l : list A) (i : Z) (x : A) : res (list A) :=
  match norm_index (length l) i with
  | Some k => Ok (<[k:=x]> l)
  | None => Raise IndexError
  end.


(** ** ZoneManager: growup and growdown

    [nstr] is an int64 NumPy array; stores wrap around. *)

Definition wrap64 (z : Z) : Z := (z + 2^63) mod 2^64 - 2^63.


Definition growup (nlv : Z) (nstr : list Z) (ngrow : Z) : res (list Z) :=
  let n := 2 + 3 * (nlv - 1) - 1 in
  x ← getitem nstr n;
  setitem nstr n (wrap64 (x - 1 * ngrow)).

Definition growdown (nlv : Z) (nstr : list Z) (ngrow : Z) : res (list Z) :=
  let n := 3 + 3 * (nlv - 1) - 1 in
  x ← getitem nstr n;
  nstr ← setitem nstr n (wrap64 (x + 1 * ngrow));
  y ← getitem nstr (n + 1);
  setitem nstr (n + 1) (wrap64 (y + 1 * ngrow)).

(** ** Loops

    [for i in range(lo, hi)] threading a state through a body that may
    raise; [range(0, 3*n, 3)] and [range(hi-1, lo-1, -1)] likewise. *)

Fixpoint for_loop {S : Type} (n : nat) (i : Z) (step : Z)
    (body : Z -> S -> res S) (s : S) : res S :=
  match n with
  | O => Ok s
  | S n' => s' ← body i s; for_loop n' (i + step) step body s'
  end.

Definition for_range {S : Type} (lo hi : Z) (body : Z -> S -> res S) (s : S) : res S :=
  for_loop (Z.to_nat (hi - lo)) lo 1 body s.

Definition for_range3 {S : Type} (n : Z) (body : Z -> S -> res S) (s : S) : res S :=
  for_loop (Z.to_nat n) 0 3 body s.

Definition for_range_down {S : Type} (hi lo : Z) (body : Z -> S -> res S) (s : S) : res S :=
  for_loop (Z.to_nat (hi - lo)) hi (-1) body s.

(** ** ConvectiveGradient: locate and did_grad_cp *)

(** The bisection loop of [locate]; [jm = int(0.5*(ju+jl))] truncates. *)
Equations? locate_loop (array : list float) (value : float) (jl ju : Z) : res Z
  by wf (Z.to_nat (ju - jl)) lt :=
locate_loop array value jl ju with Z_gt_dec (ju - jl) 1 := {
  | right _ => Ok jl
  | left Hgt with getitem array (Z.quot (ju + jl) 2) := {
    | Raise e => Raise e
    | Ok x with fge value x := {
      | true => locate_loop array value (Z.quot (ju + jl) 2) ju
      | false => locate_loop array value jl (Z.quot (ju + jl) 2) } } }.
Proof.
  all: pose proof (Z.quot_rem' (ju + jl) 2) as Hq;
    pose proof (Z.rem_bound_abs (ju + jl) 2 ltac:(lia)) as Hr; lia.
Qed.

Definition locate (array : list float) (value : float) : res Z :=
  let n := Z.of_nat (length array) in
  jl ← locate_loop array value 0 n;
  first ← getitem array 0;
  if fle value first then Ok 0
  else
    last ← getitem array (-1);
    if fge value last then Ok (n - 1) else Ok jl.

Definition getitem2 {A : Type} (m : list (list A)) (i j : Z) : res A :=
  row ← getitem m i; getitem row j.

Definition setitem2 {A : Type} (m : list (list A)) (i j : Z) (x : A) : res (list (list A)) :=
  row ← getitem m i; row' ← setitem row j x; setitem m i row'.

(** A local that may not have been assigned yet. *)
Definition bound {A : Type} (o : option A) : res A :=
  match o with Some a => Ok a | None => Raise UnboundLocalError end.

Section ConvectiveGradient.

(** [numpy.log10] and [10**x] are not rational functions; the model is
    parametric in them. *)
Variable log10 : float -> float.
Variable pow10 : float -> float.

Record blend : Type := Blend {
  pos_t : Z; factkt : option float;
  pos_p : Z; factkp : option float }.

(** Lines 43-71 of [did_grad_cp]: table positions and blend factors. *)
Definition did_grad_cp_factors (t p : float) (t_table p_table : list float) : res blend :=
  let temp_log := log10 t in
  let pres_log := log10 p in
  pos_t ← locate t_table temp_log;
  pos_p ← locate p_table pres_log;
  let '(factkp, pos_p, ipflag) :=
    if pos_p =? 0 then (Some (Fin 0), pos_p, 1)
    else if pos_p =? 25 then (Some (Fin 1), 24, 1)
    else (None, pos_p, 0) in
  let '(factkt, pos_t, itflag) :=
    if pos_t =? 0 then (Some (Fin 0), pos_t, 1)
    else if pos_t =? 52 then (Some (Fin 1), 51, 1)
    else (None, pos_t, 0) in
  factkp ←
    (if (0 <? pos_p) && (pos_p <? 26) && (ipflag =? 0) then
       lo ← getitem p_table pos_p;
       hi ← getitem p_table (pos_p + 1);
       lo' ← getitem p_table pos_p;
       q ← fdiv (fadd (fneg lo) pres_log) (fsub hi lo');
       Ok (Some q)
     else Ok factkp);
  factkt ←
    (if (0 <? pos_t) && (pos_t <? 53) && (itflag =? 0) then
       lo ← getitem t_table pos_t;
       hi ← getitem t_table (pos_t + 1);
       lo' ← getitem t_table pos_t;
       q ← fdiv (fadd (fneg lo) temp_log) (fsub hi lo');
       Ok (Some q)
     else Ok factkt);
  Ok (Blend pos_t factkt pos_p factkp).

Definition bilinear (factkt factkp v1 v2 v3 v4 : float) : float :=
  let one := Fin 1 in
  fadd (fadd (fadd (fmul (fmul (fsub one factkt) (fsub one factkp)) v1)
                   (fmul (fmul factkt (fsub one factkp)) v2))
             (fmul (fmul factkt factkp) v3))
       (fmul (fmul (fsub one factkt) factkp) v4).

Definition did_grad_cp (t p : float) (t_table p_table : list float)
    (grad cp : list (list float)) : res (float * float) :=
  b ← did_grad_cp_factors t p t_table p_table;
  let pos_t := pos_t b in
  let pos_p := pos_p b in
  gp1 ← getitem2 grad pos_t pos_p;
  gp2 ← getitem2 grad (pos_t + 1) pos_p;
  gp3 ← getitem2 grad (pos_t + 1) (pos_p + 1);
  gp4 ← getitem2 grad pos_t (pos_p + 1);
  cp1 ← getitem2 cp pos_t pos_p;
  cp2 ← getitem2 cp (pos_t + 1) pos_p;
  cp3 ← getitem2 cp (pos_t + 1) (pos_p + 1);
  cp4 ← getitem2 cp pos_t (pos_p + 1);
  factkt ← bound (factkt b);
  factkp ← bound (factkp b);
  let grad_x := bilinear factkt factkp gp1 gp2 gp3 gp4 in
  let cp_x := bilinear factkt factkp cp1 cp2 cp3 cp4 in
  let cp_x := pow10 cp_x in
  Ok (grad_x, cp_x).

End ConvectiveGradient.

(** ** LinearSolver: lu_decomp, lu_backsubs, mat_sol *)

Abbreviation matrix := (list (list float)).

Definition TINY : float := Fin (1 # 100000000000000000000).
Definition NMAX : Z := 100.

(** A store into an int8 array wraps around. *)
Definition wrap8 (z : Z) : Z := (z + 128) mod 256 - 128.

(** [numpy.zeros(shape=(n))]. *)
Definition zeros {A : Type} (zero : A) (n : Z) : res (list A) :=
  if n <? 0 then Raise NegativeDimension else Ok (replicate (Z.to_nat n) zero).

(** Lines 240-243: the largest magnitude of row [i]. *)
Definition row_max (a : matrix) (n i : Z) : res float :=
  for_range 0 n (fun j aamax =>
      x ← getitem2 a i j;
      if fgt (fabs x) aamax then x' ← getitem2 a i j; Ok (fabs x') else Ok aamax)
    (Fin 0).

(** Lines 239-246: the implicit scaling of each row. *)
Definition lu_scaling (a : matrix) (n : Z) (vv : list float) : res (list float) :=
  for_range 0 n (fun i vv =>
      aamax ← row_max a n i;
      if feq aamax (Fin 0) then Raise SingularMatrix
      else q ← fdiv (Fin 1) aamax; setitem vv i q)
    vv.

(** [for k in range(kmax): sum = sum - a[i,k]*a[k,j]]. *)
Definition lu_dot (a : matrix) (i j kmax : Z) (sum : float) : res float :=
  for_range 0 kmax (fun k sum =>
      x ← getitem2 a i k;
      y ← getitem2 a k j;
      Ok (fsub sum (fmul x y)))
    sum.

(** Lines 249-253. *)
Definition lu_upper (a : matrix) (j : Z) : res matrix :=
  for_range 0 j (fun i a =>
      sum ← getitem2 a i j;
      sum ← lu_dot a i j i sum;
      setitem2 a i j sum)
    a.

(** Lines 255-265: the rest of column [j] and the search of the pivot. *)
Definition lu_pivot (a : matrix) (vv : list float) (j n : Z) (imax : option Z)
    : res (matrix * option Z) :=
  '(a, _, imax) ← for_range j n (fun i '(a, aamax, imax) =>
      sum ← getitem2 a i j;
      sum ← lu_dot a i j j sum;
      a ← setitem2 a i j sum;
      v ← getitem vv i;
      let dum := fmul v (fabs sum) in
      if fge dum aamax then Ok (a, dum, Some i) else Ok (a, aamax, imax))
    (a, Fin 0, imax);
  Ok (a, imax).

(** Lines 268-271: rows [imax] and [j] change places. *)
Definition lu_swap (a : matrix) (n imax j : Z) : res matrix :=
  for_range 0 n (fun k a =>
      dum ← getitem2 a imax k;
      x ← getitem2 a j k;
      a ← setitem2 a imax k x;
      setitem2 a j k dum)
    a.

(** Lines 281-282. *)
Definition lu_scale (a : matrix) (j n : Z) (dum : float) : res matrix :=
  for_range (j + 1) n (fun i a =>
      x ← getitem2 a i j;
      setitem2 a i j (fmul x dum))
    a.

Record lu_state : Type := LU {
  lu_a : matrix; lu_vv : list float; lu_indx : list Z;
  lu_imax : option Z; lu_d : float }.

(** One pass of the loop over columns, lines 248-282.  [cast] is what a
    store into [indx] does to the pivot row. *)
Definition lu_column (cast : Z -> Z) (n j : Z) (st : lu_state) : res lu_state :=
  let '(LU a vv indx imax d) := st in
  a ← lu_upper a j;
  '(a, imax) ← lu_pivot a vv j n imax;
  im ← bound imax;
  '(a, d, vv) ←
    (if negb (j =? im) then
       a ← lu_swap a n im j;
       vj ← getitem vv j;
       vv ← setitem vv im vj;
       Ok (a, fneg d, vv)
     else Ok (a, d, vv));
  indx ← setitem indx j (cast im);
  ajj ← getitem2 a j j;
  a ← (if feq ajj (Fin 0) then setitem2 a j j TINY else Ok a);
  a ←
    (if negb (j =? n - 1) then
       ajj ← getitem2 a j j;
       dum ← fdiv (Fin 1) ajj;
       lu_scale a j n dum
     else Ok a);
  Ok (LU a vv indx imax d).

Definition lu_decomp_with (cast : Z -> Z) (a : matrix) (n ntot : Z)
    : res (matrix * list Z) :=
  let d := Fin 1 in
  vv ← zeros (Fin 0) NMAX;
  indx ← zeros 0 n;
  vv ← lu_scaling a n vv;
  st ← for_range 0 n (lu_column cast n) (LU a vv indx None d);
  Ok (lu_a st, lu_indx st).

(** [indx] has dtype [int8]. *)
Definition lu_decomp (a : matrix) (n ntot : Z) : res (matrix * list Z) :=
  lu_decomp_with wrap8 a n ntot.

(** Lines 313-324: forward substitution, undoing the permutation. *)
Definition lu_forward (a : matrix) (n : Z) (indx : list Z) (b : list float)
    : res (list float) :=
  '(b, _) ← for_range 0 n (fun i '(b, ii) =>
      ll ← getitem indx i;
      sum ← getitem b ll;
      bi ← getitem b i;
      b ← setitem b ll bi;
      '(sum, ii) ←
        (if negb (ii =? -1) then
           sum ← for_range ii i (fun j sum =>
                    x ← getitem2 a i j;
                    y ← getitem b j;
                    Ok (fsub sum (fmul x y)))
                  sum;
           Ok (sum, ii)
         else if negb (feq sum (Fin 0)) then Ok (sum, i)
         else Ok (sum, ii));
      b ← setitem b i sum;
      Ok (b, ii))
    (b, -1);
  Ok b.

(** Lines 326-331: back substitution. *)
Definition lu_backward (a : matrix) (n : Z) (b : list float) : res (list float) :=
  for_range_down (n - 1) (-1) (fun i b =>
      sum ← getitem b i;
      sum ← for_range (i + 1) n (fun j sum =>
               x ← getitem2 a i j;
               y ← getitem b j;
               Ok (fsub sum (fmul x y)))
             sum;
      aii ← getitem2 a i i;
      q ← fdiv sum aii;
      setitem b i q)
    b.

Definition lu_backsubs (a : matrix) (n ntot : Z) (indx : list Z) (b : list float)
    : res (list float) :=
  b ← lu_forward a n indx b;
  lu_backward a n b.

Definition mat_sol (a : matrix) (nlevel nstrat : Z) (dflux : list float)
    : res (matrix * list float) :=
  '(anew, indx) ← lu_decomp a nstrat nlevel;
  bnew ← lu_backsubs anew nstrat nlevel indx dflux;
  Ok (anew, bnew).

(** ** ConvectiveGradient: convec

    [moist_grad] is not compiled by numba and reads the opacity database:
    here it is a parameter, as is [numpy.sqrt]. *)

Section Convec.

Variable fsqrt : float -> float.
Variable log10 pow10 : float -> float.
Variable moist_grad : float -> float -> res (float * float).

(** One pass of [for j in range(len(temp)-1)], lines 128-131 and
    135-138, for the gradient routine [gradient] of its branch.  The
    state is [(tbar, pbar, grad_x, cp_x)]. *)
Definition convec_layer (gradient : float -> float -> res (float * float))
    (temp pressure : list float) (j : Z)
    (st : list float * list float * list float * list float)
    : res (list float * list float * list float * list float) :=
  let '(tbar, pbar, grad_x, cp_x) := st in
  tj ← getitem temp j;
  tj1 ← getitem temp (j + 1);
  tbar ← setitem tbar j (fmul (Fin (1 # 2)) (fadd tj tj1));
  pj ← getitem pressure j;
  pj1 ← getitem pressure (j + 1);
  pbar ← setitem pbar j (fsqrt (fmul pj pj1));
  tb ← getitem tbar j;
  pb ← getitem pbar j;
  '(g, c) ← gradient tb pb;
  grad_x ← setitem grad_x j g;
  cp_x ← setitem cp_x j c;
  Ok (tbar, pbar, grad_x, cp_x).

Definition convec (temp pressure t_table p_table : list float)
    (grad cp : list (list float)) (moist : bool) : res (list float * list float) :=
  let n := Z.of_nat (length temp) - 1 in
  tbar ← zeros (Fin 0) n;
  pbar ← zeros (Fin 0) n;
  grad_x ← zeros (Fin 0) n;
  cp_x ← zeros (Fin 0) n;
  '(_, _, grad_x, cp_x) ←
    (if moist then
       for_range 0 n (convec_layer moist_grad temp pressure) (tbar, pbar, grad_x, cp_x)
     else
       for_range 0 n
         (convec_layer (fun t p => did_grad_cp log10 pow10 t p t_table p_table grad cp)
            temp pressure)
         (tbar, pbar, grad_x, cp_x));
  Ok (grad_x, cp_x).

End Convec.

(** ** NewtonSolver: check_convergence *)

(** First loop: [max_i |f_vec[i]|] over the active entries. *)
Definition residual_test (f_vec : list float) (n_total : Z) : res float :=
  for_range 0 n_total (fun i test =>
      x ← getitem f_vec i;
      if fgt (fabs x) test then x' ← getitem f_vec i; Ok (fabs x') else Ok test)
    (Fin 0).

(** Second loop: [max_i |g[i]|*dflux[i]/den1]. *)
Definition gradient_test (g dflux : list float) (den1 : float) (n_total : Z) : res float :=
  for_range 0 n_total (fun i test =>
      gi ← getitem g i;
      di ← getitem dflux i;
      tmp ← fdiv (fmul (fabs gi) di) den1;
      if fgt tmp test then Ok tmp else Ok test)
    (Fin 0).

(** Third loop: [max_i |temp[i]-temp_old[i]|/temp_old[i]]. *)
Definition step_test (temp temp_old : list float) (n_total : Z) : res float :=
  for_range 0 n_total (fun i test =>
      ti ← getitem temp i;
      oi ← getitem temp_old i;
      oi' ← getitem temp_old i;
      tmp ← fdiv (fabs (fsub ti oi)) oi';
      if fgt tmp test then Ok tmp else Ok test)
    (Fin 0).

(** Returns [(flag_converge, check)]; flag 2 is "converged", flag 1
    "continue with the next outer iteration". *)
Definition check_convergence (f_vec : list float) (n_total : Z) (tolf : float)
    (check : bool) (f : float) (dflux : list float) (tolmin : float)
    (temp temp_old g : list float) (tolx : float) : res (Z * bool) :=
  test ← residual_test f_vec n_total;
  if flt test tolf then Ok (2, false)
  else if check then
    let den1 := fmax f (fmul (Fin (1#2)) (of_Z n_total)) in
    test ← gradient_test g dflux den1 n_total;
    let check := if flt test tolmin then true else false in
    Ok (2, check)
  else
    test ← step_test temp temp_old n_total;
    if flt test tolx then Ok (2, check)
    else Ok (1, check).

(** ** NewtonSolver: t_start

    Integer locals (level indices, counters) are unbounded integers.
    [print] statements are left out, except for what they evaluate. *)

(** The caller's arrays: [pressure] and [temp], level by level. *)
Record profile : Type := Profile { pressure : list float; temp : list float }.

Definition set_temp (prof : profile) (j : Z) (v : float) : res profile :=
  t ← setitem (temp prof) j v;
  Ok (Profile (pressure prof) t).

(** What [t_start] keeps of the eight arrays [climate] returns:
    [flux_net_v_layer_full[0,0,:]], [flux_net_v_full[0,0,:]], the two
    thermal net fluxes and [flux_plus_ir]. *)
Record fluxes : Type := Fluxes {
  flux_net_v_layer : list float; flux_net_v : list float;
  flux_net_ir_layer : list float; flux_net_ir : list float;
  flux_plus_ir : matrix }.

(** Elementwise [a + b] with NumPy's broadcasting of a length-1 array. *)
Definition vadd (a b : list float) : res (list float) :=
  match a, b with
  | [x], _ => Ok ((fun y => fadd x y) <$> b)
  | _, [y] => Ok ((fun x => fadd x y) <$> a)
  | _, _ => if (length a =? length b)%nat then Ok (zip_with fadd a b)
            else Raise ShapeMismatch
  end.

Definition vscale (c : float) (a : list float) : list float := fmul c <$> a.

(** [rfaci*ir + rfacv*v + tidal]. *)
Definition net_flux (rfaci rfacv : float) (ir v tidal : list float) : res (list float) :=
  s ← vadd (vscale rfaci ir) (vscale rfacv v);
  vadd s tidal.

Definition eps : float := Fin (1 # 10000).
Definition alf : float := Fin (1 # 10000).
Definition tolmin : float := Fin (1 # 100000).
Definition tolf : float := Fin (5 # 1000).
Definition tolx : float := tolf.
Definition step_max0 : float := Fin (1 # 100).

(** The guard against a negative offset: [(offset, flag)]. *)
Definition guard_offset (n_top_r : Z) : Z * Z :=
  if n_top_r <? 0 then (0, 1) else (n_top_r, 0).

(** [if flag == 1: offset = offset_temporary; flag = 0], then
    [offset += n_bot - n_strt]. *)
Definition next_offset (n_top_r offset flag n_bot n_strt : Z) : Z * Z :=
  let offset := if flag =? 1 then n_top_r else offset in
  (offset + (n_bot - n_strt), 0).

(** Lines 488-548: the residual vector, its merit sums and its largest
    magnitude.  Returns [(dflux, f_vec, sum, sum_1, test, n_total)]. *)
Definition assemble_residual (nofczns : Z) (nstr : list Z) (n_top_r : Z)
    (flux_net flux_net_midpt temp dflux f_vec : list float)
    : res (list float * list float * float * float * float * Z) :=
  let '(nao, flag_nao) := guard_offset n_top_r in
  '(dflux, f_vec, sum, sum_1, test, n_total, _, _) ←
    for_range3 nofczns (fun nca '(dflux, f_vec, sum, sum_1, test, n_total, nao, flag_nao) =>
      n_top_a ← getitem nstr nca;
      n_strt_a ← getitem nstr (nca + 1);
      n_bot ← getitem nstr (nca + 2);
      let n_bot_a := n_bot + 1 in
      '(dflux, f_vec, sum, sum_1, test, n_total) ←
        (if n_top_a =? n_top_r + 1 then
           x ← getitem flux_net (n_top_r + 1);
           dflux ← setitem dflux 0 x;
           d0 ← getitem dflux 0;
           f_vec ← setitem f_vec 0 d0;
           f0 ← getitem f_vec 0;
           let sum := fadd sum (fmul f0 f0) in
           t0 ← getitem temp 0;
           let sum_1 := fadd sum_1 (fmul t0 t0) in
           f0 ← getitem f_vec 0;
           test ← (if fgt (fabs f0) test
                   then d0 ← getitem dflux 0; Ok (fabs d0) else Ok test);
           Ok (dflux, f_vec, sum, sum_1, test, n_total + 1)
         else Ok (dflux, f_vec, sum, sum_1, test, n_total));
      '(dflux, f_vec, sum, sum_1, test, n_total) ←
        for_range (n_top_a + 1) (n_strt_a + 1)
          (fun j '(dflux, f_vec, sum, sum_1, test, n_total) =>
            x ← getitem flux_net_midpt (j - 1);
            dflux ← setitem dflux (j - nao) x;
            d ← getitem dflux (j - nao);
            f_vec ← setitem f_vec (j - nao) d;
            fj ← getitem f_vec (j - nao);
            let sum := fadd sum (fmul fj fj) in
            tj ← getitem temp (j - nao);
            let sum_1 := fadd sum_1 (fmul tj tj) in
            fj ← getitem f_vec (j - nao);
            test ← (if fgt (fabs fj) test
                    then d ← getitem dflux (j - nao); Ok (fabs d) else Ok test);
            Ok (dflux, f_vec, sum, sum_1, test, n_total + 1))
          (dflux, f_vec, sum, sum_1, test, n_total);
      let '(nao, flag_nao) := next_offset n_top_r nao flag_nao n_bot_a n_strt_a in
      Ok (dflux, f_vec, sum, sum_1, test, n_total, nao, flag_nao))
    (dflux, f_vec, Fin 0, Fin 0, Fin 0, 0, nao, flag_nao);
  Ok (dflux, f_vec, sum, sum_1, test, n_total).

(** Lines 883-921: the residual after a trial step.  Returns
    [(f_vec, sum)]. *)
Definition trial_residual (nofczns : Z) (nstr : list Z) (n_top_r : Z)
    (flux_net flux_net_midpt f_vec : list float) : res (list float * float) :=
  let '(nao, flag_nao) := guard_offset n_top_r in
  '(f_vec, sum, _, _) ←
    for_range3 nofczns (fun nca '(f_vec, sum, nao, flag_nao) =>
      n_top ← getitem nstr nca;
      let n_top_a := if nca =? 0 then n_top + 1 - 1 else n_top + 1 in
      n_strt_a ← getitem nstr (nca + 1);
      n_bot ← getitem nstr (nca + 2);
      let n_bot_a := n_bot + 1 in
      '(f_vec, sum) ←
        (if n_top_a =? n_top_r + 1 then
           x ← getitem flux_net (n_top_r + 1);
           f_vec ← setitem f_vec 0 x;
           f0 ← getitem f_vec 0;
           Ok (f_vec, fadd sum (fmul f0 f0))
         else
           x ← getitem flux_net_midpt (n_top_a - 1);
           f_vec ← setitem f_vec (n_top_a - nao) x;
           f0 ← getitem f_vec (n_top_a - nao);
           Ok (f_vec, fadd sum (fmul f0 f0)));
      '(f_vec, sum) ←
        for_range (n_top_a + 1) (n_strt_a + 1) (fun j '(f_vec, sum) =>
            x ← getitem flux_net_midpt (j - 1);
            f_vec ← setitem f_vec (j - nao) x;
            fj ← getitem f_vec (j - nao);
            Ok (f_vec, fadd sum (fmul fj fj)))
          (f_vec, sum);
      let '(nao, flag_nao) := next_offset n_top_r nao flag_nao n_bot_a n_strt_a in
      Ok (f_vec, sum, nao, flag_nao))
    (f_vec, Fin 0, nao, flag_nao);
  Ok (f_vec, sum).

(** What [t_start] is given, besides the profile. *)
Record inputs : Type := Inputs {
  nofczns : Z; nstr : list Z; it_max : Z;
  rfaci : float; rfacv : float; nlevel : Z;
  p_table : list float; t_table : list float;
  grad : matrix; cp : matrix;
  tidal : list float; tmin : float; tmax : float;
  save_profile : Z; all_profiles0 : list float;
  do_holes : bool; moist : bool }.

(** What [t_start] returns: [temp] (with the caller's [pressure], for the
    frame), [dtdp], [flag_converge], a thermal net flux,
    [flux_plus_ir[0,:]] and [all_profiles]. *)
Record output : Type := Output {
  out_profile : profile; out_dtdp : list float; out_flag : Z;
  out_flux : list float; out_flux_plus : list float;
  out_all_profiles : list float }.

(** The Jacobian column of level [jm], lines 663-711; [fl] is the flux of
    the perturbed profile. *)
Definition jacobian_column (nofczns : Z) (nstr : list Z) (n_top_r jm no : Z)
    (del_t : float) (fl_ir fl_ir_layer flux_net_old flux_net_midpt_old : list float)
    (A : matrix) : res matrix :=
  let '(nco, flag_nco) := guard_offset n_top_r in
  '(A, _, _) ←
    for_range3 nofczns (fun nc '(A, nco, flag_nco) =>
      n_top ← getitem nstr nc;
      let n_top_c := if nc =? 0 then n_top + 1 - 1 else n_top + 1 in
      n_strt_c ← getitem nstr (nc + 1);
      n_bot ← getitem nstr (nc + 2);
      let n_bot_c := n_bot + 1 in
      A ←
        (if n_top_c =? n_top_r + 1 then
           x ← getitem fl_ir n_top_c;
           y ← getitem flux_net_old n_top_c;
           q ← fdiv (fsub x y) del_t;
           setitem2 A (n_top_c - nco) (jm - no) q
         else
           x ← getitem fl_ir_layer (n_top_c - 1);
           y ← getitem flux_net_midpt_old (n_top_c - 1);
           q ← fdiv (fsub x y) del_t;
           setitem2 A (n_top_c - nco) (jm - no) q);
      A ←
        for_range n_top_c n_strt_c (fun im A =>
            x ← getitem fl_ir_layer im;
            y ← getitem flux_net_midpt_old im;
            q ← fdiv (fsub x y) del_t;
            setitem2 A (im + 1 - nco) (jm - no) q)
          A;
      let '(nco, flag_nco) := next_offset n_top_r nco flag_nco n_bot_c n_strt_c in
      Ok (A, nco, flag_nco))
    (A, nco, flag_nco);
  Ok A.

(** Lines 726-733: [g = A^T f_vec] and [p = -f_vec]. *)
Definition gradient_and_rhs (n_total : Z) (A : matrix) (f_vec g p : list float)
    : res (list float * list float) :=
  for_range 0 n_total (fun i '(g, p) =>
      sum ← for_range 0 n_total (fun j sum =>
               x ← getitem2 A j i;
               y ← getitem f_vec j;
               Ok (fadd sum (fmul x y)))
             (Fin 0);
      g ← setitem g i sum;
      fi ← getitem f_vec i;
      p ← setitem p i (fneg fi);
      Ok (g, p))
    (g, p).

(** Lines 750-760. [sum]: the norm of the step without its first two
    entries; [cap_step]: the step scaled down to [step_max]. *)
Definition step_norm (fsqrt : float -> float) (n_total : Z) (p : list float) : res float :=
  sum ← for_range 2 n_total (fun i sum =>
           pi ← getitem p i; Ok (fadd sum (fmul pi pi)))
         (Fin 0);
  Ok (fsqrt sum).

Definition cap_step (n_total : Z) (step_max sum : float) (p dflux : list float)
    : res (list float * list float) :=
  if fgt sum step_max then
    for_range 0 n_total (fun i '(p, dflux) =>
        pi ← getitem p i;
        q ← fdiv step_max sum;
        p ← setitem p i (fmul pi q);
        pi ← getitem p i;
        dflux ← setitem dflux i (fneg pi);
        Ok (p, dflux))
      (p, dflux)
  else Ok (p, dflux).

(** Lines 762-778. *)
Definition slope_of (n_total : Z) (g p : list float) : res float :=
  for_range 0 n_total (fun i slope =>
      gi ← getitem g i; pi ← getitem p i; Ok (fadd slope (fmul gi pi)))
    (Fin 0).

Definition largest_relative_step (n_total : Z) (p temp_old : list float) : res float :=
  for_range 0 n_total (fun i test =>
      pi ← getitem p i;
      oi ← getitem temp_old i;
      tmp ← fdiv (fabs pi) oi;
      if fgt tmp test then Ok tmp else Ok test)
    (Fin 0).

(** Lines 791-807: [err] and [jmx], which nothing reads afterwards.
    [jmx] is a local of [t_start] that no pass resets: it starts unbound
    and keeps the value of the previous pass when no [|p[j]|] is
    positive. *)
Definition step_statistics (n_total n_top_r : Z) (nstr : list Z) (p : list float)
    (jmx : option Z) : res (option Z) :=
  '(dmx, jmx, err) ←
    for_range 0 n_total (fun j '(dmx, jmx, err) =>
        pj ← getitem p j;
        let dzx := fabs pj in
        let '(dmx, jmx) := if fgt dzx dmx then (dzx, Some (j + n_top_r)) else (dmx, jmx) in
        Ok (dmx, jmx, fadd err dzx))
      (Fin 0, jmx, Fin 0);
  err ← fdiv err (fmul (of_Z n_total) (Fin 1));
  jmx ← bound jmx;
  n1 ← getitem nstr 1;
  if jmx >? n1 then
    n2 ← getitem nstr 2; n1' ← getitem nstr 1; Ok (Some (jmx + (n2 - n1')))
  else Ok (Some jmx).

(** Lines 850-856: the artificial damper; [damper_level] is the body of
    its loop. *)
Definition damper_level (tmin tmax : float) (j1 : Z) (prof : profile) : res profile :=
  t ← getitem (temp prof) j1;
  if flt t tmin then set_temp prof j1 (fadd tmin (Fin (1 # 10)))
  else
    t ← getitem (temp prof) j1;
    if fgt t tmax then set_temp prof j1 (fsub tmax (Fin (1 # 10)))
    else Ok prof.

Definition damper (n_top_r nlevel : Z) (tmin tmax : float) (prof : profile) : res profile :=
  for_range (n_top_r + 1) (nlevel + 1) (damper_level tmin tmax) prof.

(** Lines 945-975: the new step length when backtracking. *)
Definition backtrack (fsqrt : float -> float) (alam alam2 f f2 f_old slope : float)
    : res float :=
  if feq alam (Fin 1) then
    fdiv (fneg slope) (fmul (Fin 2) (fsub (fsub f f_old) slope))
  else
    let rhs_1 := fsub (fsub f f_old) (fmul alam slope) in
    let rhs_2 := fsub (fsub f2 f_old) (fmul alam2 slope) in
    q1 ← fdiv rhs_1 (fmul alam alam);
    q2 ← fdiv rhs_2 (fmul alam2 alam2);
    anr ← fdiv (fsub q1 q2) (fsub alam alam2);
    q1 ← fdiv (fmul (fneg alam2) rhs_1) (fmul alam alam);
    q2 ← fdiv (fmul alam rhs_2) (fmul alam2 alam2);
    b ← fdiv (fadd q1 q2) (fsub alam alam2);
    tmplam ←
      (if feq anr (Fin 0) then fdiv (fneg slope) (fmul (Fin 2) b)
       else
         let disc := fsub (fmul b b) (fmul (fmul (Fin 3) anr) slope) in
         if flt disc (Fin 0) then Ok (fmul (Fin (1 # 2)) alam)
         else if fle b (Fin 0) then
           fdiv (fadd (fneg b) (fsqrt disc)) (fmul (Fin 3) anr)
         else fdiv (fneg slope) (fadd b (fsqrt disc)));
    if fgt tmplam (fmul (Fin (1 # 2)) alam) then Ok (fmul (Fin (1 # 2)) alam)
    else Ok tmplam.

(** [np.sum(temp)], and lines 982-985: the guard against NaN.  Returns
    [(flag_converge, temp)]. *)
Definition np_sum (a : list float) : float := foldl fadd (Fin 0) a.

Definition nan_guard (flag_converge : Z) (temp_old : list float) (prof : profile)
    : Z * profile :=
  if isnan (np_sum (temp prof))
  then (1, Profile (pressure prof) ((fun x => fadd x (Fin (1 # 2))) <$> temp_old))
  else (flag_converge, prof).

(** The state of the solver between two outer iterations. *)
Record solver_state : Type := Solver {
  s_prof : profile; s_fl : fluxes;
  s_dflux : list float; s_f_vec : list float;
  s_p : list float; s_g : list float; s_A : matrix;
  s_step_max : float; s_alam2 : float; s_tmplam : option float;
  s_jmx : option Z; s_flag : option Z; s_all_profiles : list float }.

(** An outer iteration ends in a [return] or goes on to the next one. *)
Inductive step_result : Type :=
| Return (o : output)
| Continue (s : solver_state).

(** The state of the line search between two trial steps. *)
Record ls_state : Type := LS {
  ls_prof : profile; ls_fl : fluxes; ls_flux_net : list float;
  ls_f_vec : list float;
  ls_alam : float; ls_alam2 : float; ls_f : float; ls_f2 : float;
  ls_tmplam : option float; ls_jmx : option Z; ls_flag : Z; ls_check : bool }.

(** A thermal-only evaluation replaces the thermal part of the fluxes. *)
Definition update_ir (fl fl' : fluxes) : fluxes :=
  Fluxes (flux_net_v_layer fl) (flux_net_v fl)
         (flux_net_ir_layer fl') (flux_net_ir fl') (flux_plus_ir fl').

(** [print(..., min(temp), max(temp), ..., flux_net[0]/abs(tidal[0]))]:
    what evaluating the arguments can raise. *)
Definition print_balance (temp flux_net tidal : list float) : res unit :=
  _ ← (if decide (temp = []) then Raise EmptyReduction else Ok tt);
  x ← getitem flux_net 0;
  t0 ← getitem tidal 0;
  _ ← fdiv x (fabs t0);
  Ok tt.

Section NewtonSolver.

(** [numpy.sqrt], [exp] and [log]; [log10] and [10**x] for
    [did_grad_cp]; [moist_grad], which is experimental and depends on the
    opacity database; and [climate], which assembles its fluxes from the
    two-stream kernels of [picaso.fluxes]: a pure function of the profile
    and of the band selectors [reflected], [thermal], [do_holes]. *)
Variable fsqrt fexp flog : float -> float.
Variable log10 pow10 : float -> float.
Variable moist_grad : float -> float -> res (float * float).
Variable climate : profile -> bool -> bool -> bool -> res fluxes.

Variable inp : inputs.

Definition gradient (t p : float) : res (float * float) :=
  if moist inp then moist_grad t p
  else did_grad_cp log10 pow10 t p (t_table inp) (p_table inp) (grad inp) (cp inp).

(** Lines 640-650 and 859-869: thermal only, and once more with the
    clear-sky arrays when [do_holes]. *)
Definition thermal_flux (prof : profile) : res fluxes :=
  fl ← climate prof false true false;
  if do_holes inp then climate prof false true true else Ok fl.

(** [temp[j1] = exp(log(temp[j1-1]) + grad_x*(log(pressure[j1]) -
    log(pressure[j1-1])))]. *)
Definition adiabat_store (grad_x : float) (j1 : Z) (prof : profile) : res profile :=
  tprev ← getitem (temp prof) (j1 - 1);
  pb ← getitem (pressure prof) j1;
  pa ← getitem (pressure prof) (j1 - 1);
  set_temp prof j1 (fexp (fadd (flog tprev) (fmul grad_x (fsub (flog pb) (flog pa))))).

(** Lines 604-633: the profile rebuilt from the perturbed [beta]. *)
Definition rebuild (beta : list float) (prof : profile) : res profile :=
  for_range3 (nofczns inp) (fun nb prof =>
      n_top ← getitem (nstr inp) nb;
      let n_top_b := if nb =? 0 then n_top + 1 - 1 else n_top + 1 in
      n_strt_b ← getitem (nstr inp) (nb + 1);
      let n_conv_top_b := n_strt_b + 1 in
      n_bot ← getitem (nstr inp) (nb + 2);
      let n_bot_b := n_bot + 1 in
      prof ← for_range n_top_b (n_strt_b + 1) (fun j1 prof =>
                b ← getitem beta j1; set_temp prof j1 b)
              prof;
      for_range n_conv_top_b (n_bot_b + 1) (fun j1 prof =>
          pa ← getitem (pressure prof) (j1 - 1);
          pb ← getitem (pressure prof) j1;
          let press := fsqrt (fmul pa pb) in
          tg ← getitem beta (j1 - 1);
          '(grad_x, cp_x) ← gradient tg press;
          adiabat_store grad_x j1 prof)
        prof)
    prof.

(** Lines 567-721: the Jacobian by finite differences. *)
Definition jacobian (n_top_r : Z) (temp_old flux_net_old flux_net_midpt_old : list float)
    (prof : profile) (beta : list float) (fl : fluxes) (A : matrix)
    : res (profile * list float * fluxes * matrix) :=
  let '(no, flag_no) := guard_offset n_top_r in
  '(prof, beta, fl, A, _, _) ←
    for_range3 (nofczns inp) (fun nz '(prof, beta, fl, A, no, flag_no) =>
      n_top ← getitem (nstr inp) nz;
      n_strt ← getitem (nstr inp) (nz + 1);
      n_bot ← getitem (nstr inp) (nz + 2);
      let n_conv_bot := n_bot + 1 in
      let n_top := if nz =? 0 then n_top + 1 - 1 else n_top + 1 in
      '(prof, beta, fl, A) ←
        for_range n_top (n_strt + 1) (fun jm '(prof, beta, fl, A) =>
            to ← getitem temp_old jm;
            let del_t := fmax (fmul eps to) (Fin 3) in
            bj ← getitem beta jm;
            beta ← setitem beta jm (fadd bj del_t);
            prof ← rebuild beta prof;
            fl' ← thermal_flux prof;
            let fl := update_ir fl fl' in
            A ← jacobian_column (nofczns inp) (nstr inp) n_top_r jm no del_t
                  (flux_net_ir fl) (flux_net_ir_layer fl)
                  flux_net_old flux_net_midpt_old A;
            bj ← getitem beta jm;
            beta ← setitem beta jm (fsub bj del_t);
            Ok (prof, beta, fl, A))
          (prof, beta, fl, A);
      let '(no, flag_no) := next_offset n_top_r no flag_no n_conv_bot n_strt in
      Ok (prof, beta, fl, A, no, flag_no))
    (prof, beta, fl, A, no, flag_no);
  Ok (prof, beta, fl, A).

(** Lines 809-848: the trial profile [beta + alam*p]. *)
Definition trial_step (n_top_r : Z) (alam : float) (beta p : list float)
    (prof : profile) : res profile :=
  let '(ndo, flag_ndo) := guard_offset n_top_r in
  '(prof, _, _) ←
    for_range3 (nofczns inp) (fun nd '(prof, ndo, flag_ndo) =>
      n_top ← getitem (nstr inp) nd;
      let n_top_d := if nd =? 0 then n_top + 1 - 1 else n_top + 1 in
      n_strt_d ← getitem (nstr inp) (nd + 1);
      n_bot ← getitem (nstr inp) (nd + 2);
      let n_bot_d := n_bot + 1 in
      prof ← for_range n_top_d (n_strt_d + 1) (fun j prof =>
                b ← getitem beta j;
                pj ← getitem p (j - ndo);
                set_temp prof j (fadd b (fmul alam pj)))
              prof;
      prof ← for_range (n_strt_d + 1) (n_bot_d + 1) (fun j1 prof =>
                pa ← getitem (pressure prof) (j1 - 1);
                pb ← getitem (pressure prof) j1;
                let press := fsqrt (fmul pa pb) in
                tg ← getitem (temp prof) (j1 - 1);
                '(grad_x, cp_x) ← gradient tg press;
                adiabat_store grad_x j1 prof)
              prof;
      let '(ndo, flag_ndo) := next_offset n_top_r ndo flag_ndo n_bot_d n_strt_d in
      Ok (prof, ndo, flag_ndo))
    (prof, ndo, flag_ndo);
  Ok prof.

(** Lines 557-559, 993-995, 1004-1006: the lapse rate. *)
Definition lapse_rate (prof : profile) : res (list float) :=
  dtdp ← zeros (Fin 0) (nlevel inp - 1);
  for_range 0 (nlevel inp - 1) (fun j dtdp =>
      tj ← getitem (temp prof) j;
      tj1 ← getitem (temp prof) (j + 1);
      pj ← getitem (pressure prof) j;
      pj1 ← getitem (pressure prof) (j + 1);
      q ← fdiv (fsub (flog tj) (flog tj1)) (fsub (flog pj) (flog pj1));
      setitem dtdp j q)
    dtdp.

(** One pass of the [while flag_converge == 0] loop, lines 790-986, in two
    halves.  [ls_trial], lines 790-856: the trial profile, damped. *)
Definition ls_trial (n_top_r n_total : Z) (beta p : list float) (st : ls_state)
    : res (option Z * profile) :=
  jmx ← step_statistics n_total n_top_r (nstr inp) p (ls_jmx st);
  prof ← trial_step n_top_r (ls_alam st) beta p (ls_prof st);
  prof ← damper n_top_r (nlevel inp) (tmin inp) (tmax inp) prof;
  Ok (jmx, prof).

(** [ls_accept], lines 858-986: the flux and the merit of the trial
    profile, then convergence check or backtracking, then the NaN guard. *)
Definition ls_accept (n_top_r n_total : Z) (dflux temp_old g : list float)
    (f_old slope alamin : float) (st : ls_state) (jmx : option Z) (prof : profile)
    : res ls_state :=
  let alam := ls_alam st in
  fl' ← thermal_flux prof;
  let fl := update_ir (ls_fl st) fl' in
  flux_net ← net_flux (rfaci inp) (rfacv inp) (flux_net_ir fl) (flux_net_v fl) (tidal inp);
  flux_net_midpt ←
    net_flux (rfaci inp) (rfacv inp) (flux_net_ir_layer fl) (flux_net_v_layer fl) (tidal inp);
  '(f_vec, sum) ←
    trial_residual (nofczns inp) (nstr inp) n_top_r flux_net flux_net_midpt (ls_f_vec st);
  let f := fmul (Fin (1 # 2)) sum in
  '(flag, check, tmplam) ←
    (if flt alam alamin then
       '(flag, check) ←
         check_convergence f_vec n_total tolf true f dflux tolmin
           (temp prof) temp_old g tolx;
       Ok (flag, check, ls_tmplam st)
     else if fle f (fadd f_old (fmul (fmul alf alam) slope)) then
       '(flag, check) ←
         check_convergence f_vec n_total tolf (ls_check st) f dflux tolmin
           (temp prof) temp_old g tolx;
       Ok (flag, check, ls_tmplam st)
     else
       tmplam ← backtrack fsqrt alam (ls_alam2 st) f (ls_f2 st) f_old slope;
       Ok (ls_flag st, ls_check st, Some tmplam));
  '(alam, alam2, f2) ←
    (if negb (flag =? 2) && negb (flag =? 1) then
       tmplam ← bound tmplam;
       Ok (fmax tmplam (fmul (Fin (1 # 10)) alam), alam, f)
     else Ok (alam, ls_alam2 st, ls_f2 st));
  let '(flag, prof) := nan_guard flag temp_old prof in
  Ok (LS prof fl flux_net f_vec alam alam2 f f2 tmplam jmx flag check).

Definition ls_body (n_top_r n_total : Z) (beta p dflux temp_old g : list float)
    (f_old slope alamin : float) (st : ls_state) : res ls_state :=
  '(jmx, prof) ← ls_trial n_top_r n_total beta p st;
  ls_accept n_top_r n_total dflux temp_old g f_old slope alamin st jmx prof.

(** The [while] loop; [fuel] bounds the number of trial steps. *)
Fixpoint line_search (fuel : nat) (n_top_r n_total : Z)
    (beta p dflux temp_old g : list float) (f_old slope alamin : float)
    (st : ls_state) : res ls_state :=
  match fuel with
  | O => Raise OutOfFuel
  | S fuel' =>
    st' ← ls_body n_top_r n_total beta p dflux temp_old g f_old slope alamin st;
    if ls_flag st' =? 0
    then line_search fuel' n_top_r n_total beta p dflux temp_old g f_old slope alamin st'
    else Ok st'
  end.

(** The [return] of a converged solution, lines 556-561 and 991-1001. *)
Definition converged (prof : profile) (fl : fluxes) (all_profiles : list float)
    : res output :=
  dtdp ← lapse_rate prof;
  fp ← getitem (flux_plus_ir fl) 0;
  Ok (Output prof dtdp 2 (flux_net_ir fl) fp all_profiles).

(** Lines 987-1001: after the line search. *)
Definition finish (temp_old dflux p g : list float) (A : matrix) (step_max : float)
    (all_profiles : list float) (ls : ls_state) : res step_result :=
  _ ← print_balance (temp (ls_prof ls)) (ls_flux_net ls) (tidal inp);
  let all_profiles :=
    if save_profile inp =? 1 then all_profiles ++ temp_old else all_profiles in
  if ls_flag ls =? 2 then
    dtdp ← lapse_rate (ls_prof ls);
    fp ← getitem (flux_plus_ir (ls_fl ls)) 0;
    Ok (Return (Output (ls_prof ls) dtdp (ls_flag ls) (flux_net_ir (ls_fl ls)) fp
                  all_profiles))
  else
    Ok (Continue (Solver (ls_prof ls) (ls_fl ls) dflux (ls_f_vec ls) p g A step_max
                    (ls_alam2 ls) (ls_tmplam ls) (ls_jmx ls) (Some (ls_flag ls))
                    all_profiles)).

(** One pass of [for its in range(it_max)], lines 472-1001. *)
Definition iteration (fuel : nat) (n_top_r : Z) (s : solver_state) : res step_result :=
  let prof := s_prof s in
  let fl := s_fl s in
  flux_net ← net_flux (rfaci inp) (rfacv inp) (flux_net_ir fl) (flux_net_v fl) (tidal inp);
  flux_net_midpt ←
    net_flux (rfaci inp) (rfacv inp) (flux_net_ir_layer fl) (flux_net_v_layer fl) (tidal inp);
  let beta := temp prof in
  let temp_old := temp prof in
  let flux_net_old := flux_net_ir fl in
  let flux_net_midpt_old := flux_net_ir_layer fl in
  '(dflux, f_vec, sum, sum_1, test, n_total) ←
    assemble_residual (nofczns inp) (nstr inp) n_top_r flux_net flux_net_midpt
      (temp prof) (s_dflux s) (s_f_vec s);
  let f := fmul (Fin (1 # 2)) sum in
  t0 ← getitem (tidal inp) 0;
  r ← fdiv test (fabs t0);
  if flt r (fmul (Fin (1 # 100)) tolf) then
    o ← converged prof fl (s_all_profiles s);
    Ok (Return o)
  else
    let step_max :=
      fmul (s_step_max s) (fmax (fsqrt sum_1) (fmul (of_Z n_total) (Fin 1))) in
    '(prof, beta, fl, A) ←
      jacobian n_top_r temp_old flux_net_old flux_net_midpt_old prof beta fl (s_A s);
    '(g, p) ← gradient_and_rhs n_total A f_vec (s_g s) (s_p s);
    let f_old := f in
    '(A, p) ← mat_sol A (nlevel inp) n_total p;
    sum ← step_norm fsqrt n_total p;
    '(p, dflux) ← cap_step n_total step_max sum p dflux;
    slope ← slope_of n_total g p;
    test ← largest_relative_step n_total p temp_old;
    alamin ← fdiv tolx test;
    ls ← line_search fuel n_top_r n_total beta p dflux temp_old g f_old slope alamin
            (LS prof fl flux_net f_vec (Fin 1) (s_alam2 s) f f (s_tmplam s) (s_jmx s)
                0 false);
    finish temp_old dflux p g A step_max (s_all_profiles s) ls.

(** Lines 1003-1009: the iterations are used up. *)
Definition exhausted (s : solver_state) : res output :=
  dtdp ← lapse_rate (s_prof s);
  flag ← bound (s_flag s);
  fp ← getitem (flux_plus_ir (s_fl s)) 0;
  Ok (Output (s_prof s) dtdp flag (flux_net_ir_layer (s_fl s)) fp (s_all_profiles s)).

Fixpoint outer_loop (its : nat) (fuel : nat) (n_top_r : Z) (s : solver_state)
    : res output :=
  match its with
  | O => exhausted s
  | S its' =>
    r ← iteration fuel n_top_r s;
    match r with
    | Return o => Ok o
    | Continue s' => outer_loop its' fuel n_top_r s'
    end
  end.

Definition t_start (fuel : nat) (prof : profile) : res output :=
  n0 ← getitem (nstr inp) 0;
  let n_top_r := n0 - 1 in
  fl ← (if do_holes inp then climate prof true true true
        else climate prof true true false);
  flux_net ← zeros (Fin 0) (nlevel inp);
  flux_net_midpt ← zeros (Fin 0) (nlevel inp);
  dflux ← zeros (Fin 0) (nlevel inp);
  f_vec ← zeros (Fin 0) (nlevel inp);
  p ← zeros (Fin 0) (nlevel inp);
  g ← zeros (Fin 0) (nlevel inp);
  row ← zeros (Fin 0) (nlevel inp);
  A ← zeros row (nlevel inp);
  outer_loop (Z.to_nat (it_max inp)) fuel n_top_r
    (Solver prof fl dflux f_vec p g A step_max0 (Fin 0) None None None
       (all_profiles0 inp)).

End NewtonSolver.


(** ** MoistAdiabat: polyAE, cpfunc, hvapfunc

    The coefficient lists are Python lists: an index out of range
    raises, also in compiled code. *)

(** [A[it] + B[it]*t + C[it]*t**2 + D[it]*t**3 + E[it]/t**2]. *)
Definition polyAE (A B C D E : list float) (t : float) (it : Z) : res float :=
  a ← getitem A it;
  b ← getitem B it;
  c ← getitem C it;
  d ← getitem D it;
  e ← getitem E it;
  q ← fdiv e (fmul t t);
  Ok (fadd (fadd (fadd (fadd a (fmul b t)) (fmul c (fmul t t)))
                 (fmul d (fmul (fmul t t) t)))
           q).

(** The locals [A], [B], [C], [D], [E], [G] and [default_cp] that the
    branch of a gas assigns. *)
Record cp_fit : Type := CpFit {
  fit_A : list float; fit_B : list float; fit_C : list float;
  fit_D : list float; fit_E : list float; fit_G : list float;
  fit_default : float }.

(** Lines 1739-1885: gases 9 to 25; any other gas leaves the locals
    unassigned. *)
Definition cp_coefficients (igas : Z) : option cp_fit :=
  if igas =? 9 then (* h2o *)
    Some (CpFit
      [Fin (337476 # 10000); Fin (221440 # 10000); Fin (432009 # 10000)]
      [Fin (-685376 # 100000); Fin (246949 # 10000); Fin (791703 # 100000)]
      [Fin (246006 # 10000); Fin (-623914 # 100000); Fin (-135732 # 100000)]
      [Fin (-102578 # 10000); Fin (576813 # 1000000); Fin (883558 # 10000000)]
      [Fin (170650 # 1000000000); Fin (-143783 # 10000000); Fin (-123810 # 10000)]
      [Fin (230708 # 1000); Fin (210968 # 1000); Fin (219916 # 1000)]
      (Fin (33299 # 1000)))
  else if igas =? 10 then (* ch4 *)
    Some (CpFit
      [Fin (301333 # 10000); Fin (333642 # 10000); Fin (107517 # 1000)]
      [Fin (-107805 # 10000); Fin (629633 # 10000); Fin (-420051 # 1000000)]
      [Fin (116987 # 1000); Fin (-209146 # 10000); Fin (158105 # 1000000)]
      [Fin (-648550 # 10000); Fin (254256 # 100000); Fin (-135050 # 10000000)]
      [Fin (315890 # 10000000); Fin (-626634 # 100000); Fin (-532270 # 10000)]
      [Fin (221436 # 1000); Fin (191066 # 1000); Fin (225284 # 1000)]
      (Fin (33258 # 1000)))
  else if igas =? 11 then (* co *)
    Some (CpFit
      [Fin (307036 # 10000); Fin (342259 # 10000); Fin (353293 # 10000)]
      [Fin (-117368 # 10000); Fin (151655 # 100000); Fin (114525 # 100000)]
      [Fin (258658 # 10000); Fin (492481 # 10000000); Fin (-170423 # 1000000)]
      [Fin (-116476 # 10000); Fin (-690167 # 10000000); Fin (111323 # 10000000)]
      [Fin (-675277 # 100000000); Fin (-261424 # 100000); Fin (-285798 # 100000)]
      [Fin (237225 # 1000); Fin (231715 # 1000); Fin (231882 # 1000)]
      (Fin (29104 # 1000)))
  else if igas =? 12 then (* nh3 *)
    Some (CpFit
      [Fin (286905 # 10000); Fin (480925 # 10000); Fin (893168 # 10000)]
      [Fin (149648 # 10000); Fin (166892 # 10000); Fin (-283260 # 10000000)]
      [Fin (322849 # 10000); Fin (-765783 # 1000000); Fin (-403009 # 1000000)]
      [Fin (-195766 # 10000); Fin (-465621 # 1000000); Fin (366428 # 10000000)]
      [Fin (281968 # 10000000); Fin (-737491 # 100000); Fin (-685295 # 10000)]
      [Fin (221899 # 1000); Fin (226660 # 1000); Fin (222041 # 1000)]
      (Fin (33284 # 1000)))
  else if igas =? 13 then (* n2 *)
    Some (CpFit
      [Fin (307036 # 10000); Fin (342259 # 10000); Fin (353293 # 10000)]
      [Fin (-117368 # 10000); Fin (151655 # 100000); Fin (114525 # 100000)]
      [Fin (258658 # 10000); Fin (492481 # 10000000); Fin (-170423 # 1000000)]
      [Fin (-116476 # 10000); Fin (-690167 # 10000000); Fin (111323 # 10000000)]
      [Fin (-675277 # 100000000); Fin (-261424 # 100000); Fin (-285798 # 100000)]
      [Fin (237225 # 1000); Fin (231715 # 1000); Fin (231882 # 1000)]
      (Fin (29104 # 1000)))
  else if igas =? 14 then (* ph3 *)
    Some (CpFit
      [Fin (241623 # 10000); Fin (754246 # 10000); Fin (823854 # 10000)]
      [Fin (357131 # 10000); Fin (-467915 # 1000000); Fin (229399 # 1000000)]
      [Fin (284716 # 10000); Fin (270503 # 100000); Fin (-280155 # 10000000)]
      [Fin (-242205 # 10000); Fin (-650872 # 1000000); Fin (135605 # 100000000)]
      [Fin (530053 # 10000000); Fin (-130455 # 10000); Fin (-242573 # 10000)]
      [Fin (228047 # 1000); Fin (262751 # 1000); Fin (258876 # 1000)]
      (Fin (33259 # 1000)))
  else if igas =? 15 then (* h2s *)
    Some (CpFit
      [Fin (323729 # 10000); Fin (450479 # 10000); Fin (598489 # 10000)]
      [Fin (-143579 # 100000); Fin (728547 # 100000); Fin (-380368 # 1000000)]
      [Fin (290118 # 10000); Fin (-645552 # 1000000); Fin (218138 # 1000000)]
      [Fin (-141925 # 10000); Fin (-109566 # 1000000); Fin (-148742 # 10000000)]
      [Fin (759539 # 100000000); Fin (-602580 # 100000); Fin (-217958 # 10000)]
      [Fin (244187 # 1000); Fin (242650 # 1000); Fin (243798 # 1000)]
      (Fin (33259 # 1000)))
  else if igas =? 16 then (* tio *)
    Some (CpFit
      [Fin (246205 # 10000); Fin (425795 # 10000); Fin (256986 # 10000)]
      [Fin (308607 # 10000); Fin (-386291 # 100000); Fin (245240 # 100000)]
      [Fin (-232493 # 10000); Fin (115148 # 100000); Fin (770717 # 1000000)]
      [Fin (539026 # 100000); Fin (-315822 # 10000000); Fin (-946717 # 10000000)]
      [Fin (642488 # 10000000); Fin (-214344 # 100000); Fin (261268 # 10000)]
      [Fin (255386 # 1000); Fin (278646 # 1000); Fin (282105 # 1000)]
      (Fin (33880 # 1000)))
  else if igas =? 17 then (* vo *)
    Some (CpFit
      [Fin (236324 # 10000); Fin (402277 # 10000); Fin (310958 # 10000)]
      [Fin (288676 # 10000); Fin (-268241 # 100000); Fin (444865 # 10000000)]
      [Fin (-215825 # 10000); Fin (855477 # 1000000); Fin (106932 # 100000)]
      [Fin (535779 # 100000); Fin (-729363 # 100000000); Fin (-106395 # 1000000)]
      [Fin (281114 # 10000000); Fin (-210348 # 100000); Fin (137865 # 10000)]
      [Fin (251949 # 1000); Fin (273020 # 1000); Fin (275689 # 1000)]
      (Fin (29106 # 1000)))
  else if igas =? 18 then (* fe *)
    Some (CpFit
      [Fin (225120 # 10000); Fin (293785 # 10000); Fin (310353 # 10000)]
      [Fin (236042 # 10000); Fin (-127912 # 10000); Fin (-309778 # 100000)]
      [Fin (-495765 # 10000); Fin (680824 # 100000); Fin (766662 # 1000000)]
      [Fin (261116 # 10000); Fin (-979241 # 1000000); Fin (158800 # 100000000)]
      [Fin (-305055 # 10000000); Fin (621550 # 10000000); Fin (-220154 # 10000)]
      [Fin (202527 # 1000); Fin (219780 # 1000); Fin (206035 # 1000)]
      (Fin (21387 # 1000)))
  else if igas =? 19 then (* feh *)
    Some (CpFit
      [Fin (170970 # 10000); Fin (437692 # 10000); Fin (800135 # 10000)]
      [Fin (520678 # 10000); Fin (968978 # 1000000); Fin (-182832 # 10000)]
      [Fin (-343367 # 10000); Fin (818403 # 1000000); Fin (355466 # 100000)]
      [Fin (796189 # 100000); Fin (-356898 # 1000000); Fin (-288758 # 1000000)]
      [Fin (455643 # 1000000); Fin (-188073 # 100000); Fin (-410125 # 10000)]
      [Fin (285000 # 1000); Fin (285000 # 1000); Fin (285000 # 1000)]
      (Fin (34906 # 1000)))
  else if igas =? 20 then (* crh *)
    Some (CpFit
      [Fin (246453 # 10000); Fin (409948 # 10000); Fin (100083 # 1000)]
      [Fin (129392 # 10000); Fin (-329251 # 100000); Fin (-362074 # 10000)]
      [Fin (477315 # 10000000); Fin (140327 # 100000); Fin (779945 # 100000)]
      [Fin (-245803 # 100000); Fin (-468814 # 10000000); Fin (-458881 # 1000000)]
      [Fin (859445 # 10000000); Fin (-387926 # 100000); Fin (-681415 # 10000)]
      [Fin (260000 # 1000); Fin (280000 # 1000); Fin (280000 # 1000)]
      (Fin (29417 # 1000)))
  else if igas =? 21 then (* na *)
    Some (CpFit
      [Fin (208154 # 10000); Fin (210812 # 10000); Fin (387681 # 10000)]
      [Fin (-162936 # 1000000); Fin (-211313 # 10000000); Fin (-969137 # 100000)]
      [Fin (281035 # 1000000); Fin (-188686 # 1000000); Fin (161045 # 100000)]
      [Fin (-149202 # 1000000); Fin (703542 # 10000000); Fin (-183163 # 10000000)]
      [Fin (-166252 # 1000000000); Fin (-169969 # 1000000); Fin (-215246 # 10000)]
      [Fin (178894 # 1000); Fin (178829 # 1000); Fin (179923 # 1000)]
      (Fin (20786 # 1000)))
  else if igas =? 22 then (* k *)
    Some (CpFit
      [Fin (208154 # 10000); Fin (201077 # 10000); Fin (808587 # 10000)]
      [Fin (-162936 # 1000000); Fin (172326 # 100000); Fin (-386316 # 10000)]
      [Fin (281035 # 1000000); Fin (-142054 # 100000); Fin (880886 # 100000)]
      [Fin (-149202 # 1000000); Fin (388577 # 1000000); Fin (-553605 # 1000000)]
      [Fin (-166252 # 1000000000); Fin (-178336 # 10000000); Fin (-571459 # 10000)]
      [Fin (185566 # 1000); Fin (184342 # 1000); Fin (197881 # 1000)]
      (Fin (20786 # 1000)))
  else if igas =? 23 then (* rb *)
    Some (CpFit
      [Fin (208110 # 10000); Fin (218305 # 10000); Fin (676946 # 10000)]
      [Fin (-139382 # 1000000); Fin (-120618 # 1000000); Fin (-364056 # 10000)]
      [Fin (241553 # 1000000); Fin (-759797 # 1000000); Fin (945407 # 100000)]
      [Fin (-129505 # 1000000); Fin (324361 # 1000000); Fin (-654225 # 1000000)]
      [Fin (-134562 # 1000000000); Fin (-519578 # 1000000); Fin (-229711 # 10000)]
      [Fin (195310 # 1000); Fin (195381 # 1000); Fin (215367 # 1000)]
      (Fin (20786 # 1000)))
  else if igas =? 24 then (* cs *)
    Some (CpFit
      [Fin (208111 # 10000); Fin (193844 # 10000); Fin (-990597 # 10000)]
      [Fin (-139259 # 1000000); Fin (351623 # 100000); Fin (423576 # 10000)]
      [Fin (238592 # 1000000); Fin (-300169 # 100000); Fin (-276224 # 100000)]
      [Fin (-126005 # 1000000); Fin (867065 # 1000000); Fin (-552789 # 10000000)]
      [Fin (-147773 # 1000000000); Fin (177750 # 10000000); Fin (218172 # 1000)]
      [Fin (200816 # 1000); Fin (198458 # 1000); Fin (231228 # 1000)]
      (Fin (20786 # 1000)))
  else if igas =? 25 then (* co2 *)
    Some (CpFit
      [Fin (171622 # 10000); Fin (597854 # 10000); Fin (657964 # 10000)]
      [Fin (843617 # 10000); Fin (-472970 # 1000000); Fin (-117414 # 100000)]
      [Fin (-715668 # 10000); Fin (136583 # 100000); Fin (232788 # 1000000)]
      [Fin (243579 # 10000); Fin (-300212 # 1000000); Fin (-788867 # 100000000)]
      [Fin (429191 # 10000000); Fin (-620314 # 100000); Fin (-172749 # 10000)]
      [Fin (212619 # 1000); Fin (266092 # 1000); Fin (263469 # 1000)]
      (Fin (20786 # 1000)))
  else None.

(** Lines 1887-1903. *)
Definition cpfunc (igas : Z) (temp : float) (mmw : list float) : res float :=
  let fit := cp_coefficients igas in
  m ← getitem mmw igas;
  t ← fdiv temp (Fin 1000);
  cp ←
    (if fgt temp (Fin 2500) then
       f ← bound fit;
       polyAE (fit_A f) (fit_B f) (fit_C f) (fit_D f) (fit_E f) t 3
     else if fgt temp (Fin 1000) && fle temp (Fin 2500) then
       f ← bound fit;
       polyAE (fit_A f) (fit_B f) (fit_C f) (fit_D f) (fit_E f) t 2
     else if fge temp (Fin 100) && flt temp (Fin 1000) then
       f ← bound fit;
       polyAE (fit_A f) (fit_B f) (fit_C f) (fit_D f) (fit_E f) t 1
     else
       f ← bound fit; Ok (fit_default f));
  q ← fdiv cp m;
  Ok (fmul q (Fin 10000000)).

Section Hvap.

(** [numpy.exp] and the power [x**y] with a fractional exponent. *)
Variable fexp : float -> float.
Variable fpow : float -> float -> float.

(** Lines 1674-1703; the result is converted from kJ/mol to erg/mol. *)
Definition hvapfunc (igas : Z) (temp : float) (mmw : list float) : res float :=
  hvap ←
    (if igas =? 9 then
       t ← fdiv temp (Fin 647);
       if flt temp (Fin 647) then
         Ok (fmul (fmul (Fin (5167 # 100)) (fexp (fmul (Fin (199 # 1000)) t)))
                  (fpow (fsub (Fin 1) t) (Fin (410 # 1000))))
       else Ok (Fin 0)
     else if igas =? 10 then
       t ← fdiv temp (Fin 191);
       if flt temp (Fin 191) then
         Ok (fmul (fmul (Fin (1011 # 100)) (fexp (fmul (Fin (22 # 100)) t)))
                  (fpow (fsub (Fin 1) t) (Fin (388 # 1000))))
       else Ok (Fin 0)
     else if igas =? 12 then
       m ← getitem mmw igas;
       let t := fsub temp (Fin 273) in
       if flt temp (Fin 406) then
         q ← fdiv (fsub (fmul (Fin (13791 # 100))
                               (fpow (fsub (Fin 133) t) (Fin (5 # 10))))
                         (fmul (Fin (2466 # 1000)) (fsub (Fin 133) t)))
                   (Fin 1000);
         Ok (fmul q m)
       else Ok (Fin 0)
     else if igas =? 18 then Ok (Fin 350)
     else Ok (Fin 0));
  Ok (fmul hvap (Fin 10000000000)).

End Hvap.

(** ** MoistAdiabat: moist_grad

    [moist_grad] is not compiled: it runs in the interpreter.  Beside
    the exceptions of the routines it calls it can raise [TypeError],
    and the lookup in the opacity database can fail in ways of its
    own. *)

Inductive py_exn : Type :=
| Std (e : exn)
| TypeError
| OpacityError.

Inductive pyres (A : Type) : Type :=
| PyOk (a : A)
| PyRaise (e : py_exn).
Arguments PyOk {A} a.
Arguments PyRaise {A} e.

#[global] Instance pyres_ret : MRet pyres := fun A a => PyOk a.
#[global] Instance pyres_bind : MBind pyres := fun A B k m =>
  match m with
  | PyOk a => k a
  | PyRaise e => PyRaise e
  end.

(** A call of a compiled routine, or an indexing, from the interpreter. *)
Definition lift {A : Type} (r : res A) : pyres A :=
  match r with
  | Ok a => PyOk a
  | Raise e => PyRaise (Std e)
  end.

(** [for k in l] in the interpreter. *)
Fixpoint py_for {S : Type} (l : list Z) (body : Z -> S -> pyres S) (s : S) : pyres S :=
  match l with
  | [] => PyOk s
  | k :: l' => s' ← body k s; py_for l' body s'
  end.

(** [range(lo, hi)]. *)
Definition py_range (lo hi : Z) : list Z :=
  (fun k => lo + Z.of_nat k) <$> seq 0 (Z.to_nat (hi - lo)).

(** Calling a NumPy array, [a(arg)]: an array is not callable. *)
Definition ndarray_call (a : list float) (arg : Z) : pyres float := PyRaise TypeError.

(** Lines 1585-1597: the constants. *)
Definition mmw : list float :=
  [Fin (67 # 100000); Fin (201588 # 100000); Fin (1008 # 1000);
   Fin ((1008 # 1000) - (67 # 100000)); Fin ((1008 # 1000) + (67 # 100000));
   Fin ((201588 # 100000) + (67 # 100000)); Fin ((201588 # 100000) - (67 # 100000));
   Fin ((201588 # 100000) + (1008 # 1000) - (67 # 100000)); Fin (4002602 # 1000000);
   Fin (1801528 # 100000); Fin (1604276 # 100000); Fin (280104 # 10000);
   Fin (1703056 # 100000); Fin (280134 # 10000); Fin (33997582 # 1000000);
   Fin (340809 # 10000); Fin (638794 # 10000); Fin (669409 # 10000);
   Fin (5584 # 100); Fin (5685494 # 100000); Fin (5300404 # 100000);
   Fin (22989770 # 1000000); Fin (390983 # 10000); Fin (854678 # 10000);
   Fin (13290545 # 100000); Fin 44].

Definition Rgas : float := Fin 83140000.
Definition icond : list Z := [9; 10; 12; 18].
Definition ncond : Z := 4.
Definition Tcrit : list float := [Fin 647; Fin 191; Fin 406; Fin 4000].
Definition Tfr : list float := [Fin 273; Fin 90; Fin 195; Fin 1150].
Definition hfus : list float :=
  [Fin 60000000000; Fin 9460000000; Fin 56500000000; Fin 140000000000].

Section MoistGrad.

Variable fexp : float -> float.
Variable fpow : float -> float -> float.
Variable log10 pow10 : float -> float.

(** [/] and [//] on NumPy float64 scalars: a zero divisor gives inf or
    nan with a warning, not an exception. *)
Variable np_divide np_floor_divide : float -> float -> float.

(** [opacityclass.get_pre_mix_ck().molecular_opa[k]], flattened as
    [np.append] does. *)
Variable molecular_opa : Z -> pyres (list float).

(** Lines 1601-1605: one pass of the loop that sets [dH]. *)
Definition heat_step (t : float) (i : Z) (dH : list float) : res (list float) :=
  tc ← getitem Tcrit i;
  dH ← (if flt t tc then
          d ← getitem dH i;
          ig ← getitem icond i;
          h ← hvapfunc fexp fpow ig t mmw;
          setitem dH i (fadd d h)
        else Ok dH);
  tf ← getitem Tfr i;
  if flt t tf then
    d ← getitem dH i;
    hf ← getitem hfus i;
    setitem dH i (fadd d hf)
  else Ok dH.

(** Lines 1612-1614. *)
Definition read_abundances : pyres (list float) :=
  py_for [0; 3; 4; 14]
    (fun k output_abunds => v ← molecular_opa k; PyOk (output_abunds ++ v)) [].

(** Lines 1622-1625: one pass over a condensible; the state is
    [(pb, pc, a)]. *)
Definition partial_pressure_step (t p : float) (output_abunds dH : list float)
    (i : Z) (st : float * list float * list float)
    : pyres (float * list float * list float) :=
  let '(pb, pc, a) := st in
  ig ← lift (getitem icond i);
  x ← ndarray_call output_abunds ig;
  pc ← lift (setitem pc i (fmul x p));
  d ← lift (getitem dH i);
  a ← lift (setitem a i (np_divide (np_divide d Rgas) t));
  pci ← lift (getitem pc i);
  PyOk (fsub pb pci, pc, a).

(** Lines 1630-1632: one pass of the ideal gas sum; the state is
    [(f, cpI)]. *)
Definition ideal_gas_step (t : float) (output_abunds : list float)
    (i : Z) (st : float * float) : pyres (float * float) :=
  let '(f, cpI) := st in
  x ← lift (getitem output_abunds i);
  let f := fadd f x in
  x ← lift (getitem output_abunds i);
  c ← lift (cpfunc i t mmw);
  m ← lift (getitem mmw i);
  PyOk (f, fadd cpI (fmul (fmul x c) m)).

(** Lines 1648-1650: one pass of the last loop; the state is
    [(numer, denom)]. *)
Definition moist_sum_step (p : float) (a pc : list float)
    (i : Z) (st : float * float) : pyres (float * float) :=
  let '(numer, denom) := st in
  ai ← lift (getitem a i);
  pci ← lift (getitem pc i);
  let numer := fadd numer (np_divide (fmul ai pci) p) in
  ai ← lift (getitem a i);
  pci ← lift (getitem pc i);
  let denom := fadd denom (np_divide (fmul (fmul ai ai) pci) p) in
  PyOk (numer, denom).

Definition moist_grad (t p : float) (t_table p_table : list float)
    (grad cp : list (list float)) : pyres (float * float) :=
  dH ← lift (zeros (Fin 0) ncond);
  dH ← lift (for_range 0 ncond (heat_step t) dH);
  let t_fine := t in
  let p_fine := fmul (Fin 1000) p in
  output_abunds ← read_abundances;
  let pb := p in
  pc ← lift (zeros (Fin 0) ncond);
  a ← lift (zeros (Fin 0) ncond);
  '(pb, pc, a) ←
    py_for (py_range 0 ncond) (partial_pressure_step t p output_abunds dH) (pb, pc, a);
  let cpI := Fin 0 in
  let f := Fin 0 in
  '(f, cpI) ←
    py_for (py_range 9 (Z.of_nat (length mmw) + 1)) (ideal_gas_step t output_abunds)
      (f, cpI);
  let gradI := fmul (np_floor_divide Rgas cpI) f in
  '(gradNI, cp_x) ← lift (did_grad_cp log10 pow10 t p t_table p_table grad cp);
  cp_NI ← lift (fdiv Rgas gradNI);
  let gradb :=
    np_divide (Fin 1)
      (fadd (np_divide (fmul (fsub (Fin 1) f) cp_NI) Rgas)
            (np_divide (fmul f cpI) Rgas)) in
  let numer := Fin 1 in
  let denom := np_divide (Fin 1) gradb in
  '(numer, denom) ← py_for (py_range 0 ncond) (moist_sum_step p a pc) (numer, denom);
  let grad_x := np_divide numer denom in
  PyOk (grad_x, cp_x).

End MoistGrad.

(** ** Predicates used in the statements *)

Definition int64 (z : Z) : Prop := - 2^63 <= z < 2^63.

(** A sorted table of numbers: strictly increasing from index to index. *)
Definition strictly_increasing (a : list Q) : Prop :=
  forall (i j : nat) (x y : Q),
    (i < j)%nat -> a !! i = Some x -> a !! j = Some y -> (x < y)%Q.

(** What the bisection of [locate] maintains on a table [a] and a query
    [v]: [a[jl] <= v] unless [jl] is still 0, and [v < a[ju]] unless [ju]
    is still the length. *)
Definition bracket (a : list Q) (v : Q) (jl ju : Z) : Prop :=
  0 <= jl /\ jl < ju /\ ju <= Z.of_nat (length a)
  /\ (jl = 0 \/ exists x, a !! Z.to_nat jl = Some x /\ (x <= v)%Q)
  /\ (ju = Z.of_nat (length a) \/ exists y, a !! Z.to_nat ju = Some y /\ (v < y)%Q).

(** Where a query [q] falls on one axis of the tables, and what
    [did_grad_cp] takes there: position 0 and factor 0 below the second
    node; from the second node on and below the last one, the interval
    that holds the query and the fractional position in it; position
    [last - 1] and factor 1 at or beyond the last node. *)
Inductive axis_case (table : list Q) (q : Q) (last : Z) : Z -> float -> Prop :=
| axis_low (x1 : Q) :
    table !! 1%nat = Some x1 -> (q < x1)%Q ->
    axis_case table q last 0 (Fin 0)
| axis_interior (j : nat) (x y : Q) :
    (1 <= j)%nat -> table !! j = Some x -> table !! S j = Some y ->
    (x <= q)%Q -> (q < y)%Q ->
    axis_case table q last (Z.of_nat j) (Fin ((- x + q) / (y - x)))
| axis_high (xl : Q) :
    table !! Z.to_nat last = Some xl -> (xl <= q)%Q ->
    axis_case table q last (last - 1) (Fin 1).

(** The shape of [grad] and [cp]: 53 rows of 26 entries. *)
Definition table_shape (m : matrix) : Prop :=
  length m = 53%nat /\ Forall (fun row => length row = 26%nat) m.

(** A table with the nodes 0, 1, ..., n-1, for concrete runs. *)
Definition grid (n : nat) : list Q := (fun k => inject_Z (Z.of_nat k)) <$> seq 0 n.

(** What a computation may do: return a value satisfying [P], or raise an
    exception satisfying [E]. *)
Definition res_sat {A : Type} (P : A -> Prop) (E : exn -> Prop) (r : res A) : Prop :=
  match r with Ok a => P a | Raise e => E e end.

Definition finite (x : float) : Prop := exists q : Q, x = Fin q.

(** Matrices: the lengths of the rows, entries by position, and what it
    takes for an [n] by [n] block to fit. *)
Definition shape (a : matrix) : list nat := length <$> a.

Definition covers (sh : list nat) (n : Z) : Prop :=
  n <= Z.of_nat (length sh) /\ Forall (fun l => n <= Z.of_nat l) sh.

Definition finite_matrix (a : matrix) : Prop := Forall (Forall finite) a.

Definition entry (a : matrix) (i j : Z) : option float :=
  a !! Z.to_nat i ≫= fun row => row !! Z.to_nat j.

(** Row [i] of the active block is zero: [max_j |a[i,j]| = 0]. *)
Definition zero_row (a : matrix) (n i : Z) : Prop :=
  forall j, 0 <= j < n -> exists q, entry a i j = Some (Fin q) /\ (q == 0)%Q.

(** The first [j] pivots are numbers other than zero. *)
Definition diag_ok (a : matrix) (j : Z) : Prop :=
  forall k, 0 <= k < j -> exists q, entry a k k = Some (Fin q) /\ ~ (q == 0)%Q.

(** The invariant of the factorisation at column [j], for a matrix of
    shape [sh]. *)
Definition good (sh : list nat) (j : Z) (a : matrix) : Prop :=
  shape a = sh /\ finite_matrix a /\ diag_ok a j.

(** The scaling vector: [NMAX] numbers, none negative. *)
Definition vv_good (vv : list float) : Prop :=
  Z.of_nat (length vv) = NMAX
  /\ Forall (fun x => exists q, x = Fin q /\ (0 <= q)%Q) vv.

(** The invariant of the loop over columns of [lu_decomp]. *)
Definition lu_inv (sh : list nat) (n j : Z) (st : lu_state) : Prop :=
  good sh j (lu_a st) /\ vv_good (lu_vv st)
  /\ Z.of_nat (length (lu_indx st)) = n
  /\ Forall (fun z => 0 <= z < n) (lu_indx st)
  /\ (forall im, lu_imax st = Some im -> 0 <= im < n).

(** Concrete runs: a 2-level atmosphere with one zone whose radiative
    region is level 0, a flux evaluation that returns the same thermal
    net flux at every profile, and stand-ins for the transcendental
    functions. *)
Definition two_level (tidal : list float) : inputs :=
  Inputs 1 [0; 0; 0; 0; 0; 0] 5 (Fin 1) (Fin 1) 2 [] [] [] []
         tidal (Fin 10) (Fin 1000) 0 [] false false.

Definition two_level_profile : profile :=
  Profile [Fin 1; Fin 2] [Fin 100; Fin 200].

Definition constant_flux (ir : list float) (prof : profile) (reflected thermal holes : bool)
    : res fluxes :=
  Ok (Fluxes [Fin 0; Fin 0] [Fin 0; Fin 0] ir ir [[Fin 0]; [Fin 0]]).

Definition same (x : float) : float := x.

(** A run that takes a Newton step: a flux evaluation whose thermal net
    flux is [temp - 150] at every level, a tidal flux of 50 (so level 0
    is in balance at a temperature of 100), and the 53 by 26 tables with
    a zero gradient. *)
Definition linear_flux (prof : profile) (reflected thermal holes : bool) : res fluxes :=
  let ir := (fun t => fsub t (Fin 150)) <$> temp prof in
  Ok (Fluxes [Fin 0] [Fin 0] ir ir [[Fin 0]]).

Definition two_level_tables : inputs :=
  Inputs 1 [0; 0; 0; 0; 0; 0] 5 (Fin 1) (Fin 1) 2
         (Fin <$> grid 26) (Fin <$> grid 53)
         (replicate 53 (replicate 26 (Fin 0))) (replicate 53 (replicate 26 (Fin 0)))
         [Fin 50] (Fin 10) (Fin 1000) 0 [] false false.

Definition no_moist_grad (t p : float) : res (float * float) := Raise UnboundLocalError.

(** Some level of a temperature array is NaN. *)
Definition has_nan (a : list float) : Prop := exists j : nat, a !! j = Some NaN.

(** A value the damper leaves as it is: neither test of lines 851-855
    succeeds. *)
Definition kept (tmin tmax t : float) : Prop :=
  flt t tmin = false /\ fgt t tmax = false.

(** The clamp as the specification words it: [tmin + 0.1] below [tmin],
    [tmax - 0.1] above [tmax], the value itself otherwise. *)
Definition clamp (tmin tmax t : float) : float :=
  if flt t tmin then fadd tmin (Fin (1 # 10))
  else if fgt t tmax then fsub tmax (Fin (1 # 10))
  else t.

(** The levels [lo], ..., [hi - 1] of a temperature array clamped, the
    others as they were. *)
Definition clamp_levels (tmin tmax : float) (lo hi : Z) (temp : list float) : list float :=
  imap (fun k t => if decide (lo <= Z.of_nat k < hi) then clamp tmin tmax t else t) temp.

(** What [convec] computes for layer [j]: the gradient routine at the
    mean of the two level temperatures and the geometric mean of the two
    level pressures; and the layers [lo], ..., [lo + k - 1] in order, up
    to the first exception. *)
Definition layer_gradient (fsqrt : float -> float)
    (gradient : float -> float -> res (float * float))
    (temp pressure : list float) (j : Z) : res (float * float) :=
  tj ← getitem temp j;
  tj1 ← getitem temp (j + 1);
  pj ← getitem pressure j;
  pj1 ← getitem pressure (j + 1);
  gradient (fmul (Fin (1 # 2)) (fadd tj tj1)) (fsqrt (fmul pj pj1)).

Fixpoint layer_gradients (f : Z -> res (float * float)) (lo : Z) (k : nat)
    : res (list (float * float)) :=
  match k with
  | O => Ok []
  | S k' => r ← f lo; rs ← layer_gradients f (lo + 1) k'; Ok (r :: rs)
  end.

(** The array [l] with the values [vs] stored from index [i] on. *)
Definition splice {A : Type} (i : nat) (vs l : list A) : list A :=
  take i l ++ vs ++ drop (i + length vs) l.

(** What [growup] and [growdown] do to one entry of the zone map:
    [nstr[k] += d], stored as an int64. *)
Definition bump (k d : Z) (nstr : list Z) : res (list Z) :=
  x ← getitem nstr k; setitem nstr k (wrap64 (x + d)).

(** What the factorisation computes.  [val] and [vval] read an entry of
    a matrix or a vector as a number. *)
Definition val (a : matrix) (i c : Z) : Q :=
  match entry a i c with Some (Fin q) => q | _ => 0%Q end.

Definition vval (b : list float) (i : Z) : Q :=
  match b !! Z.to_nat i with Some (Fin q) => q | _ => 0%Q end.

(** [f lo + f (lo + 1) + ... + f (hi - 1)]. *)
Fixpoint Qsum_n (lo : Z) (len : nat) (f : Z -> Q) : Q :=
  match len with
  | O => 0%Q
  | S m => (Qsum_n lo m f + f (lo + Z.of_nat m)%Z)%Q
  end.

Definition Qsum (lo hi : Z) (f : Z -> Q) : Q := Qsum_n lo (Z.to_nat (hi - lo)) f.

(** Rows [i] and [j] change places. *)
Definition transp (i j r : Z) : Z :=
  if r =? i then j else if r =? j then i else r.

(** The row of the original matrix that is in place [r] after the first
    [j] exchanges recorded in [indx]: exchange [k] swaps the rows [k]
    and [indx[k]]. *)
Fixpoint row_of (indx : list Z) (j : nat) (r : Z) : Z :=
  match j with
  | O => r
  | S j' => row_of indx j' (transp (Z.of_nat j') (default 0 (indx !! j')) r)
  end.

(** Crout's factorisation of the matrix [A] with rows permuted by [pi],
    stored in place in [a], for the columns before [j]: the entries on
    and above the diagonal are those of U, the entries below it those of
    L (whose diagonal is 1), and [L U = A] on these columns; the columns
    from [j] on still hold [A]. *)
Definition factored (n : Z) (A : Z -> Z -> Q) (pi : Z -> Z) (j : Z) (a : matrix) : Prop :=
  (forall r c, 0 <= r <= c -> c < j -> c < n ->
     (val a r c + Qsum 0 r (fun k => val a r k * val a k c) == A (pi r) c)%Q)
  /\ (forall r c, 0 <= c < j -> c < r < n ->
        (val a r c * val a c c + Qsum 0 c (fun k => val a r k * val a k c)
         == A (pi r) c)%Q)
  /\ (forall r c, 0 <= r < n -> j <= c < n -> (val a r c == A (pi r) c)%Q).

(** No pivot was replaced by [TINY]. *)
Definition untainted (j : Z) (a : matrix) : Prop :=
  forall k, 0 <= k < j -> entry a k k <> Some TINY.

(** What one pass of the loop over columns does to the matrix when the
    pivot is not replaced: the rows [j] and [im] change places, column
    [j] gets its entries of U (rows up to [j]) and of L (rows below). *)
Definition column_step (n j im : Z) (a a' : matrix) : Prop :=
  (forall r c, 0 <= r < n -> 0 <= c < n -> c <> j ->
     val a' r c = val a (transp j im r) c)
  /\ (forall r, 0 <= r < j ->
        (val a' r j + Qsum 0 r (fun k => val a r k * val a' k j) == val a r j)%Q)
  /\ (forall r, j <= r < n ->
        (val a' r j * (if r =? j then 1 else val a' j j)
         + Qsum 0 j (fun k => val a (transp j im r) k * val a' k j)
         == val a (transp j im r) j)%Q).

(** The first [n] entries of a vector are numbers. *)
Definition fin_vec (n : Z) (b : list float) : Prop :=
  forall i, 0 <= i < n -> exists q, b !! Z.to_nat i = Some (Fin q).

(** The factors stored in place: L below the diagonal, with ones on it,
    and U on and above it. *)
Definition lower (a : matrix) (r k : Z) : Q :=
  if k <? r then val a r k else if k =? r then 1%Q else 0%Q.

Definition upper (a : matrix) (k c : Z) : Q :=
  if k <=? c then val a k c else 0%Q.

(** * Properties *)

(** ** Results, floats and arrays *)

Lemma bind_Ok {A B} (m : res A) (k : A -> res B) (b : B) :
  m ≫= k = Ok b -> exists a, m = Ok a /\ k a = Ok b.
Proof. destruct m as [a|e]; simpl; [eauto | discriminate]. Qed.

Lemma bind_ok {A B} (a : A) (k : A -> res B) : Ok a ≫= k = k a.
Proof. reflexivity. Qed.

Lemma Qlt_bool_iff (a b : Q) : Qlt_bool a b = true <-> (a < b)%Q.
Proof.
  unfold Qlt_bool. rewrite negb_true_iff.
  destruct (Qle_bool b a) eqn:E.
  - apply Qle_bool_iff in E. split; [discriminate | intros H; exfalso; lra].
  - split; [intros _ | reflexivity].
    destruct (Qlt_le_dec a b) as [H|H]; [exact H |].
    apply Qle_bool_iff in H. congruence.
Qed.

Lemma norm_index_nonneg (len : nat) (i : Z) :
  0 <= i < Z.of_nat len -> norm_index len i = Some (Z.to_nat i).
Proof.
  intros H. unfold norm_index.
  replace (0 <=? i) with true by (symmetry; apply Z.leb_le; lia).
  replace (i <? Z.of_nat len) with true by (symmetry; apply Z.ltb_lt; lia).
  reflexivity.
Qed.

Lemma norm_index_past (len : nat) (i : Z) :
  Z.of_nat len <= i -> norm_index len i = None.
Proof.
  intros H. unfold norm_index.
  replace (i <? Z.of_nat len) with false by (symmetry; apply Z.ltb_ge; lia).
  replace (i <? 0) with false by (symmetry; apply Z.ltb_ge; lia).
  rewrite !andb_false_r. reflexivity.
Qed.

Lemma getitem_nonneg {A} (l : list A) (i : Z) (x : A) :
  0 <= i -> l !! Z.to_nat i = Some x -> getitem l i = Ok x.
Proof.
  intros Hi Hx. unfold getitem.
  rewrite norm_index_nonneg by (apply lookup_lt_Some in Hx; lia).
  rewrite Hx. reflexivity.
Qed.

Lemma getitem_past {A} (l : list A) (i : Z) :
  Z.of_nat (length l) <= i -> getitem l i = Raise IndexError.
Proof. intros H. unfold getitem. rewrite norm_index_past by exact H. reflexivity. Qed.

Lemma setitem_nonneg {A} (l : list A) (i : Z) (x : A) :
  0 <= i < Z.of_nat (length l) -> setitem l i x = Ok (<[Z.to_nat i:=x]> l).
Proof. intros H. unfold setitem. rewrite norm_index_nonneg by exact H. reflexivity. Qed.

Lemma setitem_length {A} (l l' : list A) (i : Z) (x : A) :
  setitem l i x = Ok l' -> length l' = length l.
Proof.
  unfold setitem. destruct (norm_index (length l) i); [|discriminate].
  intros [= <-]. apply length_insert.
Qed.

Lemma wrap64_small (z : Z) : - 2^63 <= z < 2^63 -> wrap64 z = z.
Proof. intros H. unfold wrap64. rewrite Z.mod_small; lia. Qed.

Lemma getitem_lookup {A} (l : list A) (i : Z) :
  0 <= i < Z.of_nat (length l) ->
  exists x, l !! Z.to_nat i = Some x /\ getitem l i = Ok x.
Proof.
  intros H. destruct (lookup_lt_is_Some_2 l (Z.to_nat i)) as [x Hx]; [lia|].
  exists x. split; [exact Hx | apply getitem_nonneg; [lia | exact Hx]].
Qed.

(** ** ZoneManager *)

(** C4 (as stated, refuted): on a two-zone map, growing zone 1 down by 5
    levels and then up by 5 levels does not give the original map back. *)
Lemma growdown_growup_not_inverse :
  (nstr ← growdown 1 [0; 10; 20; 30; 40; 50] 5; growup 1 nstr 5)
  <> Ok [0; 10; 20; 30; 40; 50].
Proof. vm_compute. discriminate. Qed.

(** C4 (amended): for a zone index [z >= 1] whose three entries exist,
    [growdown z nstr n] followed by [growup z nstr n] succeeds and yields
    the map in which entry [3z-2] (convective top) is lowered by [n] and
    entries [3z-1] and [3z] are raised by [n], every other entry being
    unchanged; this is the original map exactly when [n = 0]. *)
Theorem growdown_growup_effect (z n a b c : Z) (nstr : list Z) :
  1 <= z ->
  nstr !! Z.to_nat (3 * z - 2) = Some a ->
  nstr !! Z.to_nat (3 * z - 1) = Some b ->
  nstr !! Z.to_nat (3 * z) = Some c ->
  int64 (a - n) -> int64 (b + n) -> int64 (c + n) ->
  let nstr' := <[Z.to_nat (3 * z - 2) := a - n]>
                 (<[Z.to_nat (3 * z) := c + n]>
                    (<[Z.to_nat (3 * z - 1) := b + n]> nstr)) in
  (nstr1 ← growdown z nstr n; growup z nstr1 n) = Ok nstr'
  /\ (nstr' = nstr <-> n = 0).
Proof.
  intros Hz Ha Hb Hc Ia Ib Ic nstr'.
  pose proof (lookup_lt_Some _ _ _ Ha) as La.
  pose proof (lookup_lt_Some _ _ _ Hb) as Lb.
  pose proof (lookup_lt_Some _ _ _ Hc) as Lc.
  split.
  - unfold growdown, growup.
    replace (3 + 3 * (z - 1) - 1) with (3 * z - 1) by lia.
    replace (2 + 3 * (z - 1) - 1) with (3 * z - 2) by lia.
    replace (3 * z - 1 + 1) with (3 * z) by lia.
    rewrite (getitem_nonneg nstr (3 * z - 1) b) by first [lia | exact Hb]. cbn.
    rewrite setitem_nonneg by lia. cbn.
    rewrite (getitem_nonneg _ (3 * z) c) by
      first [lia | rewrite list_lookup_insert_ne by lia; exact Hc].
    cbn. rewrite setitem_nonneg by (rewrite length_insert; lia). cbn.
    rewrite (getitem_nonneg _ (3 * z - 2) a) by
      first [lia | rewrite !list_lookup_insert_ne by lia; exact Ha].
    cbn. rewrite setitem_nonneg by (rewrite !length_insert; lia).
    replace (1 * n) with n by lia.
    rewrite !wrap64_small by assumption. reflexivity.
  - split.
    + intros E.
      assert (nstr' !! Z.to_nat (3 * z - 2) = Some (a - n)) as H.
      { unfold nstr'. apply list_lookup_insert_eq. rewrite !length_insert. lia. }
      rewrite E, Ha in H. injection H as H. lia.
    + intros ->. unfold nstr'.
      replace (a - 0) with a by lia. replace (b + 0) with b by lia.
      replace (c + 0) with c by lia.
      rewrite (list_insert_id nstr _ b) by exact Hb.
      rewrite (list_insert_id nstr _ c) by exact Hc.
      apply list_insert_id. exact Ha.
Qed.

Lemma growdown_growup_effect_witness :
  (nstr1 ← growdown 1 [0; 10; 20; 30; 40; 50] 5; growup 1 nstr1 5)
  = Ok [0; 5; 25; 35; 40; 50].
Proof.
  apply (growdown_growup_effect 1 5 10 20 30 [0; 10; 20; 30; 40; 50]);
    try reflexivity; try lia; unfold int64; lia.
Defined.

(** ** ConvectiveGradient: locate *)

Lemma locate_loop_step (array : list float) (value : float) (jl ju : Z) :
  locate_loop array value jl ju =
  if Z_gt_dec (ju - jl) 1 then
    match getitem array (Z.quot (ju + jl) 2) with
    | Raise e => Raise e
    | Ok x => if fge value x
              then locate_loop array value (Z.quot (ju + jl) 2) ju
              else locate_loop array value jl (Z.quot (ju + jl) 2)
    end
  else Ok jl.
Proof.
  rewrite locate_loop_equation_1.
  destruct (Z_gt_dec (ju - jl) 1) as [Hgt|Hle]; simp locate_loop; [|reflexivity].
  destruct (getitem array (Z.quot (ju + jl) 2)) as [x|e]; simp locate_loop; [|reflexivity].
  destruct (fge value x); simp locate_loop; reflexivity.
Qed.

Lemma quot2_between (jl ju : Z) :
  ju - jl > 1 -> jl < Z.quot (ju + jl) 2 < ju.
Proof.
  intros H. pose proof (Z.quot_rem' (ju + jl) 2) as Hq.
  pose proof (Z.rem_bound_abs (ju + jl) 2 ltac:(lia)) as Hr. lia.
Qed.

Section Locate.

Variable a : list Q.
Variable v : Q.
Hypothesis a_sorted : strictly_increasing a.

Lemma locate_loop_bracket (k : nat) (jl ju : Z) :
  Z.to_nat (ju - jl) = k -> bracket a v jl ju ->
  exists j, locate_loop (Fin <$> a) (Fin v) jl ju = Ok j /\ bracket a v j (j + 1).
Proof using a_sorted.
  revert jl ju. induction (lt_wf k) as [k _ IH].
  intros jl ju Hk (H0 & Hlt & Hn & Hl & Hu).
  rewrite locate_loop_step.
  destruct (Z_gt_dec (ju - jl) 1) as [Hgt|Hle].
  - pose proof (quot2_between jl ju Hgt) as Hm.
    set (jm := Z.quot (ju + jl) 2) in *.
    destruct (getitem_lookup (Fin <$> a) jm) as (x & Hx & ->).
    { rewrite length_fmap. lia. }
    rewrite list_lookup_fmap in Hx.
    destruct (a !! Z.to_nat jm) as [q|] eqn:Hq; [|discriminate].
    injection Hx as <-. cbn.
    destruct (Qle_bool q v) eqn:E.
    + apply (IH (Z.to_nat (ju - jm))); [lia | reflexivity |].
      apply Qle_bool_iff in E.
      repeat split; try lia; [right; eauto | exact Hu].
    + apply (IH (Z.to_nat (jm - jl))); [lia | reflexivity |].
      assert (v < q)%Q.
      { apply Qlt_bool_iff. unfold Qlt_bool. rewrite E. reflexivity. }
      repeat split; try lia; [exact Hl | right; eauto].
  - exists jl. split; [reflexivity|].
    assert (ju = jl + 1) as -> by lia.
    repeat split; try lia; assumption.
Qed.

End Locate.

Lemma strictly_increasing_le (a : list Q) (i j : nat) (x y : Q) :
  strictly_increasing a -> (i <= j)%nat ->
  a !! i = Some x -> a !! j = Some y -> (x <= y)%Q.
Proof.
  intros Ha Hij Hx Hy. destruct (decide (i = j)) as [->|Hne].
  - rewrite Hx in Hy. injection Hy as ->. apply Qle_refl.
  - apply Qlt_le_weak. apply (Ha i j); [lia | assumption..].
Qed.

Lemma getitem_last {A} (l : list A) (x : A) :
  l !! (length l - 1)%nat = Some x -> getitem l (-1) = Ok x.
Proof.
  intros Hx. pose proof (lookup_lt_Some _ _ _ Hx) as Hlt.
  unfold getitem, norm_index.
  replace (0 <=? -1) with false by reflexivity. cbn [andb].
  replace (- Z.of_nat (length l) <=? -1) with true by (symmetry; apply Z.leb_le; lia).
  replace (-1 <? 0) with true by reflexivity. cbn [andb].
  replace (Z.to_nat (Z.of_nat (length l) + -1)) with (length l - 1)%nat by lia.
  rewrite Hx. reflexivity.
Qed.

(** The three exits of [locate] on a strictly increasing table: at or
    below the first element, at or above the last one, or the bisection
    bracket. *)
Lemma locate_cases (a : list Q) (v x0 xl : Q) :
  strictly_increasing a ->
  a !! 0%nat = Some x0 ->
  a !! (length a - 1)%nat = Some xl ->
  exists j : Z,
    locate (Fin <$> a) (Fin v) = Ok j
    /\ (((v <= x0)%Q /\ j = 0)
        \/ ((x0 < v)%Q /\ (xl <= v)%Q /\ j = Z.of_nat (length a) - 1)
        \/ ((x0 < v)%Q /\ (v < xl)%Q /\ 0 <= j
            /\ exists x y, a !! Z.to_nat j = Some x /\ a !! S (Z.to_nat j) = Some y
                           /\ (x <= v)%Q /\ (v < y)%Q)).
Proof.
  intros Hs H0 Hl.
  pose proof (lookup_lt_Some _ _ _ H0) as Hlen.
  destruct (locate_loop_bracket a v Hs _ 0 (Z.of_nat (length a)) eq_refl)
    as (jl & Hloop & Hb0 & _ & Hbn & Hbl & Hbu).
  { unfold bracket. repeat split; try lia; left; reflexivity. }
  unfold locate. rewrite length_fmap, Hloop. cbn.
  rewrite (getitem_nonneg (Fin <$> a) 0 (Fin x0)) by
    first [lia | rewrite list_lookup_fmap; change (Z.to_nat 0) with 0%nat;
                 rewrite H0; reflexivity].
  cbn. destruct (Qle_bool v x0) eqn:E0.
  { apply Qle_bool_iff in E0. exists 0. split; [reflexivity|]. left. auto. }
  assert (x0 < v)%Q as Hx0.
  { apply Qlt_bool_iff. unfold Qlt_bool. rewrite E0. reflexivity. }
  rewrite (getitem_last (Fin <$> a) (Fin xl)) by
    (rewrite length_fmap, list_lookup_fmap, Hl; reflexivity).
  cbn. destruct (Qle_bool xl v) eqn:El.
  { apply Qle_bool_iff in El. eexists. split; [reflexivity|].
    right. left. auto. }
  assert (v < xl)%Q as Hxl.
  { apply Qlt_bool_iff. unfold Qlt_bool. rewrite El. reflexivity. }
  exists jl. split; [reflexivity|]. right. right.
  assert (exists x, a !! Z.to_nat jl = Some x /\ (x <= v)%Q) as (x & Hx & Hxv).
  { destruct Hbl as [->|?]; [|assumption].
    exists x0. split; [exact H0 | lra]. }
  assert (exists y, a !! S (Z.to_nat jl) = Some y /\ (v < y)%Q) as (y & Hy & Hyv).
  { destruct Hbu as [Hend|(y & Hy & Hyv)].
    - replace (Z.to_nat jl) with (length a - 1)%nat in Hx by lia.
      rewrite Hl in Hx. injection Hx as <-. lra.
    - exists y. split; [|exact Hyv].
      replace (S (Z.to_nat jl)) with (Z.to_nat (jl + 1)) by lia. exact Hy. }
  eauto 12.
Qed.

(** The bisection reads inside the array only, whatever the query. *)
Lemma locate_loop_total (array : list float) (value : float) (k : nat) (jl ju : Z) :
  Z.to_nat (ju - jl) = k -> 0 <= jl -> jl < ju -> ju <= Z.of_nat (length array) ->
  exists j, locate_loop array value jl ju = Ok j /\ jl <= j < ju.
Proof.
  revert jl ju. induction (lt_wf k) as [k _ IH]. intros jl ju Hk H0 Hlt Hn.
  rewrite locate_loop_step.
  destruct (Z_gt_dec (ju - jl) 1) as [Hgt|Hle]; [|exists jl; split; [reflexivity | lia]].
  pose proof (quot2_between jl ju Hgt) as Hm.
  set (jm := Z.quot (ju + jl) 2) in *.
  destruct (getitem_lookup array jm) as (x & Hx & ->); [lia|].
  destruct (fge value x).
  - destruct (IH (Z.to_nat (ju - jm)) ltac:(lia) jm ju eq_refl) as (j & -> & Hj);
      [lia..|]. exists j. split; [reflexivity | lia].
  - destruct (IH (Z.to_nat (jm - jl)) ltac:(lia) jl jm eq_refl) as (j & -> & Hj);
      [lia..|]. exists j. split; [reflexivity | lia].
Qed.

(** Infinite queries: [-inf] is below the first element, [+inf] beyond
    the last one. *)
Lemma locate_infinite (a : list Q) (neg : bool) :
  a <> [] ->
  locate (Fin <$> a) (Inf neg)
  = Ok (if neg then 0 else Z.of_nat (length a) - 1).
Proof.
  intros Hne.
  assert (0 < length a)%nat as Hlen by (destruct a; [congruence | simpl; lia]).
  destruct (lookup_lt_is_Some_2 a 0) as [x0 H0]; [lia|].
  destruct (lookup_lt_is_Some_2 a (length a - 1)) as [xl Hl]; [lia|].
  unfold locate.
  destruct (locate_loop_total (Fin <$> a) (Inf neg) _ 0
              (Z.of_nat (length (Fin <$> a))) eq_refl) as (j & -> & _);
    [lia | rewrite length_fmap; lia | lia |].
  rewrite bind_ok.
  rewrite (getitem_nonneg (Fin <$> a) 0 (Fin x0)) by
    first [lia | rewrite list_lookup_fmap; change (Z.to_nat 0) with 0%nat;
                 rewrite H0; reflexivity].
  rewrite bind_ok. destruct neg; [reflexivity|]. cbn [fle negb].
  rewrite (getitem_last (Fin <$> a) (Fin xl)) by
    (rewrite length_fmap, list_lookup_fmap, Hl; reflexivity).
  rewrite bind_ok, length_fmap. reflexivity.
Qed.

(** On a strictly increasing table no element at or below the query lies
    past an interval that holds the query. *)
Lemma below_query_le (a : list Q) (v : Q) (j k : nat) (y xk : Q) :
  strictly_increasing a ->
  a !! S j = Some y -> (v < y)%Q ->
  a !! k = Some xk -> (xk <= v)%Q -> (k <= j)%nat.
Proof.
  intros Hs Hy Hyv Hk Hkv.
  destruct (le_gt_dec k j) as [Hle|Hgt]; [exact Hle|].
  pose proof (strictly_increasing_le a (S j) k y xk Hs ltac:(lia) Hy Hk). lra.
Qed.

(** An interval that holds the query is the only one. *)
Lemma interval_unique (a : list Q) (v : Q) (j k : nat) (x y xk yk : Q) :
  strictly_increasing a ->
  a !! j = Some x -> a !! S j = Some y -> (x <= v)%Q -> (v < y)%Q ->
  a !! k = Some xk -> a !! S k = Some yk -> (xk <= v)%Q -> (v < yk)%Q ->
  k = j.
Proof.
  intros Hs Hx Hy Hxv Hvy Hk Hk' Hkv Hvk.
  pose proof (below_query_le a v j k y xk Hs Hy Hvy Hk Hkv).
  pose proof (below_query_le a v k j yk x Hs Hk' Hvk Hx Hxv).
  lia.
Qed.

(** C6: on a strictly increasing table [a] (first element [x0], last
    element [xl]) and any query [v], [locate] returns an index [j] with:
    [j = 0] whenever [v <= a[0]]; [j = len-1] whenever [v >= a[len-1]];
    and otherwise [a[j] <= v < a[j+1]], this [j] being the only such index
    and the largest index whose element is [<= v].  The queries [-inf]
    and [+inf] get 0 and [len-1]. *)
Theorem locate_spec (a : list Q) (v x0 xl : Q) :
  strictly_increasing a ->
  a !! 0%nat = Some x0 ->
  a !! (length a - 1)%nat = Some xl ->
  (exists j : Z,
    locate (Fin <$> a) (Fin v) = Ok j
    /\ ((v <= x0)%Q -> j = 0)
    /\ ((xl <= v)%Q -> j = Z.of_nat (length a) - 1)
    /\ ((x0 < v)%Q -> (v < xl)%Q ->
        0 <= j
        /\ (exists x y, a !! Z.to_nat j = Some x /\ a !! S (Z.to_nat j) = Some y
                        /\ (x <= v)%Q /\ (v < y)%Q)
        /\ (forall (k : nat) (x y : Q),
              a !! k = Some x -> a !! S k = Some y ->
              (x <= v)%Q -> (v < y)%Q -> Z.of_nat k = j)
        /\ (forall (k : nat) (x : Q),
              a !! k = Some x -> (x <= v)%Q -> Z.of_nat k <= j)))
  /\ locate (Fin <$> a) (Inf true) = Ok 0
  /\ locate (Fin <$> a) (Inf false) = Ok (Z.of_nat (length a) - 1).
Proof.
  intros Hs H0 Hl.
  assert (a <> []) as Hnil by (intros ->; discriminate).
  split; [|split; [exact (locate_infinite a true Hnil) | exact (locate_infinite a false Hnil)]].
  pose proof (lookup_lt_Some _ _ _ H0) as Hlen.
  assert (x0 <= xl)%Q as H0l
    by (apply (strictly_increasing_le a 0 (length a - 1)); [assumption | lia | assumption..]).
  destruct (locate_cases a v x0 xl Hs H0 Hl) as (j & Hj & Hcase).
  exists j. split; [exact Hj|].
  destruct Hcase as [[Hv ->] | [(Hv0 & Hvl & ->) | (Hv0 & Hvl & Hj0 & x & y & Hx & Hy & Hxv & Hvy)]].
  - split; [reflexivity|]. split; [|intros; lra].
    intros Hv'. destruct (decide (length a - 1 = 0)%nat) as [?|Hne]; [lia|].
    pose proof (Hs 0%nat (length a - 1)%nat x0 xl ltac:(lia) H0 Hl). lra.
  - split; [intros; lra|]. split; [reflexivity | intros; lra].
  - split; [intros; lra|]. split; [intros; lra|]. intros _ _.
    split; [exact Hj0|]. split; [eauto 10|]. split.
    + intros k xk yk Hk Hk' Hkv Hvk.
      rewrite (interval_unique a v (Z.to_nat j) k x y xk yk) by assumption. lia.
    + intros k xk Hk Hkv.
      pose proof (below_query_le a v (Z.to_nat j) k y xk Hs Hy Hvy Hk Hkv). lia.
Qed.

Lemma locate_spec_witness :
  exists j : Z,
    locate (Fin <$> [0; 1; 2; 4]%Q) (Fin 3) = Ok j /\ j = 2.
Proof.
  destruct (locate_spec [0; 1; 2; 4]%Q 3 0 4) as [(j & Hj & _ & _ & Hin) _].
  - intros [|[|[|[|i]]]] [|[|[|[|k]]]] x y Hik Hx Hy;
      cbn in Hx, Hy; try discriminate; try lia;
      injection Hx as <-; injection Hy as <-; reflexivity.
  - reflexivity.
  - reflexivity.
  - exists j. split; [exact Hj|].
    destruct Hin as (_ & _ & Huniq & _); [reflexivity | reflexivity |].
    symmetry. apply (Huniq 2%nat 2 4)%Q; [reflexivity | reflexivity | | reflexivity].
    discriminate.
Defined.

(** X5: on any array that is not empty, sorted or not, and for any query,
    NaN and the infinities included, [locate] reads inside the array and
    returns one of its indices. *)
Theorem locate_in_bounds (array : list float) (value : float) :
  array <> [] ->
  exists j : Z, locate array value = Ok j /\ 0 <= j < Z.of_nat (length array).
Proof.
  intros Hne.
  assert (0 < length array)%nat as Hlen by (destruct array; [congruence | simpl; lia]).
  unfold locate.
  destruct (locate_loop_total array value _ 0 (Z.of_nat (length array)) eq_refl)
    as (jl & -> & Hjl); [lia..|].
  rewrite bind_ok.
  destruct (getitem_lookup array 0) as (x0 & _ & ->); [lia|]. rewrite bind_ok.
  destruct (fle value x0); [exists 0; split; [reflexivity | lia]|].
  destruct (lookup_lt_is_Some_2 array (length array - 1)) as [xl Hl]; [lia|].
  rewrite (getitem_last array xl Hl), bind_ok.
  destruct (fge value xl); eexists; (split; [reflexivity | lia]).
Qed.

Lemma locate_in_bounds_witness :
  exists j : Z, locate [Fin 3; NaN; Inf true] NaN = Ok j /\ 0 <= j < 3.
Proof.
  apply (locate_in_bounds [Fin 3; NaN; Inf true] NaN). discriminate.
Defined.

Lemma locate_in_range (a : list Q) (v : Q) :
  strictly_increasing a -> a <> [] ->
  exists j : Z, locate (Fin <$> a) (Fin v) = Ok j /\ 0 <= j < Z.of_nat (length a)
    /\ (j = 0 \/ j = Z.of_nat (length a) - 1
        \/ exists x y, a !! Z.to_nat j = Some x /\ a !! S (Z.to_nat j) = Some y).
Proof.
  intros Hs Hne.
  assert (0 < length a)%nat as Hlen by (destruct a; [congruence | simpl; lia]).
  destruct (lookup_lt_is_Some_2 a 0) as [x0 H0]; [lia|].
  destruct (lookup_lt_is_Some_2 a (length a - 1)) as [xl Hl]; [lia|].
  destruct (locate_cases a v x0 xl Hs H0 Hl) as (j & Hj & Hcase).
  exists j. split; [exact Hj|].
  destruct Hcase as [[_ ->] | [(_ & _ & ->) | (_ & _ & Hj0 & x & y & Hx & Hy & _)]];
    [lia | lia |].
  pose proof (lookup_lt_Some _ _ _ Hy). split; [lia|]. right. right. eauto.
Qed.

(** ** ConvectiveGradient: did_grad_cp *)

(** C7 (code defect, general form): whenever [log10 t] lies strictly
    inside the first interval of the temperature table, [did_grad_cp]
    takes position 0 and the blend factor 0.0 instead of the fractional
    position of the query in that interval. *)
Theorem did_grad_cp_first_interval (log10 : float -> float) (t p : float)
    (t_table p_table : list Q) (tl pl x0 x1 : Q) :
  strictly_increasing t_table -> strictly_increasing p_table ->
  length t_table = 53%nat -> length p_table = 26%nat ->
  log10 t = Fin tl -> log10 p = Fin pl ->
  t_table !! 0%nat = Some x0 -> t_table !! 1%nat = Some x1 ->
  (x0 < tl)%Q -> (tl < x1)%Q ->
  exists b : blend,
    did_grad_cp_factors log10 t p (Fin <$> t_table) (Fin <$> p_table) = Ok b
    /\ pos_t b = 0 /\ factkt b = Some (Fin 0)
    /\ ~ (0 == (tl - x0) / (x1 - x0))%Q.
Proof.
  intros Hst Hsp Lt Lp Ht Hp H0 H1 Hlo Hhi.
  destruct (lookup_lt_is_Some_2 t_table 52) as [xl Hl]; [lia|].
  pose proof (strictly_increasing_le t_table 1 52 x1 xl Hst ltac:(lia) H1 Hl) as Hx1.
  destruct (locate_cases t_table tl x0 xl Hst H0) as (jt & Hjt & Hcase).
  { rewrite Lt. exact Hl. }
  assert (jt = 0) as ->.
  { destruct Hcase as [[? _] | [(_ & ? & _) | (_ & _ & Hj0 & x & y & Hx & Hy & Hxv & Hvy)]];
      [lra | lra |].
    pose proof (interval_unique t_table tl (Z.to_nat jt) 0 x y x0 x1 Hst
                  Hx Hy Hxv Hvy H0 H1 ltac:(lra) Hhi). lia. }
  destruct (locate_in_range p_table pl Hsp) as (jp & Hjp & Hrange & Hcases).
  { intros ->. discriminate. }
  rewrite Lp in Hrange, Hcases.
  unfold did_grad_cp_factors. rewrite Ht, Hp, Hjt, Hjp. cbn -[Z.ltb Z.eqb].
  assert (exists fp jp', 
    (if jp =? 0 then (Some (Fin 0), jp, 1)
     else if jp =? 25 then (Some (Fin 1), 24, 1) else (@None float, jp, 0))
    = (fp, jp', if (jp =? 0) || (jp =? 25) then 1 else 0)
    /\ 0 <= jp' < 25 /\ (((jp =? 0) || (jp =? 25)) = false -> jp' = jp /\ 0 < jp))
    as (fp & jp' & -> & Hjp' & Hflag).
  { destruct (jp =? 0) eqn:E0; [apply Z.eqb_eq in E0; subst; eauto 10 with lia|].
    destruct (jp =? 25) eqn:E25; [eauto 10 with lia|].
    apply Z.eqb_neq in E0, E25. do 2 eexists. split; [reflexivity|].
    split; [lia|]. intros _. lia. }
  destruct ((jp =? 0) || (jp =? 25)) eqn:Eflag.
  - replace ((0 <? jp') && (jp' <? 26) && (1 =? 0)) with false
      by (rewrite andb_false_r; reflexivity).
    cbn. eexists. split; [reflexivity|]. cbn.
    repeat split. intros E. 
    assert (0 < (tl - x0) / (x1 - x0))%Q; [|lra].
    apply Qlt_shift_div_l; lra.
  - destruct (Hflag eq_refl) as [-> Hpos].
    replace ((0 <? jp) && (jp <? 26) && (0 =? 0)) with true
      by (symmetry; rewrite !andb_true_iff, !Z.ltb_lt; lia).
    destruct (lookup_lt_is_Some_2 p_table (Z.to_nat jp)) as [lo Hlo']; [lia|].
    destruct (lookup_lt_is_Some_2 p_table (Z.to_nat (jp + 1))) as [hi Hhi']; [lia|].
    rewrite (getitem_nonneg (Fin <$> p_table) jp (Fin lo)) by
      first [lia | rewrite list_lookup_fmap, Hlo'; reflexivity].
    cbn -[Z.ltb Z.eqb].
    rewrite (getitem_nonneg (Fin <$> p_table) (jp + 1) (Fin hi)) by
      first [lia | rewrite list_lookup_fmap, Hhi'; reflexivity].
    cbn -[Z.ltb Z.eqb].
    pose proof (Hsp (Z.to_nat jp) (Z.to_nat (jp + 1)) lo hi ltac:(lia) Hlo' Hhi') as Hlt.
    replace (Qeq_bool (hi - lo) 0) with false.
    2:{ symmetry. apply not_true_is_false. intros E. apply Qeq_bool_iff in E. lra. }
    cbn. eexists. split; [reflexivity|]. cbn.
    repeat split. intros E.
    assert (0 < (tl - x0) / (x1 - x0))%Q; [|lra].
    apply Qlt_shift_div_l; lra.
Qed.

Lemma grid_increasing (n : nat) : strictly_increasing (grid n).
Proof.
  intros i j x y Hij Hx Hy. unfold grid in *.
  rewrite list_lookup_fmap in Hx, Hy.
  destruct (seq 0 n !! i) as [i'|] eqn:Ei; [|discriminate].
  destruct (seq 0 n !! j) as [j'|] eqn:Ej; [|discriminate].
  apply lookup_seq in Ei as [-> _]. apply lookup_seq in Ej as [-> _].
  injection Hx as <-. injection Hy as <-.
  rewrite <- Zlt_Qlt. lia.
Qed.

(** With the logarithms handed in directly: [log10 t = 1/2] sits in the
    middle of the first temperature interval [0, 1], and the factor the
    code takes is 0, not 1/2. *)
Lemma did_grad_cp_first_interval_witness :
  exists b : blend,
    did_grad_cp_factors (fun x => x) (Fin (1#2)) (Fin (5#2))
      (Fin <$> grid 53) (Fin <$> grid 26) = Ok b
    /\ pos_t b = 0 /\ factkt b = Some (Fin 0)
    /\ ~ (0 == ((1#2) - 0) / (1 - 0))%Q.
Proof.
  apply (did_grad_cp_first_interval (fun x => x) (Fin (1#2)) (Fin (5#2))
           (grid 53) (grid 26) (1#2) (5#2) 0 1);
    try apply grid_increasing; reflexivity.
Defined.

(** What [locate] answers in each of the three cases of an axis. *)
Lemma locate_low (table : list Q) (q x1 : Q) :
  strictly_increasing table -> table !! 1%nat = Some x1 -> (q < x1)%Q ->
  locate (Fin <$> table) (Fin q) = Ok 0.
Proof.
  intros Hs H1 Hq. pose proof (lookup_lt_Some _ _ _ H1).
  destruct (lookup_lt_is_Some_2 table 0) as [x0 H0]; [lia|].
  destruct (lookup_lt_is_Some_2 table (length table - 1)) as [xl Hl]; [lia|].
  destruct (locate_cases table q x0 xl Hs H0 Hl) as (j & -> & Hloc). f_equal.
  pose proof (strictly_increasing_le table 1 (length table - 1) x1 xl Hs
                ltac:(lia) H1 Hl).
  destruct Hloc as [[_ ->] | [(_ & ? & _) | (_ & _ & Hj0 & x & y & Hx & Hy & Hxq & _)]];
    [reflexivity | lra |].
  destruct (decide (Z.to_nat j = 0)%nat) as [?|Hne]; [lia|].
  pose proof (strictly_increasing_le table 1 (Z.to_nat j) x1 x Hs ltac:(lia) H1 Hx).
  lra.
Qed.

Lemma locate_interior (table : list Q) (q : Q) (k : nat) (x y : Q) :
  strictly_increasing table -> (1 <= k)%nat ->
  table !! k = Some x -> table !! S k = Some y -> (x <= q)%Q -> (q < y)%Q ->
  locate (Fin <$> table) (Fin q) = Ok (Z.of_nat k).
Proof.
  intros Hs Hk Hx Hy Hxq Hqy. pose proof (lookup_lt_Some _ _ _ Hy).
  destruct (lookup_lt_is_Some_2 table 0) as [x0 H0]; [lia|].
  destruct (lookup_lt_is_Some_2 table (length table - 1)) as [xl Hl]; [lia|].
  destruct (locate_cases table q x0 xl Hs H0 Hl) as (j & -> & Hloc). f_equal.
  pose proof (Hs 0%nat k x0 x ltac:(lia) H0 Hx).
  pose proof (strictly_increasing_le table (S k) (length table - 1) y xl Hs
                ltac:(lia) Hy Hl).
  destruct Hloc as [[? _] | [(_ & ? & _) |
                             (_ & _ & Hj0 & x' & y' & Hx' & Hy' & Hxq' & Hqy')]];
    [lra | lra |].
  pose proof (interval_unique table q k (Z.to_nat j) x y x' y' Hs
                Hx Hy Hxq Hqy Hx' Hy' Hxq' Hqy').
  lia.
Qed.

Lemma locate_high (table : list Q) (q xl : Q) (last : Z) :
  strictly_increasing table -> Z.of_nat (length table) = last + 1 -> 1 <= last ->
  table !! Z.to_nat last = Some xl -> (xl <= q)%Q ->
  locate (Fin <$> table) (Fin q) = Ok last.
Proof.
  intros Hs Hlen Hlast Hl Hq.
  destruct (lookup_lt_is_Some_2 table 0) as [x0 H0]; [lia|].
  replace (Z.to_nat last) with (length table - 1)%nat in Hl by lia.
  destruct (locate_cases table q x0 xl Hs H0 Hl) as (j & -> & Hloc). f_equal.
  pose proof (Hs 0%nat (length table - 1)%nat x0 xl ltac:(lia) H0 Hl).
  destruct Hloc as [[? _] | [(_ & _ & ->) | (_ & ? & _)]]; [lra | lia | lra].
Qed.

(** The interpolation of lines 68-71 on an interval past the first one. *)
Lemma interpolate_ok (table : list Q) (q : Q) (j : nat) (x y : Q) (L : Z)
    (fk : option float) (no_flag : bool) :
  strictly_increasing table -> (1 <= j)%nat -> Z.of_nat j < L ->
  table !! j = Some x -> table !! S j = Some y -> no_flag = true ->
  (if (0 <? Z.of_nat j) && (Z.of_nat j <? L) && no_flag then
     lo ← getitem (Fin <$> table) (Z.of_nat j);
     hi ← getitem (Fin <$> table) (Z.of_nat j + 1);
     lo' ← getitem (Fin <$> table) (Z.of_nat j);
     q' ← fdiv (fadd (fneg lo) (Fin q)) (fsub hi lo');
     Ok (Some q')
   else Ok fk)
  = Ok (Some (Fin ((- x + q) / (y - x)))).
Proof.
  intros Hs Hj HL Hx Hy ->.
  replace (0 <? Z.of_nat j) with true by (symmetry; apply Z.ltb_lt; lia).
  replace (Z.of_nat j <? L) with true by (symmetry; apply Z.ltb_lt; lia).
  cbn [andb].
  rewrite (getitem_nonneg (Fin <$> table) (Z.of_nat j) (Fin x)) by
    first [lia | rewrite list_lookup_fmap, Nat2Z.id, Hx; reflexivity].
  rewrite (getitem_nonneg (Fin <$> table) (Z.of_nat j + 1) (Fin y)) by
    first [lia | rewrite list_lookup_fmap;
                 replace (Z.to_nat (Z.of_nat j + 1)) with (S j) by lia;
                 rewrite Hy; reflexivity].
  rewrite !bind_ok. cbn [fneg fadd fsub fdiv].
  pose proof (Hs j (S j) x y ltac:(lia) Hx Hy) as Hlt.
  replace (Qeq_bool (y - x) 0) with false.
  2:{ symmetry. apply not_true_is_false. intros E. apply Qeq_bool_iff in E. lra. }
  reflexivity.
Qed.

(** Positions and factors of [did_grad_cp], axis by axis. *)
Lemma did_grad_cp_factors_axis (log10 : float -> float) (t p : float)
    (t_table p_table : list Q) (tl pl : Q) (jt jp : Z) (ft fp : float) :
  strictly_increasing t_table -> strictly_increasing p_table ->
  length t_table = 53%nat -> length p_table = 26%nat ->
  log10 t = Fin tl -> log10 p = Fin pl ->
  axis_case t_table tl 52 jt ft -> axis_case p_table pl 25 jp fp ->
  did_grad_cp_factors log10 t p (Fin <$> t_table) (Fin <$> p_table)
  = Ok (Blend jt (Some ft) jp (Some fp)).
Proof.
  intros Hst Hsp Lt Lp Ht Hp Ct Cp.
  unfold did_grad_cp_factors. rewrite Ht, Hp.
  destruct Ct as [x1' H1' Hq' | k' x' y' Hk' Hx' Hy' Hxq' Hqy' | xl' Hl' Hq'].
  - rewrite (locate_low t_table tl x1' Hst H1' Hq'), bind_ok.
    destruct Cp as [x1 H1 Hq | k x y Hk Hx Hy Hxq Hqy | xl Hl Hq].
    + rewrite (locate_low p_table pl x1 Hsp H1 Hq). reflexivity.
    + pose proof (lookup_lt_Some _ _ _ Hy).
      rewrite (locate_interior p_table pl k x y Hsp Hk Hx Hy Hxq Hqy), bind_ok.
      replace (Z.of_nat k =? 0) with false by (symmetry; apply Z.eqb_neq; lia).
      replace (Z.of_nat k =? 25) with false by (symmetry; apply Z.eqb_neq; lia).
      cbn [Z.eqb]. cbn beta iota.
      rewrite (interpolate_ok p_table pl k x y 26 None) by
        first [assumption | lia | reflexivity].
      reflexivity.
    + rewrite (locate_high p_table pl xl 25 Hsp ltac:(lia) ltac:(lia) Hl Hq).
      reflexivity.
  - pose proof (lookup_lt_Some _ _ _ Hy').
    rewrite (locate_interior t_table tl k' x' y' Hst Hk' Hx' Hy' Hxq' Hqy'), bind_ok.
    replace (Z.of_nat k' =? 0) with false by (symmetry; apply Z.eqb_neq; lia).
    replace (Z.of_nat k' =? 52) with false by (symmetry; apply Z.eqb_neq; lia).
    destruct Cp as [x1 H1 Hq | k x y Hk Hx Hy Hxq Hqy | xl Hl Hq].
    + rewrite (locate_low p_table pl x1 Hsp H1 Hq), bind_ok.
      cbn [Z.eqb Pos.eqb Z.ltb Z.compare Pos.compare Pos.compare_cont andb].
      cbn beta iota. rewrite bind_ok.
      rewrite (interpolate_ok t_table tl k' x' y' 53 None) by
        first [assumption | lia | reflexivity].
      reflexivity.
    + pose proof (lookup_lt_Some _ _ _ Hy).
      rewrite (locate_interior p_table pl k x y Hsp Hk Hx Hy Hxq Hqy), bind_ok.
      replace (Z.of_nat k =? 0) with false by (symmetry; apply Z.eqb_neq; lia).
      replace (Z.of_nat k =? 25) with false by (symmetry; apply Z.eqb_neq; lia).
      cbn beta iota.
      rewrite (interpolate_ok p_table pl k x y 26 None) by
        first [assumption | lia | reflexivity].
      rewrite bind_ok.
      rewrite (interpolate_ok t_table tl k' x' y' 53 None) by
        first [assumption | lia | reflexivity].
      reflexivity.
    + rewrite (locate_high p_table pl xl 25 Hsp ltac:(lia) ltac:(lia) Hl Hq), bind_ok.
      cbn [Z.eqb Pos.eqb Z.ltb Z.compare Pos.compare Pos.compare_cont andb].
      cbn beta iota. rewrite bind_ok.
      rewrite (interpolate_ok t_table tl k' x' y' 53 None) by
        first [assumption | lia | reflexivity].
      reflexivity.
  - rewrite (locate_high t_table tl xl' 52 Hst ltac:(lia) ltac:(lia) Hl' Hq'), bind_ok.
    destruct Cp as [x1 H1 Hq | k x y Hk Hx Hy Hxq Hqy | xl Hl Hq].
    + rewrite (locate_low p_table pl x1 Hsp H1 Hq). reflexivity.
    + pose proof (lookup_lt_Some _ _ _ Hy).
      rewrite (locate_interior p_table pl k x y Hsp Hk Hx Hy Hxq Hqy), bind_ok.
      replace (Z.of_nat k =? 0) with false by (symmetry; apply Z.eqb_neq; lia).
      replace (Z.of_nat k =? 25) with false by (symmetry; apply Z.eqb_neq; lia).
      cbn [Z.eqb Pos.eqb]. cbn beta iota.
      rewrite (interpolate_ok p_table pl k x y 26 None) by
        first [assumption | lia | reflexivity].
      reflexivity.
    + rewrite (locate_high p_table pl xl 25 Hsp ltac:(lia) ltac:(lia) Hl Hq).
      reflexivity.
Qed.

(** Every query falls in one of the three cases of an axis, at a
    position that leaves room for the next node. *)
Lemma axis_case_total (table : list Q) (q : Q) (last : Z) :
  strictly_increasing table -> Z.of_nat (length table) = last + 1 -> 1 <= last ->
  exists pos f, axis_case table q last pos f /\ 0 <= pos < last.
Proof.
  intros Hs Hlen Hlast.
  destruct (lookup_lt_is_Some_2 table 0) as [x0 H0]; [lia|].
  destruct (lookup_lt_is_Some_2 table 1) as [x1 H1]; [lia|].
  destruct (lookup_lt_is_Some_2 table (length table - 1)) as [xl Hl]; [lia|].
  destruct (Qlt_le_dec q x1) as [Hlow|Hx1].
  { exists 0, (Fin 0). split; [exact (axis_low table q last x1 H1 Hlow) | lia]. }
  destruct (Qlt_le_dec q xl) as [Hin|Hhigh].
  2:{ exists (last - 1), (Fin 1). split; [|lia].
      apply (axis_high table q last xl); [|exact Hhigh].
      replace (Z.to_nat last) with (length table - 1)%nat by lia. exact Hl. }
  pose proof (Hs 0%nat 1%nat x0 x1 ltac:(lia) H0 H1) as H01.
  destruct (locate_cases table q x0 xl Hs H0 Hl) as (j & _ & Hloc).
  destruct Hloc as [[? _] | [(_ & ? & _) | (_ & _ & Hj0 & x & y & Hx & Hy & Hxq & Hqy)]];
    [lra | lra |].
  pose proof (lookup_lt_Some _ _ _ Hy).
  assert (1 <= Z.to_nat j)%nat as Hj1.
  { destruct (decide (Z.to_nat j = 0)%nat) as [E|E]; [|lia].
    rewrite E in Hy. rewrite H1 in Hy. injection Hy as <-. lra. }
  exists (Z.of_nat (Z.to_nat j)), (Fin ((- x + q) / (y - x))). split; [|lia].
  exact (axis_interior table q last (Z.to_nat j) x y Hj1 Hx Hy Hxq Hqy).
Qed.

Lemma getitem2_table (m : matrix) (i j : Z) :
  table_shape m -> 0 <= i < 53 -> 0 <= j < 26 -> exists x, getitem2 m i j = Ok x.
Proof.
  intros [Hrows Hcols] Hi Hj. unfold getitem2.
  destruct (getitem_lookup m i) as (row & Hrow & ->); [lia|]. rewrite bind_ok.
  rewrite Forall_lookup in Hcols. specialize (Hcols _ _ Hrow).
  destruct (getitem_lookup row j) as (x & _ & ->); [lia|]. eauto.
Qed.

(** X1: [did_grad_cp] on strictly increasing tables of 53 temperatures
    and 26 pressures, with [grad] and [cp] of 53 rows of 26 entries, for
    any [t] and [p] whose logarithms are numbers: it returns, and on each
    axis the query falls in one case of [axis_case].  From the second
    node on, the position is the interval that holds the query and the
    factor is the fractional position of the query in it,
    [(query - table[pos]) / (table[pos+1] - table[pos])]; at or beyond
    the last node, the last interval with factor 1; below the second
    node, the first interval with factor 0.  The result blends the four
    nodes of the cell with these factors. *)
Theorem did_grad_cp_spec (log10 pow10 : float -> float) (t p : float)
    (t_table p_table : list Q) (grad cp : matrix) (tl pl : Q) :
  strictly_increasing t_table -> strictly_increasing p_table ->
  length t_table = 53%nat -> length p_table = 26%nat ->
  table_shape grad -> table_shape cp ->
  log10 t = Fin tl -> log10 p = Fin pl ->
  exists (jt jp : Z) (ft fp g1 g2 g3 g4 c1 c2 c3 c4 : float),
    axis_case t_table tl 52 jt ft /\ axis_case p_table pl 25 jp fp
    /\ 0 <= jt < 52 /\ 0 <= jp < 25
    /\ did_grad_cp_factors log10 t p (Fin <$> t_table) (Fin <$> p_table)
       = Ok (Blend jt (Some ft) jp (Some fp))
    /\ getitem2 grad jt jp = Ok g1 /\ getitem2 grad (jt + 1) jp = Ok g2
    /\ getitem2 grad (jt + 1) (jp + 1) = Ok g3 /\ getitem2 grad jt (jp + 1) = Ok g4
    /\ getitem2 cp jt jp = Ok c1 /\ getitem2 cp (jt + 1) jp = Ok c2
    /\ getitem2 cp (jt + 1) (jp + 1) = Ok c3 /\ getitem2 cp jt (jp + 1) = Ok c4
    /\ did_grad_cp log10 pow10 t p (Fin <$> t_table) (Fin <$> p_table) grad cp
       = Ok (bilinear ft fp g1 g2 g3 g4, pow10 (bilinear ft fp c1 c2 c3 c4)).
Proof.
  intros Hst Hsp Lt Lp Hg Hc Ht Hp.
  destruct (axis_case_total t_table tl 52 Hst ltac:(lia) ltac:(lia))
    as (jt & ft & Ct & Hjt).
  destruct (axis_case_total p_table pl 25 Hsp ltac:(lia) ltac:(lia))
    as (jp & fp & Cp & Hjp).
  pose proof (did_grad_cp_factors_axis log10 t p t_table p_table tl pl jt jp ft fp
                Hst Hsp Lt Lp Ht Hp Ct Cp) as Hfac.
  destruct (getitem2_table grad jt jp Hg) as [g1 G1]; [lia..|].
  destruct (getitem2_table grad (jt + 1) jp Hg) as [g2 G2]; [lia..|].
  destruct (getitem2_table grad (jt + 1) (jp + 1) Hg) as [g3 G3]; [lia..|].
  destruct (getitem2_table grad jt (jp + 1) Hg) as [g4 G4]; [lia..|].
  destruct (getitem2_table cp jt jp Hc) as [c1 C1]; [lia..|].
  destruct (getitem2_table cp (jt + 1) jp Hc) as [c2 C2]; [lia..|].
  destruct (getitem2_table cp (jt + 1) (jp + 1) Hc) as [c3 C3]; [lia..|].
  destruct (getitem2_table cp jt (jp + 1) Hc) as [c4 C4]; [lia..|].
  exists jt, jp, ft, fp, g1, g2, g3, g4, c1, c2, c3, c4.
  repeat (split; [first [assumption | lia]|]).
  unfold did_grad_cp. rewrite Hfac, bind_ok. cbn [pos_t pos_p factkt factkp].
  rewrite G1, bind_ok, G2, bind_ok, G3, bind_ok, G4, bind_ok.
  rewrite C1, bind_ok, C2, bind_ok, C3, bind_ok, C4, bind_ok.
  reflexivity.
Qed.

(** On the grids 0..52 and 0..25 with tables of zeros: [log10 t = 3/2]
    is half way through the second temperature interval, [log10 p = 30]
    is beyond the last pressure node. *)
Lemma did_grad_cp_spec_witness :
  did_grad_cp_factors same (Fin (3#2)) (Fin 30) (Fin <$> grid 53) (Fin <$> grid 26)
  = Ok (Blend 1 (Some (Fin ((- 1 + (3#2)) / (2 - 1)))) 24 (Some (Fin 1)))
  /\ exists g c,
       did_grad_cp same same (Fin (3#2)) (Fin 30) (Fin <$> grid 53) (Fin <$> grid 26)
         (replicate 53 (replicate 26 (Fin 0))) (replicate 53 (replicate 26 (Fin 0)))
       = Ok (g, c).
Proof.
  split; [reflexivity|].
  destruct (did_grad_cp_spec same same (Fin (3#2)) (Fin 30) (grid 53) (grid 26)
              (replicate 53 (replicate 26 (Fin 0)))
              (replicate 53 (replicate 26 (Fin 0))) (3#2) 30)
    as (jt & jp & ft & fp & g1 & g2 & g3 & g4 & c1 & c2 & c3 & c4 & H);
    try apply grid_increasing; try reflexivity;
    try (split; [reflexivity | repeat constructor]).
  do 2 eexists. apply H.
Defined.

(** ** NewtonSolver: check_convergence *)

(** C2 (as stated, refuted): entered on the small-step path
    ([check = True]) with a residual of 1 (above [tolf]), a
    gradient-stationarity value of 2 (above [tolmin]) and a relative
    temperature change of 1 (above [tolx]), [check_convergence] still
    answers flag 2, converged. *)
Lemma check_convergence_small_step_converges :
  let tolf := Fin (5#1000) in
  let tolmin := Fin (1#100000) in
  let tolx := Fin (5#1000) in
  let f := Fin (1#2) in
  residual_test [Fin 1] 1 = Ok (Fin 1) /\ flt (Fin 1) tolf = false
  /\ gradient_test [Fin 1] [Fin 1] (fmax f (fmul (Fin (1#2)) (of_Z 1))) 1 = Ok (Fin (2#1))
  /\ flt (Fin (2#1)) tolmin = false
  /\ step_test [Fin 200] [Fin 100] 1 = Ok (Fin (100#100))
  /\ flt (Fin (100#100)) tolx = false
  /\ check_convergence [Fin 1] 1 tolf true f [Fin 1] tolmin
       [Fin 200] [Fin 100] [Fin 1] tolx = Ok (2, false).
Proof. vm_compute. repeat split; reflexivity. Qed.

(** C2 (amended): entered on the small-step path with the residual test
    failing, [check_convergence] reports converged (flag 2) whatever the
    gradient-stationarity value is; that value only decides the returned
    [check] flag ([True] exactly when it is below [tolmin]), and the
    relative temperature change is not consulted. *)
Theorem check_convergence_small_step (f_vec dflux temp temp_old g : list float)
    (n_total : Z) (tolf tolmin tolx f test test' : float) :
  residual_test f_vec n_total = Ok test ->
  flt test tolf = false ->
  gradient_test g dflux (fmax f (fmul (Fin (1#2)) (of_Z n_total))) n_total = Ok test' ->
  check_convergence f_vec n_total tolf true f dflux tolmin temp temp_old g tolx
  = Ok (2, flt test' tolmin).
Proof.
  intros Hres Hfail Hgrad. unfold check_convergence.
  rewrite Hres. cbn -[fmax fmul of_Z flt]. rewrite Hfail, Hgrad.
  cbn -[flt]. destruct (flt test' tolmin); reflexivity.
Qed.

Lemma check_convergence_small_step_witness :
  check_convergence [Fin 1] 1 (Fin (5#1000)) true (Fin (1#2)) [Fin 1]
    (Fin (1#100000)) [Fin 200] [Fin 100] [Fin 1] (Fin (5#1000))
  = Ok (2, flt (Fin (2#1)) (Fin (1#100000))).
Proof.
  apply (check_convergence_small_step [Fin 1] [Fin 1] [Fin 200] [Fin 100] [Fin 1]
           1 (Fin (5#1000)) (Fin (1#100000)) (Fin (5#1000)) (Fin (1#2))
           (Fin 1) (Fin (2#1)));
    reflexivity.
Defined.

(** X2: whenever [check_convergence] returns, its flag is 2 (converged)
    or 1 (go on with the next outer iteration), never the 0 that keeps
    the line search going; and flag 1 is only answered on the path
    entered with [check = False], once both the residual test and the
    test on the relative temperature change have failed. *)
Theorem check_convergence_flags (f_vec dflux temp temp_old g : list float)
    (n_total : Z) (tolf tolmin tolx f : float) (check c : bool) (flag : Z) :
  check_convergence f_vec n_total tolf check f dflux tolmin temp temp_old g tolx
  = Ok (flag, c) ->
  (flag = 1 \/ flag = 2)
  /\ (flag = 1 ->
      check = false /\ c = false
      /\ exists test test',
           residual_test f_vec n_total = Ok test /\ flt test tolf = false
           /\ step_test temp temp_old n_total = Ok test' /\ flt test' tolx = false).
Proof.
  unfold check_convergence. intros H.
  destruct (residual_test f_vec n_total) as [test|e]; simpl in H; [|discriminate].
  destruct (flt test tolf) eqn:Eres.
  { injection H as <- <-. split; [right; reflexivity | discriminate]. }
  destruct check.
  - destruct (gradient_test g dflux _ n_total) as [test'|e]; simpl in H; [|discriminate].
    injection H as <- _. split; [right; reflexivity | discriminate].
  - destruct (step_test temp temp_old n_total) as [test'|e]; simpl in H; [|discriminate].
    destruct (flt test' tolx) eqn:Estep; injection H as <- <-.
    + split; [right; reflexivity | discriminate].
    + split; [left; reflexivity|]. intros _. eauto 10.
Qed.

Lemma check_convergence_flags_witness :
  check_convergence [Fin 1] 1 (Fin (5#1000)) false (Fin (1#2)) [Fin 1]
    (Fin (1#100000)) [Fin 200] [Fin 100] [Fin 1] (Fin (5#1000)) = Ok (1, false)
  /\ (1 = 1 \/ 1 = 2).
Proof.
  assert (check_convergence [Fin 1] 1 (Fin (5#1000)) false (Fin (1#2)) [Fin 1]
            (Fin (1#100000)) [Fin 200] [Fin 100] [Fin 1] (Fin (5#1000)) = Ok (1, false))
    as H by reflexivity.
  split; [exact H|].
  exact (proj1 (check_convergence_flags _ _ _ _ _ _ _ _ _ _ _ _ _ H)).
Defined.

(** ** Loops *)

Lemma res_sat_bind {A B} (P : A -> Prop) (Q : B -> Prop) (E : exn -> Prop)
    (m : res A) (k : A -> res B) :
  res_sat P E m -> (forall a, P a -> res_sat Q E (k a)) -> res_sat Q E (m ≫= k).
Proof. destruct m as [a|e]; simpl; [intros Ha Hk; apply Hk, Ha | tauto]. Qed.

Lemma res_sat_weaken {A} (P P' : A -> Prop) (E E' : exn -> Prop) (m : res A) :
  res_sat P E m -> (forall a, P a -> P' a) -> (forall e, E e -> E' e) ->
  res_sat P' E' m.
Proof. destruct m; simpl; auto. Qed.

Lemma res_sat_ok {A} (P : A -> Prop) (m : res A) :
  res_sat P (fun _ => False) m -> exists a, m = Ok a /\ P a.
Proof. destruct m as [a|e]; simpl; [eauto | tauto]. Qed.

Lemma for_loop_sat {St} (Inv : Z -> St -> Prop) (E : exn -> Prop)
    (n : nat) (i : Z) (body : Z -> St -> res St) (s : St) :
  Inv i s ->
  (forall k s, i <= k < i + Z.of_nat n -> Inv k s -> res_sat (Inv (k + 1)) E (body k s)) ->
  res_sat (Inv (i + Z.of_nat n)) E (for_loop n i 1 body s).
Proof.
  revert i s. induction n as [|n IH]; intros i s Hs Hbody; simpl.
  - replace (i + Z.of_nat 0) with i by lia. exact Hs.
  - apply res_sat_bind with (P := Inv (i + 1)).
    + apply Hbody; [lia | exact Hs].
    + intros s' Hs'.
      replace (i + Z.of_nat (S n)) with (i + 1 + Z.of_nat n) by lia.
      apply IH; [exact Hs'|]. intros k s'' Hk. apply Hbody. lia.
Qed.

Lemma for_range_sat {St} (Inv : Z -> St -> Prop) (E : exn -> Prop)
    (lo hi : Z) (body : Z -> St -> res St) (s : St) :
  lo <= hi -> Inv lo s ->
  (forall k s, lo <= k < hi -> Inv k s -> res_sat (Inv (k + 1)) E (body k s)) ->
  res_sat (Inv hi) E (for_range lo hi body s).
Proof.
  intros Hle Hs Hbody. unfold for_range.
  replace hi with (lo + Z.of_nat (Z.to_nat (hi - lo))) at 1 by lia.
  apply for_loop_sat; [exact Hs|]. intros k s' Hk. apply Hbody. lia.
Qed.

Lemma for_range_empty {St} (lo hi : Z) (body : Z -> St -> res St) (s : St) :
  hi <= lo -> for_range lo hi body s = Ok s.
Proof.
  intros H. unfold for_range. replace (Z.to_nat (hi - lo)) with 0%nat by lia.
  reflexivity.
Qed.

Lemma for_range_down_sat {St} (Inv : Z -> St -> Prop) (E : exn -> Prop)
    (hi lo : Z) (body : Z -> St -> res St) (s : St) :
  lo <= hi -> Inv hi s ->
  (forall k s, lo < k <= hi -> Inv k s -> res_sat (Inv (k - 1)) E (body k s)) ->
  res_sat (Inv lo) E (for_range_down hi lo body s).
Proof.
  intros Hle Hs Hbody. unfold for_range_down.
  remember (Z.to_nat (hi - lo)) as n eqn:Hn.
  revert hi s Hle Hs Hbody Hn. induction n as [|n IH]; intros hi s Hle Hs Hbody Hn; simpl.
  - replace lo with hi by lia. exact Hs.
  - apply res_sat_bind with (P := Inv (hi - 1)).
    + apply Hbody; [lia | exact Hs].
    + intros s' Hs'. replace (hi + -1) with (hi - 1) by lia.
      apply IH; [lia | exact Hs' | | lia].
      intros k s'' Hk. apply Hbody. lia.
Qed.

Lemma for_range_inv {St} (Inv : St -> Prop) (E : exn -> Prop)
    (lo hi : Z) (body : Z -> St -> res St) (s : St) :
  Inv s ->
  (forall k s, lo <= k < hi -> Inv s -> res_sat Inv E (body k s)) ->
  res_sat Inv E (for_range lo hi body s).
Proof.
  intros Hs Hbody. destruct (Z_le_gt_dec lo hi) as [Hle|Hgt].
  - apply (for_range_sat (fun _ => Inv)); assumption.
  - rewrite for_range_empty by lia. exact Hs.
Qed.

(** ** LinearSolver: matrices *)

Lemma entry_getitem2 (a : matrix) (i j : Z) (x : float) :
  0 <= i -> 0 <= j -> entry a i j = Some x -> getitem2 a i j = Ok x.
Proof.
  intros Hi Hj. unfold entry, getitem2.
  destruct (a !! Z.to_nat i) as [row|] eqn:Hrow; [|discriminate]. simpl.
  intros Hx. rewrite (getitem_nonneg a i row Hi Hrow). simpl.
  apply getitem_nonneg; assumption.
Qed.

Lemma wrap8_small (z : Z) : -128 <= z < 128 -> wrap8 z = z.
Proof. intros H. unfold wrap8. rewrite Z.mod_small; lia. Qed.

Section Shape.

Variable sh : list nat.
Variable n : Z.
Hypothesis sh_covers : covers sh n.

Lemma shape_row (a : matrix) (i : Z) :
  shape a = sh -> 0 <= i < n ->
  exists row, a !! Z.to_nat i = Some row /\ n <= Z.of_nat (length row).
Proof using sh_covers.
  intros Hsh Hi. destruct sh_covers as [Hlen Hall].
  assert (length a = length sh) as Hla by (rewrite <- Hsh; unfold shape; now rewrite length_fmap).
  destruct (lookup_lt_is_Some_2 a (Z.to_nat i)) as [row Hrow]; [lia|].
  exists row. split; [exact Hrow|].
  rewrite Forall_forall in Hall. apply Hall.
  rewrite <- Hsh. unfold shape. apply list_elem_of_fmap_2.
  eapply list_elem_of_lookup_2, Hrow.
Qed.

Lemma shape_entry (a : matrix) (i j : Z) :
  shape a = sh -> finite_matrix a -> 0 <= i < n -> 0 <= j < n ->
  exists q, entry a i j = Some (Fin q).
Proof using sh_covers.
  intros Hsh Hfin Hi Hj.
  destruct (shape_row a i Hsh Hi) as (row & Hrow & Hlen).
  destruct (lookup_lt_is_Some_2 row (Z.to_nat j)) as [x Hx]; [lia|].
  assert (finite x) as [q ->].
  { unfold finite_matrix in Hfin. rewrite Forall_lookup in Hfin.
    specialize (Hfin _ _ Hrow). rewrite Forall_lookup in Hfin. eapply Hfin, Hx. }
  exists q. unfold entry. rewrite Hrow. simpl. exact Hx.
Qed.

Lemma shape_setitem2 (a : matrix) (i j : Z) (x : float) :
  shape a = sh -> 0 <= i < n -> 0 <= j < n ->
  exists a', setitem2 a i j x = Ok a' /\ shape a' = sh
    /\ entry a' i j = Some x
    /\ (forall k l, 0 <= k -> 0 <= l -> k <> i \/ l <> j -> entry a' k l = entry a k l)
    /\ (finite x -> finite_matrix a -> finite_matrix a').
Proof using sh_covers.
  intros Hsh Hi Hj.
  destruct (shape_row a i Hsh Hi) as (row & Hrow & Hlen).
  pose proof (lookup_lt_Some _ _ _ Hrow) as Hla.
  exists (<[Z.to_nat i := <[Z.to_nat j := x]> row]> a).
  split; [|split; [|split; [|split]]].
  - unfold setitem2. rewrite (getitem_nonneg a i row) by first [lia | exact Hrow].
    rewrite bind_ok, setitem_nonneg by lia. rewrite bind_ok.
    apply setitem_nonneg. lia.
  - rewrite <- Hsh. unfold shape. rewrite list_fmap_insert, length_insert.
    apply list_insert_id. rewrite list_lookup_fmap, Hrow. reflexivity.
  - unfold entry. rewrite list_lookup_insert_eq by exact Hla. simpl.
    apply list_lookup_insert_eq. lia.
  - intros k l Hk Hl Hne. unfold entry.
    destruct (decide (Z.to_nat k = Z.to_nat i)) as [Heq|Hki].
    + rewrite Heq, list_lookup_insert_eq, Hrow by exact Hla. simpl.
      apply list_lookup_insert_ne. lia.
    + rewrite list_lookup_insert_ne by lia. reflexivity.
  - intros Hx Hfin. unfold finite_matrix in *.
    apply Forall_insert; [exact Hfin|].
    apply Forall_insert; [|exact Hx].
    rewrite Forall_lookup in Hfin. eapply Hfin, Hrow.
Qed.

Lemma good_get (j : Z) (a : matrix) (i c : Z) :
  good sh j a -> 0 <= i < n -> 0 <= c < n ->
  exists q, getitem2 a i c = Ok (Fin q) /\ entry a i c = Some (Fin q).
Proof using sh_covers.
  intros (Hsh & Hfin & _) Hi Hc.
  destruct (shape_entry a i c Hsh Hfin Hi Hc) as [q Hq].
  exists q. split; [apply entry_getitem2; [lia | lia | exact Hq] | exact Hq].
Qed.

Lemma good_set (j : Z) (a : matrix) (i c : Z) (q : Q) :
  good sh j a -> 0 <= i < n -> 0 <= c < n -> j <= i \/ j <= c ->
  exists a', setitem2 a i c (Fin q) = Ok a' /\ good sh j a'
    /\ entry a' i c = Some (Fin q)
    /\ (forall k l, 0 <= k -> 0 <= l -> k <> i \/ l <> c -> entry a' k l = entry a k l).
Proof using sh_covers.
  intros (Hsh & Hfin & Hdiag) Hi Hc Hj.
  destruct (shape_setitem2 a i c (Fin q) Hsh Hi Hc) as (a' & Hset & Hsh' & Hic & Hother & Hfin').
  exists a'. split; [exact Hset|]. split; [|split; assumption].
  split; [exact Hsh'|]. split; [apply Hfin'; [eexists; reflexivity | exact Hfin]|].
  intros k Hk. destruct (Hdiag k Hk) as (d & Hd & Hnz).
  exists d. split; [|exact Hnz]. rewrite Hother by lia. exact Hd.
Qed.

End Shape.

(** ** LinearSolver: lu_decomp *)

Lemma Qabs_zero_iff (q : Q) : (Qabs q == 0)%Q <-> (q == 0)%Q.
Proof.
  split; intros H.
  - pose proof (Qabs_nonneg q). pose proof (Qle_Qabs q).
    pose proof (Qle_Qabs (- q)). rewrite Qabs_opp in *. lra.
  - rewrite H. reflexivity.
Qed.

Ltac get2 a i c q Hq :=
  let He := fresh "He" in
  match goal with
  | Hc : covers ?sh ?n, Hg : good ?sh ?j a |- _ =>
    destruct (good_get sh n Hc j a i c Hg) as (q & He & Hq);
    [lia | lia | rewrite ?He, ?bind_ok; clear He]
  end.

Ltac set2 a i c a' Ha' Hic Hoth :=
  let He := fresh "He" in
  match goal with
  | Hc : covers ?sh ?n, Hg : good ?sh ?j a |- context [setitem2 a i c (Fin ?q)] =>
    destruct (good_set sh n Hc j a i c q Hg) as (a' & He & Ha' & Hic & Hoth);
    [lia | lia | lia | rewrite ?He, ?bind_ok; clear He]
  end.

Ltac loop_with P :=
  match goal with
  | |- context [for_range ?lo ?hi ?body ?s] =>
    let H := fresh "Hloop" in
    assert (H : res_sat P (fun _ => False) (for_range lo hi body s));
    [ | apply res_sat_ok in H ]
  end.

Section Factorisation.

Variable sh : list nat.
Variable n : Z.
Hypothesis sh_covers : covers sh n.

Lemma lu_dot_ok (j : Z) (a : matrix) (i c kmax : Z) (q : Q) :
  good sh j a -> 0 <= i < n -> 0 <= c < n -> kmax <= n ->
  exists q', lu_dot a i c kmax (Fin q) = Ok (Fin q').
Proof using sh_covers.
  intros Ha Hi Hc Hk. unfold lu_dot. loop_with finite.
  - apply for_range_inv; [eexists; reflexivity|].
    intros k s Hk' [qs ->].
    get2 a i k x Hx. get2 a k c y Hy. simpl. eexists; reflexivity.
  - destruct Hloop as (x & -> & [q' ->]). eauto.
Qed.

Lemma row_max_spec (j : Z) (a : matrix) (i : Z) :
  good sh j a -> 0 <= i < n ->
  exists m, row_max a n i = Ok (Fin m) /\ (0 <= m)%Q
            /\ ((m == 0)%Q <-> zero_row a n i).
Proof using sh_covers.
  intros Ha Hi. unfold row_max.
  loop_with (fun x : float => exists m, x = Fin m /\ (0 <= m)%Q /\
      ((m == 0)%Q <-> forall c, 0 <= c < n ->
                        exists q, entry a i c = Some (Fin q) /\ (q == 0)%Q)).
  - apply (for_range_sat (fun k (x : float) => exists m, x = Fin m /\ (0 <= m)%Q /\
      ((m == 0)%Q <-> forall c, 0 <= c < k ->
                        exists q, entry a i c = Some (Fin q) /\ (q == 0)%Q))); [lia | |].
    + exists 0%Q. split; [reflexivity|]. split; [lra|].
      split; [intros _ c Hc; lia | reflexivity].
    + intros k s Hk (m & -> & Hm & Hiff).
      get2 a i k x Hx. cbn [fabs fgt flt].
      destruct (Qlt_bool m (Qabs x)) eqn:E; simpl.
      * apply Qlt_bool_iff in E. exists (Qabs x).
        split; [reflexivity|]. split; [lra|]. split.
        -- intros H0. lra.
        -- intros Hall. destruct (Hall k ltac:(lia)) as (q & Hq & Hq0).
           rewrite Hx in Hq. injection Hq as <-.
           apply Qabs_zero_iff in Hq0. lra.
      * assert (Qabs x <= m)%Q as Hle.
        { destruct (Qlt_le_dec m (Qabs x)) as [Hlt|Hle]; [|exact Hle].
          apply Qlt_bool_iff in Hlt. congruence. }
        exists m. split; [reflexivity|]. split; [exact Hm|]. split.
        -- intros H0 c Hc. destruct (decide (c = k)) as [->|Hne].
           ++ exists x. split; [exact Hx|]. apply Qabs_zero_iff.
              pose proof (Qabs_nonneg x). lra.
           ++ apply Hiff; [exact H0 | lia].
        -- intros Hall. apply Hiff. intros c Hc. apply Hall. lia.
  - destruct Hloop as (x & -> & m & -> & Hm & Hiff). exists m.
    split; [reflexivity|]. split; [exact Hm|]. exact Hiff.
Qed.

Hypothesis n_max : n <= NMAX.

Lemma vv_good_get (vv : list float) (i : Z) :
  vv_good vv -> 0 <= i < n ->
  exists q, getitem vv i = Ok (Fin q) /\ (0 <= q)%Q.
Proof using n_max.
  intros [Hlen Hall] Hi.
  destruct (lookup_lt_is_Some_2 vv (Z.to_nat i)) as [x Hx]; [lia|].
  rewrite Forall_lookup in Hall. destruct (Hall _ _ Hx) as (q & -> & Hq).
  exists q. split; [apply getitem_nonneg; [lia | exact Hx] | exact Hq].
Qed.

Lemma vv_good_set (vv : list float) (i : Z) (q : Q) :
  vv_good vv -> 0 <= i < n -> (0 <= q)%Q ->
  exists vv', setitem vv i (Fin q) = Ok vv' /\ vv_good vv'.
Proof using n_max.
  intros [Hlen Hall] Hi Hq. eexists. split; [apply setitem_nonneg; lia|].
  split; [rewrite length_insert; exact Hlen|].
  apply Forall_insert; [exact Hall | eauto].
Qed.

Lemma lu_scaling_spec (j : Z) (a : matrix) (vv : list float) :
  good sh j a -> vv_good vv -> 0 <= n ->
  res_sat (fun vv' => vv_good vv' /\ forall i, 0 <= i < n -> ~ zero_row a n i)
          (fun e => e = SingularMatrix /\ exists i, 0 <= i < n /\ zero_row a n i)
          (lu_scaling a n vv).
Proof using sh_covers n_max.
  intros Ha Hvv Hn. unfold lu_scaling.
  apply (for_range_sat
           (fun k vv' => vv_good vv' /\ forall i, 0 <= i < k -> ~ zero_row a n i));
    [lia | split; [exact Hvv | intros i Hi; lia] |].
  intros k vv' Hk [Hvv' Hnz].
  destruct (row_max_spec j a k Ha Hk) as (m & -> & Hm & Hiff).
  rewrite bind_ok. cbn [feq].
  destruct (Qeq_bool m 0) eqn:E; simpl.
  - apply Qeq_bool_iff in E. split; [reflexivity|].
    exists k. split; [lia | apply Hiff, E].
  - assert (~ (m == 0)%Q) as Hm0.
    { intros H0. apply Qeq_bool_iff in H0. congruence. }
    rewrite E. simpl.
    destruct (vv_good_set vv' k (1 / m) Hvv' ltac:(lia)) as (vv'' & -> & Hvv'').
    { apply Qle_shift_div_l; lra. }
    simpl. split; [exact Hvv''|].
    intros i Hi. destruct (decide (i = k)) as [->|Hne]; [|apply Hnz; lia].
    intros Hz. apply Hm0, Hiff, Hz.
Qed.

Lemma lu_upper_ok (j : Z) (a : matrix) :
  good sh j a -> 0 <= j < n -> exists a', lu_upper a j = Ok a' /\ good sh j a'.
Proof using sh_covers.
  intros Ha Hj. unfold lu_upper. apply res_sat_ok.
  apply for_range_inv; [exact Ha|].
  intros i a0 Hi Ha0.
  get2 a0 i j x Hx.
  destruct (lu_dot_ok j a0 i j i x Ha0) as (s & ->); [lia..|].
  rewrite bind_ok. set2 a0 i j a1 Ha1 Hij Hoth. exact Ha1.
Qed.

Lemma lu_pivot_ok (j : Z) (a : matrix) (vv : list float) (imax : option Z) :
  good sh j a -> vv_good vv -> 0 <= j < n ->
  exists a' im, lu_pivot a vv j n imax = Ok (a', Some im)
                /\ good sh j a' /\ j <= im < n.
Proof using sh_covers n_max.
  intros Ha Hvv Hj. unfold lu_pivot.
  loop_with (fun '((a', aamax, imax') : matrix * float * option Z) =>
    good sh j a' /\ exists im : Z, imax' = Some im /\ j <= im < n).
  - eapply res_sat_weaken;
      [apply (for_range_sat (fun k '((a', aamax, imax') : matrix * float * option Z) =>
         good sh j a'
         /\ (exists m, aamax = Fin m /\ (0 <= m)%Q /\ (k = j -> (m == 0)%Q))
         /\ (j < k -> exists im : Z, imax' = Some im /\ j <= im < k))
         (fun _ => False)) | | ]; [lia | | | |].
    + split; [exact Ha|]. split; [|lia].
      exists 0%Q. split; [reflexivity|]. split; [lra | reflexivity].
    + intros k [[a0 aamax] imax0] Hk (Ha0 & (m & -> & Hm & Hm0) & Him).
      get2 a0 k j x Hx.
      destruct (lu_dot_ok j a0 k j j x Ha0) as (s & ->); [lia..|].
      rewrite bind_ok. set2 a0 k j a1 Ha1 Hij Hoth.
      destruct (vv_good_get vv k Hvv ltac:(lia)) as (v & -> & Hv).
      rewrite bind_ok. cbn [fabs fmul fge fle].
      assert (0 <= v * Qabs s)%Q as Hdum.
      { apply Qmult_le_0_compat; [exact Hv | apply Qabs_nonneg]. }
      destruct (Qle_bool m (v * Qabs s)) eqn:E; simpl.
      * split; [exact Ha1|]. split; [|intros _; exists k; split; [reflexivity | lia]].
        exists (v * Qabs s)%Q. split; [reflexivity|]. split; [exact Hdum | intros; lia].
      * split; [exact Ha1|]. split.
        -- exists m. split; [reflexivity|]. split; [exact Hm | intros; lia].
        -- intros _. destruct (decide (k = j)) as [->|Hne].
           ++ exfalso. specialize (Hm0 eq_refl).
              assert (Qle_bool m (v * Qabs s) = true) as E'
                by (apply Qle_bool_iff; lra).
              congruence.
           ++ destruct Him as (im & -> & Him); [lia|].
              exists im. split; [reflexivity | lia].
    + intros [[a0 aamax] imax0] (Ha0 & _ & Him). split; [exact Ha0|].
      apply Him. lia.
    + tauto.
  - destruct Hloop as ([[a' aamax] imax'] & -> & Ha' & im & -> & Him).
    rewrite bind_ok. eauto.
Qed.

Lemma lu_swap_ok (j im : Z) (a : matrix) :
  good sh j a -> 0 <= j < n -> j <= im < n ->
  exists a', lu_swap a n im j = Ok a' /\ good sh j a'.
Proof using sh_covers.
  intros Ha Hj Him. unfold lu_swap. apply res_sat_ok.
  apply for_range_inv; [exact Ha|].
  intros k a0 Hk Ha0.
  get2 a0 im k dum Hdum. get2 a0 j k x Hx.
  set2 a0 im k a1 Ha1 H1 Ho1. set2 a1 j k a2 Ha2 H2 Ho2. exact Ha2.
Qed.

Lemma lu_scale_ok (j : Z) (a : matrix) (d : Q) :
  good sh (j + 1) a -> 0 <= j < n ->
  exists a', lu_scale a j n (Fin d) = Ok a' /\ good sh (j + 1) a'.
Proof using sh_covers.
  intros Ha Hj. unfold lu_scale. apply res_sat_ok.
  apply for_range_inv; [exact Ha|].
  intros i a0 Hi Ha0.
  get2 a0 i j x Hx. cbn [fmul]. set2 a0 i j a1 Ha1 H1 Ho1. exact Ha1.
Qed.

Lemma good_extend (j : Z) (a : matrix) (q : Q) :
  good sh j a -> entry a j j = Some (Fin q) -> ~ (q == 0)%Q -> good sh (j + 1) a.
Proof.
  intros (Hsh & Hfin & Hdiag) Hq Hnz. repeat split; try assumption.
  intros k Hk. destruct (decide (k = j)) as [->|Hne]; [eauto|].
  apply Hdiag. lia.
Qed.

Variable cast : Z -> Z.
Hypothesis cast_exact : forall z, 0 <= z < n -> cast z = z.

Lemma fdiv_nonzero (x : float) (q : Q) :
  ~ (q == 0)%Q -> exists y, fdiv x (Fin q) = Ok y /\ (finite x -> finite y).
Proof.
  intros Hq. unfold fdiv.
  destruct (Qeq_bool q 0) eqn:E; [apply Qeq_bool_iff in E; tauto|].
  destruct x as [p|s|]; eexists; (split; [reflexivity|]).
  - intros _. eexists; reflexivity.
  - intros [? ?]. discriminate.
  - intros [? ?]. discriminate.
Qed.

Lemma lu_column_ok (j : Z) (st : lu_state) :
  lu_inv sh n j st -> 0 <= j < n ->
  exists st', lu_column cast n j st = Ok st' /\ lu_inv sh n (j + 1) st'.
Proof using sh_covers n_max cast_exact.
  destruct st as [a vv indx imax d].
  intros (Ha & Hvv & Hlen & Hindx & Himax) Hj. cbn [lu_a lu_vv lu_indx lu_imax] in *.
  unfold lu_column.
  destruct (lu_upper_ok j a Ha Hj) as (a1 & -> & Ha1). rewrite bind_ok.
  destruct (lu_pivot_ok j a1 vv imax Ha1 Hvv Hj) as (a2 & im & -> & Ha2 & Him).
  rewrite bind_ok. cbn beta iota. change (bound (Some im)) with (Ok im).
  rewrite bind_ok.
  assert (exists a3 d3 vv3,
    (if negb (j =? im)
     then a ← lu_swap a2 n im j; vj ← getitem vv j; vv0 ← setitem vv im vj;
          Ok (a, fneg d, vv0)
     else Ok (a2, d, vv)) = Ok (a3, d3, vv3) /\ good sh j a3 /\ vv_good vv3)
    as (a3 & d3 & vv3 & -> & Ha3 & Hvv3).
  { destruct (negb (j =? im)); [|eauto 10].
    destruct (lu_swap_ok j im a2 Ha2 Hj Him) as (a3 & -> & Ha3). rewrite bind_ok.
    destruct (vv_good_get vv j Hvv Hj) as (vj & -> & Hvj). rewrite bind_ok.
    destruct (vv_good_set vv im vj Hvv ltac:(lia) Hvj) as (vv3 & -> & Hvv3).
    rewrite bind_ok. eauto 10. }
  rewrite bind_ok. cbn beta iota. rewrite setitem_nonneg by lia. rewrite bind_ok.
  rewrite cast_exact by lia.
  get2 a3 j j ajj Hajj. cbn [feq].
  assert (exists a4 q, (if Qeq_bool ajj 0 then setitem2 a3 j j TINY else Ok a3) = Ok a4
                       /\ good sh (j + 1) a4 /\ entry a4 j j = Some (Fin q)
                       /\ ~ (q == 0)%Q)
    as (a4 & q & -> & Ha4 & Hq & Hq0).
  { destruct (Qeq_bool ajj 0) eqn:E.
    - unfold TINY. set2 a3 j j a4 Ha4 H4 Ho4.
      exists a4, (1 # 100000000000000000000)%Q.
      split; [reflexivity|]. split; [|split; [exact H4 | discriminate]].
      eapply good_extend; [exact Ha4 | exact H4 | discriminate].
    - assert (~ (ajj == 0)%Q) as Hnz.
      { intros H0. apply Qeq_bool_iff in H0. congruence. }
      exists a3, ajj. split; [reflexivity|].
      split; [eapply good_extend; eassumption | split; assumption]. }
  rewrite bind_ok.
  assert (exists a5, (if negb (j =? n - 1)
                      then ajj0 ← getitem2 a4 j j; dum ← fdiv (Fin 1) ajj0;
                           lu_scale a4 j n dum
                      else Ok a4) = Ok a5 /\ good sh (j + 1) a5)
    as (a5 & -> & Ha5).
  { destruct (negb (j =? n - 1)); [|eauto].
    rewrite (entry_getitem2 a4 j j (Fin q)) by first [lia | exact Hq].
    rewrite bind_ok.
    destruct (fdiv_nonzero (Fin 1) q Hq0) as (y & -> & Hy).
    destruct Hy as [dq ->]; [eexists; reflexivity|]. rewrite bind_ok.
    apply lu_scale_ok; assumption. }
  rewrite bind_ok. eexists. split; [reflexivity|].
  repeat split; cbn [lu_a lu_vv lu_indx lu_imax]; try apply Ha5; try apply Hvv3.
  - rewrite length_insert. exact Hlen.
  - apply Forall_insert; [exact Hindx | lia].
  - injection H as <-. lia.
  - injection H as <-. lia.
Qed.

Lemma lu_decomp_with_spec (a : matrix) (ntot : Z) :
  shape a = sh -> finite_matrix a -> 0 <= n ->
  res_sat (fun '((a', indx) : matrix * list Z) =>
             good sh n a' /\ Z.of_nat (length indx) = n
             /\ Forall (fun z => 0 <= z < n) indx
             /\ forall i, 0 <= i < n -> ~ zero_row a n i)
          (fun e => e = SingularMatrix /\ exists i, 0 <= i < n /\ zero_row a n i)
          (lu_decomp_with cast a n ntot).
Proof using sh_covers n_max cast_exact.
  intros Hsh Hfin Hn. unfold lu_decomp_with, zeros.
  change (NMAX <? 0) with false. cbn iota. rewrite bind_ok.
  replace (n <? 0) with false by (symmetry; apply Z.ltb_ge; lia).
  cbn iota. rewrite bind_ok.
  assert (good sh 0 a) as Ha.
  { repeat split; try assumption. intros k Hk. lia. }
  eapply res_sat_bind.
  - apply (lu_scaling_spec 0 a); [exact Ha | | exact Hn].
    split; [rewrite length_replicate; reflexivity|].
    apply Forall_replicate. exists 0%Q. split; [reflexivity | lra].
  - intros vv [Hvv Hnz]. cbn beta.
    assert (res_sat (lu_inv sh n n) (fun _ => False)
              (for_range 0 n (lu_column cast n) (LU a vv (replicate (Z.to_nat n) 0) None (Fin 1))))
      as Hloop.
    { apply (for_range_sat (lu_inv sh n)); [lia | |].
      - repeat split; cbn [lu_a lu_vv lu_indx lu_imax]; try apply Ha; try apply Hvv.
        + rewrite length_replicate. lia.
        + apply Forall_forall. intros z Hz. apply elem_of_replicate in Hz as [-> Hz]. lia.
        + discriminate.
        + discriminate.
      - intros k st Hk Hst. destruct (lu_column_ok k st Hst Hk) as (st' & -> & Hst').
        exact Hst'. }
    apply res_sat_ok in Hloop as (st & -> & Hg & _ & Hlen & Hindx & _).
    rewrite bind_ok. simpl. auto.
Qed.

End Factorisation.

Lemma wrap8_exact (n : Z) : n <= NMAX -> forall z, 0 <= z < n -> wrap8 z = z.
Proof. unfold NMAX. intros Hn z Hz. apply wrap8_small. lia. Qed.

(** C5: on its domain ([0 <= n <= NMAX], an [a] that holds the [n] by [n]
    block, entries that are numbers) [lu_decomp] raises the
    singular-matrix error exactly when some row of the active block has
    largest magnitude zero.  With no such row it returns the factored
    matrix, of the same shape, all of whose pivots are nonzero: a zero
    pivot met during elimination was replaced by [TINY], as happens for
    the all-ones 2 by 2 matrix. *)
Theorem lu_decomp_singular_iff (a : matrix) (n ntot : Z) :
  0 <= n <= NMAX -> covers (shape a) n -> finite_matrix a ->
  (lu_decomp a n ntot = Raise SingularMatrix
   <-> exists i, 0 <= i < n /\ zero_row a n i)
  /\ ((forall i, 0 <= i < n -> ~ zero_row a n i) ->
      exists a' indx, lu_decomp a n ntot = Ok (a', indx)
                      /\ shape a' = shape a /\ diag_ok a' n)
  /\ lu_decomp [[Fin 1; Fin 1]; [Fin 1; Fin 1]] 2 2
     = Ok ([[Fin 1; Fin 1]; [Fin 1; TINY]], [1; 1]).
Proof.
  intros [Hn0 Hn] Hcov Hfin.
  pose proof (lu_decomp_with_spec (shape a) n Hcov Hn wrap8 (wrap8_exact n Hn)
                a ntot eq_refl Hfin Hn0) as Hspec.
  fold (lu_decomp a n ntot) in Hspec.
  split; [|split].
  - destruct (lu_decomp a n ntot) as [[a' indx]|e]; simpl in Hspec.
    + split; [discriminate|]. intros (i & Hi & Hz).
      destruct Hspec as (_ & _ & _ & Hnz). exfalso. exact (Hnz i Hi Hz).
    + destruct Hspec as [-> Hz]. split; [intros _; exact Hz | reflexivity].
  - intros Hnz. destruct (lu_decomp a n ntot) as [[a' indx]|e]; simpl in Hspec.
    + destruct Hspec as ((Hsh & _ & Hdiag) & _). eauto.
    + destruct Hspec as [_ (i & Hi & Hz)]. exfalso. exact (Hnz i Hi Hz).
  - vm_compute. reflexivity.
Qed.

Lemma lu_decomp_singular_iff_witness :
  lu_decomp [[Fin 0; Fin 0]; [Fin 1; Fin 0]] 2 2 = Raise SingularMatrix.
Proof.
  apply (lu_decomp_singular_iff [[Fin 0; Fin 0]; [Fin 1; Fin 0]] 2 2).
  - unfold NMAX. lia.
  - split; [simpl; lia|]. repeat constructor; simpl; lia.
  - repeat constructor; eexists; reflexivity.
  - exists 0. split; [lia|]. intros j Hj.
    assert (j = 0 \/ j = 1) as [-> | ->] by lia;
      (exists 0%Q; split; reflexivity).
Defined.

(** ** LinearSolver: the pivot store and lu_backsubs *)

Lemma for_range_ext {St} (Inv : Z -> St -> Prop) (lo hi : Z)
    (f g : Z -> St -> res St) (s : St) :
  Inv lo s ->
  (forall k s, lo <= k < hi -> Inv k s ->
     f k s = g k s /\ res_sat (Inv (k + 1)) (fun _ => True) (f k s)) ->
  for_range lo hi f s = for_range lo hi g s.
Proof.
  unfold for_range. intros Hs Hstep.
  assert (forall m i s, lo <= i -> i + Z.of_nat m <= Z.max lo hi -> Inv i s ->
            for_loop m i 1 f s = for_loop m i 1 g s) as Hgen.
  { induction m as [|m IH]; intros i s' Hi Him Hs'; simpl; [reflexivity|].
    destruct (Hstep i s') as [Heq Hsat]; [lia | exact Hs' |].
    rewrite <- Heq. destruct (f i s') as [s''|e]; simpl; [|reflexivity].
    apply IH; [lia | lia | exact Hsat]. }
  apply Hgen; [lia | lia | exact Hs].
Qed.

Section Substitution.

Variable sh : list nat.
Variable n : Z.
Hypothesis sh_covers : covers sh n.
Hypothesis n_max : n <= NMAX.
Variable cast : Z -> Z.
Hypothesis cast_exact : forall z, 0 <= z < n -> cast z = z.

Lemma lu_column_cast_eq (j : Z) (st : lu_state) :
  lu_inv sh n j st -> 0 <= j < n ->
  lu_column cast n j st = lu_column (fun z => z) n j st.
Proof using sh_covers n_max cast_exact.
  destruct st as [a vv indx imax d].
  intros (Ha & Hvv & Hlen & Hindx & Himax) Hj. cbn [lu_a lu_vv lu_indx lu_imax] in *.
  unfold lu_column.
  destruct (lu_upper_ok sh n sh_covers j a Ha Hj) as (a1 & -> & Ha1).
  rewrite !bind_ok.
  destruct (lu_pivot_ok sh n sh_covers n_max j a1 vv imax Ha1 Hvv Hj)
    as (a2 & im & -> & Ha2 & Him).
  rewrite !bind_ok. cbn beta iota. cbn [bound]. rewrite !bind_ok.
  rewrite cast_exact by lia. reflexivity.
Qed.

Lemma lu_decomp_with_cast_eq (a : matrix) (ntot : Z) :
  shape a = sh -> finite_matrix a -> 0 <= n ->
  lu_decomp_with cast a n ntot = lu_decomp_with (fun z => z) a n ntot.
Proof using sh_covers n_max cast_exact.
  intros Hsh Hfin Hn. unfold lu_decomp_with, zeros.
  change (NMAX <? 0) with false. cbn iota. rewrite !bind_ok.
  replace (n <? 0) with false by (symmetry; apply Z.ltb_ge; lia).
  cbn iota. rewrite !bind_ok.
  assert (good sh 0 a) as Ha.
  { repeat split; try assumption. intros k Hk. lia. }
  pose proof (lu_scaling_spec sh n sh_covers n_max 0 a
                (replicate (Z.to_nat NMAX) (Fin 0)) Ha) as Hsc.
  destruct (lu_scaling a n _) as [vv|e]; [|reflexivity].
  destruct Hsc as [Hvv _]; [| exact Hn |].
  { split; [rewrite length_replicate; reflexivity|].
    apply Forall_replicate. exists 0%Q. split; [reflexivity | lra]. }
  rewrite !bind_ok.
  rewrite (for_range_ext (lu_inv sh n) 0 n (lu_column cast n) (lu_column (fun z => z) n));
    [reflexivity | |].
  - repeat split; cbn [lu_a lu_vv lu_indx lu_imax]; try apply Ha; try apply Hvv.
    + rewrite length_replicate. lia.
    + apply Forall_forall. intros z Hz. apply elem_of_replicate in Hz as [-> Hz]. lia.
    + discriminate.
    + discriminate.
  - intros k st Hk Hst. split; [apply lu_column_cast_eq; assumption|].
    destruct (lu_column_ok sh n sh_covers n_max cast cast_exact k st Hst Hk)
      as (st' & -> & Hst').
    exact Hst'.
Qed.

Lemma lu_forward_ok (j : Z) (a : matrix) (indx : list Z) (b : list float) :
  good sh j a -> Z.of_nat (length indx) = n ->
  Forall (fun z => 0 <= z < n) indx -> n <= Z.of_nat (length b) ->
  exists b', lu_forward a n indx b = Ok b' /\ length b' = length b.
Proof using sh_covers.
  intros Ha Hlen Hindx Hb. unfold lu_forward.
  assert (res_sat (fun '((b', ii) : list float * Z) => length b' = length b)
            (fun _ => False)
            (for_range 0 n (fun i '(b0, ii) =>
               ll ← getitem indx i; sum ← getitem b0 ll; bi ← getitem b0 i;
               b1 ← setitem b0 ll bi;
               '(sum0, ii0) ← (if negb (ii =? -1)
                  then sum0 ← for_range ii i (fun j0 sum0 =>
                                 x ← getitem2 a i j0; y ← getitem b1 j0;
                                 Ok (fsub sum0 (fmul x y))) sum;
                       Ok (sum0, ii)
                  else if negb (feq sum (Fin 0)) then Ok (sum, i) else Ok (sum, ii));
               b2 ← setitem b1 i sum0; Ok (b2, ii0)) (b, -1))) as Hloop.
  { destruct (Z_le_gt_dec 0 n) as [Hn|Hn]; [|rewrite for_range_empty by lia; reflexivity].
    eapply res_sat_weaken;
      [apply (for_range_sat (fun k '((b', ii) : list float * Z) =>
                 length b' = length b /\ (ii = -1 \/ 0 <= ii < k)) (fun _ => False))
      | | ]; [lia | split; [reflexivity | left; reflexivity] | | |].
    - intros k [b0 ii] Hk [Hb0 Hii].
      destruct (getitem_lookup indx k ltac:(lia)) as (ll & Hll & ->). rewrite bind_ok.
      rewrite Forall_lookup in Hindx. specialize (Hindx _ _ Hll).
      destruct (getitem_lookup b0 ll ltac:(lia)) as (sum & _ & ->). rewrite bind_ok.
      destruct (getitem_lookup b0 k ltac:(lia)) as (bi & _ & ->). rewrite bind_ok.
      rewrite setitem_nonneg by lia. rewrite bind_ok.
      set (b1 := <[Z.to_nat ll := bi]> b0).
      assert (length b1 = length b) as Hb1 by (unfold b1; rewrite length_insert; exact Hb0).
      assert (exists sum0 ii0,
        (if negb (ii =? -1)
         then sum0 ← for_range ii k (fun j0 sum0 =>
                        x ← getitem2 a k j0; y ← getitem b1 j0;
                        Ok (fsub sum0 (fmul x y))) sum;
              Ok (sum0, ii)
         else if negb (feq sum (Fin 0)) then Ok (sum, k) else Ok (sum, ii))
        = Ok (sum0, ii0) /\ (ii0 = -1 \/ 0 <= ii0 < k + 1))
        as (sum0 & ii0 & -> & Hii0).
      { destruct (ii =? -1) eqn:E; cbn [negb].
        - apply Z.eqb_eq in E. subst ii.
          destruct (negb (feq sum (Fin 0))); do 2 eexists; (split; [reflexivity | lia]).
        - apply Z.eqb_neq in E.
          assert (res_sat (fun _ : float => True) (fun _ => False)
                    (for_range ii k (fun j0 sum0 =>
                        x ← getitem2 a k j0; y ← getitem b1 j0;
                        Ok (fsub sum0 (fmul x y))) sum)) as Hin.
          { apply for_range_inv; [exact I|]. intros j0 s Hj0 _.
            get2 a k j0 x Hx.
            destruct (getitem_lookup b1 j0 ltac:(lia)) as (y & _ & ->).
            rewrite bind_ok. exact I. }
          apply res_sat_ok in Hin as (sum0 & -> & _). rewrite bind_ok.
          do 2 eexists. split; [reflexivity | lia]. }
      rewrite bind_ok. cbn beta iota.
      rewrite setitem_nonneg by lia. rewrite bind_ok. simpl.
      split; [rewrite length_insert; exact Hb1 | exact Hii0].
    - intros [b' ii] [Hb' _]. exact Hb'.
    - tauto. }
  apply res_sat_ok in Hloop as ([b' ii] & -> & Hb'). rewrite bind_ok. eauto.
Qed.

Lemma lu_backward_ok (a : matrix) (b : list float) :
  good sh n a -> n <= Z.of_nat (length b) ->
  exists b', lu_backward a n b = Ok b' /\ length b' = length b.
Proof using sh_covers.
  intros Ha Hb. unfold lu_backward. apply res_sat_ok.
  destruct (Z_le_gt_dec 0 n) as [Hn|Hn].
  2:{ unfold for_range_down. replace (Z.to_nat (n - 1 - -1)) with 0%nat by lia.
      reflexivity. }
  apply (for_range_down_sat (fun _ b' => length b' = length b)); [lia | reflexivity |].
  intros i b0 Hi Hb0.
  destruct (getitem_lookup b0 i ltac:(lia)) as (sum & _ & ->). rewrite bind_ok.
  assert (res_sat (fun _ : float => True) (fun _ => False)
            (for_range (i + 1) n (fun j sum0 =>
                x ← getitem2 a i j; y ← getitem b0 j;
                Ok (fsub sum0 (fmul x y))) sum)) as Hin.
  { apply for_range_inv; [exact I|]. intros j0 s Hj0 _.
    get2 a i j0 x Hx.
    destruct (getitem_lookup b0 j0 ltac:(lia)) as (y & _ & ->).
    rewrite bind_ok. exact I. }
  apply res_sat_ok in Hin as (sum0 & -> & _). rewrite bind_ok.
  destruct Ha as (Hsh & Hfin & Hdiag).
  destruct (Hdiag i ltac:(lia)) as (q & Hq & Hq0).
  rewrite (entry_getitem2 a i i (Fin q)) by first [lia | exact Hq].
  rewrite bind_ok.
  destruct (fdiv_nonzero sum0 q Hq0) as (y & -> & _). rewrite bind_ok.
  rewrite setitem_nonneg by lia. simpl. rewrite length_insert. exact Hb0.
Qed.

Lemma lu_backsubs_ok (a : matrix) (ntot : Z) (indx : list Z) (b : list float) :
  good sh n a -> Z.of_nat (length indx) = n ->
  Forall (fun z => 0 <= z < n) indx -> n <= Z.of_nat (length b) ->
  exists b', lu_backsubs a n ntot indx b = Ok b' /\ length b' = length b.
Proof using sh_covers.
  intros Ha Hlen Hindx Hb. unfold lu_backsubs.
  destruct (lu_forward_ok n a indx b Ha Hlen Hindx Hb) as (b1 & -> & Hb1).
  rewrite bind_ok.
  destruct (lu_backward_ok a b1 Ha ltac:(lia)) as (b2 & -> & Hb2).
  exists b2. split; [reflexivity | congruence].
Qed.

End Substitution.

Lemma lu_scaling_overflow (a : matrix) (n : Z) (vv vv' : list float) :
  Z.of_nat (length vv) = NMAX -> NMAX < n -> lu_scaling a n vv <> Ok vv'.
Proof.
  intros Hlen Hn Hok.
  assert (res_sat (fun v => Z.of_nat (length v) = NMAX /\ n <= NMAX) (fun _ => True)
            (lu_scaling a n vv)) as Hsat.
  { unfold lu_scaling.
    apply (for_range_sat (fun k v => Z.of_nat (length v) = NMAX /\ k <= NMAX));
      [unfold NMAX in *; lia | unfold NMAX in *; split; [exact Hlen | lia] |].
    intros k v Hk [Hv Hk100].
    destruct (row_max a n k) as [aamax|e]; [rewrite bind_ok | exact I].
    destruct (feq aamax (Fin 0)); [exact I|].
    destruct (fdiv (Fin 1) aamax) as [q|e]; [rewrite bind_ok | exact I].
    destruct (setitem v k q) as [v'|e] eqn:Hset; [|exact I]. simpl.
    split; [rewrite (setitem_length _ _ _ _ Hset); exact Hv|].
    destruct (Z_lt_le_dec k (Z.of_nat (length v))) as [Hlt|Hge]; [lia|].
    unfold setitem in Hset. rewrite norm_index_past in Hset by lia. discriminate. }
  rewrite Hok in Hsat. simpl in Hsat. lia.
Qed.

(** C10: [vv] has [NMAX = 100] entries and [indx] is an int8 array.  For
    a matrix of numbers that holds the [n] by [n] block and a right-hand
    side of at least [n] entries: when [1 <= n <= 100], [lu_decomp] raises
    no IndexError, the int8 store of the pivot rows is exact (the result
    is that of the routine storing the chosen rows unchanged), and
    [lu_backsubs] on the factorisation returns, every access in bounds;
    when [n > 100], [lu_decomp] never returns a factorisation. *)
Theorem lu_decomp_bounds (a : matrix) (n ntot : Z) (b : list float) :
  covers (shape a) n -> finite_matrix a -> n <= Z.of_nat (length b) ->
  (1 <= n <= NMAX ->
     lu_decomp a n ntot <> Raise IndexError
     /\ lu_decomp a n ntot = lu_decomp_with (fun imax => imax) a n ntot
     /\ forall a' indx, lu_decomp a n ntot = Ok (a', indx) ->
          exists b', lu_backsubs a' n ntot indx b = Ok b' /\ length b' = length b)
  /\ (NMAX < n -> forall r, lu_decomp a n ntot <> Ok r).
Proof.
  intros Hcov Hfin Hb. split.
  - intros [Hn1 Hn].
    pose proof (lu_decomp_with_spec (shape a) n Hcov Hn wrap8 (wrap8_exact n Hn)
                  a ntot eq_refl Hfin ltac:(lia)) as Hspec.
    fold (lu_decomp a n ntot) in Hspec.
    split; [|split].
    + intros E. rewrite E in Hspec. simpl in Hspec. destruct Hspec. discriminate.
    + apply (lu_decomp_with_cast_eq (shape a) n Hcov Hn wrap8 (wrap8_exact n Hn));
        [reflexivity | exact Hfin | lia].
    + intros a' indx E. rewrite E in Hspec. simpl in Hspec.
      destruct Hspec as (Ha' & Hlen & Hindx & _).
      apply (lu_backsubs_ok (shape a) n Hcov); assumption.
  - intros Hn r. unfold lu_decomp, lu_decomp_with, zeros.
    change (NMAX <? 0) with false. cbn iota. rewrite bind_ok.
    replace (n <? 0) with false by (symmetry; apply Z.ltb_ge; unfold NMAX in *; lia).
    cbn iota. rewrite bind_ok.
    destruct (lu_scaling a n _) as [vv|e] eqn:Hsc; [|discriminate].
    exfalso. revert Hsc. apply lu_scaling_overflow; [|exact Hn].
    rewrite length_replicate. unfold NMAX. lia.
Qed.

Lemma lu_decomp_bounds_witness :
  let a := [[Fin 2; Fin 1]; [Fin 1; Fin 3]] in
  lu_decomp a 2 2 <> Raise IndexError
  /\ lu_decomp a 2 2 = lu_decomp_with (fun imax => imax) a 2 2
  /\ forall a' indx, lu_decomp a 2 2 = Ok (a', indx) ->
       exists b', lu_backsubs a' 2 2 indx [Fin 3; Fin 5] = Ok b'
                  /\ length b' = length [Fin 3; Fin 5].
Proof.
  intros a.
  destruct (lu_decomp_bounds a 2 2 [Fin 3; Fin 5]) as [Hin _].
  - split; [simpl; lia|]. repeat constructor; simpl; lia.
  - repeat constructor; eexists; reflexivity.
  - simpl. lia.
  - apply Hin. unfold NMAX. lia.
Defined.

(** X6: [mat_sol] on an [n] by [n] block of numbers with
    [0 <= n <= NMAX] and a right-hand side of at least [n] entries:
    with a zero row in the block it raises the singular-matrix error of
    [lu_decomp]; with none it returns the factored matrix, of the same
    shape and with nonzero pivots, and a solution vector as long as the
    right-hand side. *)
Theorem mat_sol_returns (a : matrix) (nlevel n : Z) (b : list float) :
  0 <= n <= NMAX -> covers (shape a) n -> finite_matrix a ->
  n <= Z.of_nat (length b) ->
  ((exists i, 0 <= i < n /\ zero_row a n i) ->
   mat_sol a nlevel n b = Raise SingularMatrix)
  /\ ((forall i, 0 <= i < n -> ~ zero_row a n i) ->
      exists a' b', mat_sol a nlevel n b = Ok (a', b')
                    /\ shape a' = shape a /\ diag_ok a' n
                    /\ length b' = length b).
Proof.
  intros [Hn0 Hn] Hcov Hfin Hb.
  pose proof (lu_decomp_with_spec (shape a) n Hcov Hn wrap8 (wrap8_exact n Hn)
                a nlevel eq_refl Hfin Hn0) as Hspec.
  fold (lu_decomp a n nlevel) in Hspec. unfold mat_sol.
  destruct (lu_decomp a n nlevel) as [[a' indx]|e]; simpl in Hspec.
  - destruct Hspec as (Ha' & Hlen & Hindx & Hnz). split.
    + intros (i & Hi & Hz). exfalso. exact (Hnz i Hi Hz).
    + intros _. rewrite bind_ok. cbn beta iota.
      destruct (lu_backsubs_ok (shape a) n Hcov a' nlevel indx b Ha' Hlen Hindx Hb)
        as (b' & -> & Hb').
      rewrite bind_ok. destruct Ha' as (Hsh & _ & Hdiag). eauto 10.
  - destruct Hspec as [-> (i & Hi & Hz)]. split.
    + intros _. reflexivity.
    + intros Hnz. exfalso. exact (Hnz i Hi Hz).
Qed.

Lemma mat_sol_returns_witness :
  exists a' b',
    mat_sol [[Fin 2; Fin 1]; [Fin 1; Fin 3]] 2 2 [Fin 3; Fin 5] = Ok (a', b')
    /\ length b' = 2%nat.
Proof.
  destruct (mat_sol_returns [[Fin 2; Fin 1]; [Fin 1; Fin 3]] 2 2 [Fin 3; Fin 5])
    as [_ H].
  - unfold NMAX. lia.
  - split; [simpl; lia|]. repeat constructor; simpl; lia.
  - repeat constructor; eexists; reflexivity.
  - simpl. lia.
  - destruct H as (a' & b' & Hrun & _ & _ & Hlen).
    + intros i Hi Hz.
      assert (i = 0 \/ i = 1) as [-> | ->] by lia.
      * destruct (Hz 0 ltac:(lia)) as (q & Hq & Hq0).
        injection Hq as <-. discriminate Hq0.
      * destruct (Hz 0 ltac:(lia)) as (q & Hq & Hq0).
        injection Hq as <-. discriminate Hq0.
    + exists a', b'. split; [exact Hrun | exact Hlen].
Defined.

(** ** NewtonSolver: the damper *)

Lemma getitem_raises {A} (l : list A) (i : Z) (e : exn) :
  getitem l i = Raise e -> e = IndexError.
Proof.
  unfold getitem. destruct (norm_index (length l) i) as [k|]; [|congruence].
  destruct (l !! k); congruence.
Qed.

Lemma setitem_raises {A} (l : list A) (i : Z) (x : A) (e : exn) :
  setitem l i x = Raise e -> e = IndexError.
Proof. unfold setitem. destruct (norm_index (length l) i); congruence. Qed.

Lemma set_temp_sat (prof : profile) (j : Z) (v : float) :
  res_sat (fun prof' => pressure prof' = pressure prof
                        /\ length (temp prof') = length (temp prof))
          (fun e => e = IndexError) (set_temp prof j v).
Proof.
  unfold set_temp. destruct (setitem (temp prof) j v) as [t|e] eqn:E; simpl.
  - split; [reflexivity | exact (setitem_length _ _ _ _ E)].
  - exact (setitem_raises _ _ _ _ E).
Qed.

(** C3 (code defect): on a profile of [nlevel] levels, the clamping pass
    always ends in an IndexError, because its loop runs up to the index
    [nlevel] itself, one past the last level. *)
Theorem damper_index_error (n_top_r nlevel : Z) (tmin tmax : float) (prof : profile) :
  Z.of_nat (length (temp prof)) = nlevel -> n_top_r < nlevel ->
  damper n_top_r nlevel tmin tmax prof = Raise IndexError.
Proof.
  intros Hlen Hlt.
  assert (res_sat (fun prof' => Z.of_nat (length (temp prof')) = nlevel
                                /\ nlevel + 1 <= nlevel)
            (fun e => e = IndexError) (damper n_top_r nlevel tmin tmax prof)) as Hsat.
  { unfold damper.
    apply (for_range_sat (fun j prof' => Z.of_nat (length (temp prof')) = nlevel
                                         /\ j <= nlevel));
      [lia | split; [exact Hlen | lia] |].
    intros j prof' Hj [Hlen' Hj']. unfold damper_level.
    destruct (getitem (temp prof') j) as [t|e] eqn:Eg;
      [|simpl; exact (getitem_raises _ _ _ Eg)].
    assert (j < nlevel) as Hjn.
    { destruct (Z_lt_le_dec j nlevel) as [H|H]; [exact H|].
      rewrite getitem_past in Eg by lia. discriminate. }
    rewrite bind_ok.
    assert (forall v, res_sat
              (fun prof'' => Z.of_nat (length (temp prof'')) = nlevel /\ j + 1 <= nlevel)
              (fun e => e = IndexError) (set_temp prof' j v)) as Hset.
    { intros v. eapply res_sat_weaken; [apply set_temp_sat | | auto].
      intros prof'' [_ Hl]. split; [rewrite Hl; exact Hlen' | lia]. }
    destruct (flt t tmin); cbn iota; [apply Hset|].
    rewrite bind_ok.
    destruct (fgt t tmax); cbn iota; [apply Hset|].
    simpl. split; [exact Hlen' | lia]. }
  destruct (damper n_top_r nlevel tmin tmax prof) as [prof'|e]; simpl in Hsat.
  - lia.
  - destruct Hsat. reflexivity.
Qed.

Lemma damper_index_error_witness :
  damper (-1) 2 (Fin 100) (Fin 1000) (Profile [Fin 1; Fin 2] [Fin 50; Fin 2000])
  = Raise IndexError.
Proof. apply damper_index_error; simpl; lia. Defined.

(** The same in a run of [t_start]: on a profile of [nlevel] levels that
    is not already at a root, the first line search ends in the
    IndexError of the damper. *)
Lemma t_start_damper_raises :
  t_start same same same same same no_moist_grad linear_flux two_level_tables 10
    (Profile [Fin 1; Fin 2] [Fin 120; Fin 120])
  = Raise IndexError.
Proof. vm_compute. reflexivity. Qed.

(** What the passes before the failing one do: each level in range is
    replaced by its clamp. *)
Lemma damper_level_ok (tmin tmax : float) (j : Z) (prof : profile) (t : float) :
  0 <= j -> temp prof !! Z.to_nat j = Some t ->
  damper_level tmin tmax j prof
  = Ok (Profile (pressure prof) (<[Z.to_nat j := clamp tmin tmax t]> (temp prof))).
Proof.
  intros Hj Ht. pose proof (lookup_lt_Some _ _ _ Ht) as Hlen.
  unfold damper_level, clamp, set_temp.
  rewrite (getitem_nonneg _ _ _ Hj Ht), bind_ok.
  destruct (flt t tmin).
  - rewrite setitem_nonneg by lia. reflexivity.
  - rewrite bind_ok. destruct (fgt t tmax).
    + rewrite setitem_nonneg by lia. reflexivity.
    + rewrite list_insert_id by exact Ht. destruct prof; reflexivity.
Qed.

Lemma clamp_levels_empty (tmin tmax : float) (lo hi : Z) (l : list float) :
  hi <= lo -> clamp_levels tmin tmax lo hi l = l.
Proof.
  intros H. apply list_eq. intros k. unfold clamp_levels.
  rewrite list_lookup_imap. destruct (l !! k) as [t|]; [|reflexivity]. simpl.
  destruct (decide (lo <= Z.of_nat k < hi)); [lia | reflexivity].
Qed.

Lemma clamp_levels_step (tmin tmax : float) (lo hi : Z) (l : list float) (t : float) :
  0 <= lo < hi -> l !! Z.to_nat lo = Some t ->
  clamp_levels tmin tmax (lo + 1) hi (<[Z.to_nat lo := clamp tmin tmax t]> l)
  = clamp_levels tmin tmax lo hi l.
Proof.
  intros Hlo Ht. pose proof (lookup_lt_Some _ _ _ Ht) as Hlen.
  apply list_eq. intros k. unfold clamp_levels. rewrite !list_lookup_imap.
  destruct (decide (k = Z.to_nat lo)) as [->|Hne].
  - rewrite list_lookup_insert_eq by exact Hlen. rewrite Ht. simpl.
    destruct (decide (lo + 1 <= Z.of_nat (Z.to_nat lo) < hi)); [lia|].
    destruct (decide (lo <= Z.of_nat (Z.to_nat lo) < hi)); [reflexivity | lia].
  - rewrite list_lookup_insert_ne by congruence.
    destruct (l !! k) as [x|]; [|reflexivity]. simpl.
    destruct (decide (lo + 1 <= Z.of_nat k < hi)),
             (decide (lo <= Z.of_nat k < hi)); try reflexivity; lia.
Qed.

Lemma damper_levels_ok (tmin tmax : float) (n : nat) (lo : Z) (prof : profile) :
  0 <= lo -> lo + Z.of_nat n <= Z.of_nat (length (temp prof)) ->
  for_loop n lo 1 (damper_level tmin tmax) prof
  = Ok (Profile (pressure prof)
          (clamp_levels tmin tmax lo (lo + Z.of_nat n) (temp prof))).
Proof.
  revert lo prof. induction n as [|n IH]; intros lo prof Hlo Hlen.
  - simpl. rewrite clamp_levels_empty by lia. destruct prof; reflexivity.
  - destruct (lookup_lt_is_Some_2 (temp prof) (Z.to_nat lo)) as [t Ht]; [lia|].
    cbn [for_loop]. rewrite (damper_level_ok _ _ _ _ t Hlo Ht), bind_ok.
    rewrite IH by (cbn [temp]; rewrite ?length_insert; lia).
    cbn [pressure temp]. do 2 f_equal.
    replace (lo + 1 + Z.of_nat n) with (lo + Z.of_nat (S n)) by lia.
    apply clamp_levels_step; [lia | exact Ht].
Qed.

Lemma bind_ret {A} (m : res A) : m ≫= Ok = m.
Proof. destruct m; reflexivity. Qed.

Lemma bind_assoc {A B C} (m : res A) (k : A -> res B) (h : B -> res C) :
  (m ≫= k) ≫= h = m ≫= (fun a => k a ≫= h).
Proof. destruct m; reflexivity. Qed.

(** The last pass of a loop, taken apart from the ones before it. *)
Lemma for_loop_last {St} (n : nat) (i step : Z) (body : Z -> St -> res St) (s : St) :
  for_loop (S n) i step body s
  = for_loop n i step body s ≫= body (i + Z.of_nat n * step).
Proof.
  revert i s. induction n as [|n IH]; intros i s.
  - cbn [for_loop]. rewrite bind_ok.
    replace (i + Z.of_nat 0 * step) with i by lia. apply bind_ret.
  - change (for_loop (S (S n)) i step body s)
      with (body i s ≫= for_loop (S n) (i + step) step body).
    change (for_loop (S n) i step body s)
      with (body i s ≫= for_loop n (i + step) step body).
    rewrite bind_assoc.
    destruct (body i s) as [s'|e]; [|reflexivity]. rewrite !bind_ok.
    rewrite (IH (i + step) s').
    replace (i + step + Z.of_nat n * step) with (i + Z.of_nat (S n) * step) by lia.
    reflexivity.
Qed.

(** X3: the clamping pass on a profile of [nlevel] levels, taken apart: the
    passes over the levels [n_top_r + 1], ..., [nlevel - 1] return, and
    leave each of these levels at exactly [tmin + 0.1] if it was below
    [tmin], at exactly [tmax - 0.1] if it was above [tmax], and as it was
    otherwise, the levels above them and the pressure untouched; the
    pass that follows is the one at index [nlevel]. *)
Theorem damper_clamps_levels (n_top_r nlevel : Z) (tmin tmax : float) (prof : profile) :
  Z.of_nat (length (temp prof)) = nlevel -> 0 <= n_top_r + 1 <= nlevel ->
  let clamped :=
    Profile (pressure prof) (clamp_levels tmin tmax (n_top_r + 1) nlevel (temp prof)) in
  for_range (n_top_r + 1) nlevel (damper_level tmin tmax) prof = Ok clamped
  /\ damper n_top_r nlevel tmin tmax prof = damper_level tmin tmax nlevel clamped.
Proof.
  intros Hlen Hn clamped.
  assert (for_range (n_top_r + 1) nlevel (damper_level tmin tmax) prof = Ok clamped)
    as Hpre.
  { unfold for_range. rewrite damper_levels_ok by lia.
    unfold clamped. do 3 f_equal. lia. }
  split; [exact Hpre|].
  unfold damper, for_range.
  replace (Z.to_nat (nlevel + 1 - (n_top_r + 1)))
    with (S (Z.to_nat (nlevel - (n_top_r + 1)))) by lia.
  rewrite for_loop_last. unfold for_range in Hpre. rewrite Hpre, bind_ok.
  f_equal. lia.
Qed.

Lemma damper_clamps_levels_witness :
  for_range 0 2 (damper_level (Fin 100) (Fin 1000))
    (Profile [Fin 1; Fin 2] [Fin 50; Fin 2000])
  = Ok (Profile [Fin 1; Fin 2] [Fin (100 + (1 # 10)); Fin (1000 - (1 # 10))]).
Proof.
  destruct (damper_clamps_levels (-1) 2 (Fin 100) (Fin 1000)
              (Profile [Fin 1; Fin 2] [Fin 50; Fin 2000])) as [H _];
    [reflexivity | lia |].
  exact H.
Defined.

(** With finite bounds a clamped value is a number or was left as it
    was. *)
Lemma clamp_finite_or_kept (tmin tmax t : float) :
  finite tmin -> finite tmax ->
  finite (clamp tmin tmax t) \/ kept tmin tmax (clamp tmin tmax t).
Proof.
  intros [a ->] [b ->]. unfold clamp, kept.
  destruct (flt t (Fin a)) eqn:Elo; [left; eexists; reflexivity|].
  destruct (fgt t (Fin b)) eqn:Ehi; [left; eexists; reflexivity|].
  right. split; assumption.
Qed.

(** ** NewtonSolver: the pressure array is left alone *)

Lemma res_sat_bind_any {A B} (Q : B -> Prop) (m : res A) (k : A -> res B) :
  (forall a, res_sat Q (fun _ => True) (k a)) ->
  res_sat Q (fun _ => True) (m ≫= k).
Proof. intros Hk. destruct m as [a|e]; simpl; [apply Hk | exact I]. Qed.

Lemma for_loop_inv {St} (Inv : St -> Prop) (E : exn -> Prop)
    (n : nat) (i step : Z) (body : Z -> St -> res St) (s : St) :
  Inv s -> (forall k s, Inv s -> res_sat Inv E (body k s)) ->
  res_sat Inv E (for_loop n i step body s).
Proof.
  revert i s. induction n as [|n IH]; intros i s Hs Hbody; simpl; [exact Hs|].
  eapply res_sat_bind; [apply Hbody, Hs|]. intros s' Hs'. apply IH; assumption.
Qed.

Ltac frame_skip := apply res_sat_bind_any; intros ?.

Lemma set_temp_frame (P : list float) (prof : profile) (j : Z) (v : float) :
  pressure prof = P ->
  res_sat (fun prof' => pressure prof' = P) (fun _ => True) (set_temp prof j v).
Proof.
  intros HP. eapply res_sat_weaken; [apply set_temp_sat | | auto].
  intros prof' [H _]. congruence.
Qed.

Lemma damper_frame (P : list float) (n_top_r nlevel : Z) (tmin tmax : float)
    (prof : profile) :
  pressure prof = P ->
  res_sat (fun prof' => pressure prof' = P) (fun _ => True)
          (damper n_top_r nlevel tmin tmax prof).
Proof.
  intros HP. unfold damper, for_range. apply for_loop_inv; [exact HP|].
  intros j prof' HP'. unfold damper_level. frame_skip.
  destruct (flt _ _); [apply set_temp_frame, HP'|]. frame_skip.
  destruct (fgt _ _); [apply set_temp_frame, HP' | exact HP'].
Qed.

Lemma nan_guard_frame (flag : Z) (temp_old : list float) (prof : profile) :
  pressure (nan_guard flag temp_old prof).2 = pressure prof.
Proof. unfold nan_guard. destruct (isnan _); reflexivity. Qed.

Section Frame.

Variable fsqrt fexp flog : float -> float.
Variable log10 pow10 : float -> float.
Variable moist_grad : float -> float -> res (float * float).
Variable climate : profile -> bool -> bool -> bool -> res fluxes.
Variable inp : inputs.
Variable Pr : list float.

Local Abbreviation pres := (fun prof' : profile => pressure prof' = Pr).
Local Abbreviation any := (fun _ : exn => True).

Lemma adiabat_store_frame (grad_x : float) (j1 : Z) (prof : profile) :
  pressure prof = Pr -> res_sat pres any (adiabat_store fexp flog grad_x j1 prof).
Proof.
  intros HP. unfold adiabat_store. do 3 frame_skip. apply set_temp_frame, HP.
Qed.

Lemma rebuild_frame (beta : list float) (prof : profile) :
  pressure prof = Pr ->
  res_sat pres any (rebuild fsqrt fexp flog log10 pow10 moist_grad inp beta prof).
Proof.
  intros HP. unfold rebuild, for_range3. apply for_loop_inv; [exact HP|].
  intros nb prof1 HP1. do 3 frame_skip.
  apply res_sat_bind with (P := pres).
  - unfold for_range. apply for_loop_inv; [exact HP1|].
    intros j1 prof2 HP2. frame_skip. apply set_temp_frame, HP2.
  - intros prof2 HP2. unfold for_range. apply for_loop_inv; [exact HP2|].
    intros j1 prof3 HP3. do 3 frame_skip. apply res_sat_bind_any; intros [grad_x cp_x].
    apply adiabat_store_frame, HP3.
Qed.

Lemma trial_step_frame (n_top_r : Z) (alam : float) (beta p : list float)
    (prof : profile) :
  pressure prof = Pr ->
  res_sat pres any
    (trial_step fsqrt fexp flog log10 pow10 moist_grad inp n_top_r alam beta p prof).
Proof.
  intros HP. unfold trial_step. destruct (guard_offset n_top_r) as [ndo flag_ndo].
  apply res_sat_bind with (P := fun '((prof', _, _) : profile * Z * Z) => pressure prof' = Pr).
  - unfold for_range3. apply for_loop_inv; [exact HP|].
    intros nd [[prof1 ndo1] flag1] HP1. do 3 frame_skip.
    apply res_sat_bind with (P := pres).
    + unfold for_range. apply for_loop_inv; [exact HP1|].
      intros j prof2 HP2. do 2 frame_skip. apply set_temp_frame, HP2.
    + intros prof2 HP2. apply res_sat_bind with (P := pres).
      * unfold for_range. apply for_loop_inv; [exact HP2|].
        intros j1 prof3 HP3. do 3 frame_skip. apply res_sat_bind_any; intros [grad_x cp_x].
        apply adiabat_store_frame, HP3.
      * intros prof3 HP3. cbn beta. destruct (next_offset _ _ _ _ _). exact HP3.
  - intros [[prof1 ndo1] flag1] HP1. exact HP1.
Qed.

Lemma jacobian_frame (n_top_r : Z) (temp_old fo fmo : list float)
    (prof : profile) (beta : list float) (fl : fluxes) (A : matrix) :
  pressure prof = Pr ->
  res_sat (fun '((prof', _, _, _) : profile * list float * fluxes * matrix) =>
             pressure prof' = Pr) any
    (jacobian fsqrt fexp flog log10 pow10 moist_grad climate inp
       n_top_r temp_old fo fmo prof beta fl A).
Proof.
  intros HP. unfold jacobian. destruct (guard_offset n_top_r) as [no flag_no].
  apply res_sat_bind with
    (P := fun '((prof', _, _, _, _, _) :
                 profile * list float * fluxes * matrix * Z * Z) => pressure prof' = Pr).
  - unfold for_range3. apply for_loop_inv; [exact HP|].
    intros nz [[[[[prof1 beta1] fl1] A1] no1] flag1] HP1. do 3 frame_skip.
    apply res_sat_bind with
      (P := fun '((prof', _, _, _) : profile * list float * fluxes * matrix) =>
              pressure prof' = Pr).
    + unfold for_range. apply for_loop_inv; [exact HP1|].
      intros jm [[[prof2 beta2] fl2] A2] HP2. do 3 frame_skip.
      apply res_sat_bind with (P := pres); [apply rebuild_frame, HP2|].
      intros prof3 HP3. do 4 frame_skip. exact HP3.
    + intros [[[prof2 beta2] fl2] A2] HP2. cbn beta iota.
      destruct (next_offset _ _ _ _ _). exact HP2.
  - intros [[[[[prof1 beta1] fl1] A1] no1] flag1] HP1. exact HP1.
Qed.

Lemma ls_trial_frame (n_top_r n_total : Z) (beta p : list float) (st : ls_state) :
  pressure (ls_prof st) = Pr ->
  res_sat (fun r => pressure (snd r) = Pr) any
    (ls_trial fsqrt fexp flog log10 pow10 moist_grad inp n_top_r n_total beta p st).
Proof.
  intros HP. unfold ls_trial. frame_skip.
  apply res_sat_bind with (P := pres); [apply trial_step_frame, HP|].
  intros prof1 HP1.
  apply res_sat_bind with (P := pres); [apply damper_frame, HP1|].
  intros prof2 HP2. exact HP2.
Qed.

Lemma ls_accept_frame (n_top_r n_total : Z) (dflux temp_old g : list float)
    (f_old slope alamin : float) (st : ls_state) (jmx : option Z) (prof : profile) :
  pressure prof = Pr ->
  res_sat (fun st' => pressure (ls_prof st') = Pr) any
    (ls_accept fsqrt climate inp n_top_r n_total dflux temp_old g
       f_old slope alamin st jmx prof).
Proof.
  intros HP. unfold ls_accept. do 3 frame_skip.
  apply res_sat_bind_any; intros [f_vec sum].
  apply res_sat_bind_any; intros [[flag check] tmplam].
  apply res_sat_bind_any; intros [[alam alam2] f2].
  pose proof (nan_guard_frame flag temp_old prof) as Hg.
  destruct (nan_guard flag temp_old prof) as [flag' prof']. simpl in *. congruence.
Qed.

Lemma line_search_frame (fuel : nat) (n_top_r n_total : Z)
    (beta p dflux temp_old g : list float) (f_old slope alamin : float)
    (st : ls_state) :
  pressure (ls_prof st) = Pr ->
  res_sat (fun st' => pressure (ls_prof st') = Pr) any
    (line_search fsqrt fexp flog log10 pow10 moist_grad climate inp fuel
       n_top_r n_total beta p dflux temp_old g f_old slope alamin st).
Proof.
  revert st. induction fuel as [|fuel IH]; intros st HP; simpl; [exact I|].
  apply res_sat_bind with (P := fun st' => pressure (ls_prof st') = Pr).
  - unfold ls_body. apply res_sat_bind with (P := fun r => pressure (snd r) = Pr).
    + apply ls_trial_frame, HP.
    + intros [jmx prof1] HP1. apply ls_accept_frame, HP1.
  - intros st' HP'. destruct (ls_flag st' =? 0); [apply IH, HP' | exact HP'].
Qed.

Lemma converged_frame (prof : profile) (fl : fluxes) (all_profiles : list float) :
  pressure prof = Pr ->
  res_sat (fun o => pressure (out_profile o) = Pr) any
    (converged flog inp prof fl all_profiles).
Proof. intros HP. unfold converged. do 2 frame_skip. exact HP. Qed.

Lemma iteration_frame (fuel : nat) (n_top_r : Z) (s : solver_state) :
  pressure (s_prof s) = Pr ->
  res_sat (fun r => match r with
                    | Return o => pressure (out_profile o) = Pr
                    | Continue s' => pressure (s_prof s') = Pr
                    end) any
    (iteration fsqrt fexp flog log10 pow10 moist_grad climate inp fuel n_top_r s).
Proof.
  intros HP. unfold iteration. do 2 frame_skip.
  apply res_sat_bind_any; intros [[[[[dflux f_vec] sum] sum_1] test] n_total].
  do 2 frame_skip. destruct (flt _ _).
  - apply res_sat_bind with (P := fun o => pressure (out_profile o) = Pr);
      [apply converged_frame, HP | intros o Ho; exact Ho].
  - apply res_sat_bind with
      (P := fun '((prof', _, _, _) : profile * list float * fluxes * matrix) =>
              pressure prof' = Pr); [apply jacobian_frame, HP|].
    intros [[[prof1 beta1] fl1] A1] HP1.
    apply res_sat_bind_any; intros [g p].
    apply res_sat_bind_any; intros [A2 p2]. frame_skip.
    apply res_sat_bind_any; intros [p3 dflux3]. do 3 frame_skip.
    apply res_sat_bind with (P := fun st' => pressure (ls_prof st') = Pr);
      [apply line_search_frame, HP1|].
    intros ls Hls. unfold finish. frame_skip.
    destruct (ls_flag ls =? 2); [do 2 frame_skip|]; exact Hls.
Qed.

Lemma outer_loop_frame (its fuel : nat) (n_top_r : Z) (s : solver_state) :
  pressure (s_prof s) = Pr ->
  res_sat (fun o => pressure (out_profile o) = Pr) any
    (outer_loop fsqrt fexp flog log10 pow10 moist_grad climate inp its fuel n_top_r s).
Proof.
  revert s. induction its as [|its IH]; intros s HP; simpl.
  - unfold exhausted. do 3 frame_skip. exact HP.
  - eapply res_sat_bind; [apply iteration_frame, HP|].
    intros [o|s'] Hr; [exact Hr | apply IH, Hr].
Qed.

End Frame.

(** C9: whatever [t_start] returns, after any number of outer iterations
    and on any exit path, the pressure array that comes back is the one
    that went in; only [temp] is written. *)
Theorem t_start_pressure_unchanged (fsqrt fexp flog log10 pow10 : float -> float)
    (moist_grad : float -> float -> res (float * float))
    (climate : profile -> bool -> bool -> bool -> res fluxes)
    (inp : inputs) (fuel : nat) (prof : profile) (o : output) :
  t_start fsqrt fexp flog log10 pow10 moist_grad climate inp fuel prof = Ok o ->
  pressure (out_profile o) = pressure prof.
Proof.
  intros Hrun.
  assert (res_sat (fun o => pressure (out_profile o) = pressure prof) (fun _ => True)
            (t_start fsqrt fexp flog log10 pow10 moist_grad climate inp fuel prof))
    as Hsat.
  { unfold t_start. do 10 frame_skip. apply outer_loop_frame. reflexivity. }
  rewrite Hrun in Hsat. exact Hsat.
Qed.

(** A run through a Newton step and its line search, from 120 to the
    balance at 100; the arrays hold one entry more than [nlevel], so
    that the last pass of the damper reads inside them. *)
Lemma t_start_pressure_unchanged_witness :
  exists o : output,
    t_start same same same same same no_moist_grad linear_flux two_level_tables 10
      (Profile [Fin 1; Fin 2; Fin 3] [Fin 120; Fin 120; Fin 120]) = Ok o
    /\ pressure (out_profile o) = [Fin 1; Fin 2; Fin 3].
Proof.
  assert (exists o : output,
            t_start same same same same same no_moist_grad linear_flux
              two_level_tables 10
              (Profile [Fin 1; Fin 2; Fin 3] [Fin 120; Fin 120; Fin 120]) = Ok o)
    as [o Ho].
  { eexists. vm_compute. reflexivity. }
  exists o. split; [exact Ho|].
  exact (t_start_pressure_unchanged _ _ _ _ _ _ _ _ _ _ _ Ho).
Defined.

(** ** NewtonSolver: the status that comes back *)

Lemma check_convergence_sat (f_vec dflux temp temp_old g : list float)
    (n_total : Z) (tolf tolmin tolx f : float) (check : bool) :
  res_sat (fun r => r.1 = 1 \/ r.1 = 2) (fun _ => True)
    (check_convergence f_vec n_total tolf check f dflux tolmin temp temp_old g tolx).
Proof.
  unfold check_convergence. frame_skip.
  destruct (flt _ tolf); [right; reflexivity|].
  destruct check; frame_skip; [right; reflexivity|].
  destruct (flt _ tolx); [right | left]; reflexivity.
Qed.

Lemma nan_guard_flag (flag : Z) (temp_old : list float) (prof : profile) :
  (nan_guard flag temp_old prof).1 = 1 \/ (nan_guard flag temp_old prof).1 = flag.
Proof. unfold nan_guard. destruct (isnan _); [left | right]; reflexivity. Qed.

Section Status.

Variable fsqrt fexp flog : float -> float.
Variable log10 pow10 : float -> float.
Variable moist_grad : float -> float -> res (float * float).
Variable climate : profile -> bool -> bool -> bool -> res fluxes.
Variable inp : inputs.

Local Abbreviation any := (fun _ : exn => True).
Local Abbreviation flag012 := (fun z : Z => z = 0 \/ z = 1 \/ z = 2).

Lemma ls_accept_flag (n_top_r n_total : Z) (dflux temp_old g : list float)
    (f_old slope alamin : float) (st : ls_state) (jmx : option Z) (prof : profile) :
  flag012 (ls_flag st) ->
  res_sat (fun st' => flag012 (ls_flag st')) any
    (ls_accept fsqrt climate inp n_top_r n_total dflux temp_old g
       f_old slope alamin st jmx prof).
Proof.
  intros Hst. unfold ls_accept. do 3 frame_skip.
  apply res_sat_bind_any; intros [f_vec sum].
  apply res_sat_bind with
    (P := fun '((flag, _, _) : Z * bool * option float) => flag012 flag).
  - destruct (flt _ alamin); [|destruct (fle _ _)].
    + eapply res_sat_bind; [apply check_convergence_sat|].
      intros [flag check] Hflag. right. exact Hflag.
    + eapply res_sat_bind; [apply check_convergence_sat|].
      intros [flag check] Hflag. right. exact Hflag.
    + frame_skip. exact Hst.
  - intros [[flag check] tmplam] Hflag.
    apply res_sat_bind_any; intros [[alam alam2] f2].
    pose proof (nan_guard_flag flag temp_old prof) as Hg.
    destruct (nan_guard flag temp_old prof) as [flag' prof']. simpl in Hg |- *.
    destruct Hg as [->| ->]; [right; left; reflexivity | exact Hflag].
Qed.

Lemma line_search_flag (fuel : nat) (n_top_r n_total : Z)
    (beta p dflux temp_old g : list float) (f_old slope alamin : float)
    (st : ls_state) :
  flag012 (ls_flag st) ->
  res_sat (fun st' => ls_flag st' = 1 \/ ls_flag st' = 2) any
    (line_search fsqrt fexp flog log10 pow10 moist_grad climate inp fuel
       n_top_r n_total beta p dflux temp_old g f_old slope alamin st).
Proof.
  revert st. induction fuel as [|fuel IH]; intros st Hst; simpl; [exact I|].
  apply res_sat_bind with (P := fun st' => flag012 (ls_flag st')).
  - unfold ls_body. apply res_sat_bind_any; intros [jmx prof1].
    apply ls_accept_flag, Hst.
  - intros st' Hst'. destruct (ls_flag st' =? 0) eqn:E; [apply IH, Hst'|].
    apply Z.eqb_neq in E. destruct Hst' as [H0|H12]; [contradiction | exact H12].
Qed.

Lemma iteration_flag (fuel : nat) (n_top_r : Z) (s : solver_state) :
  res_sat (fun r => match r with
                    | Return o => out_flag o = 2
                    | Continue s' => s_flag s' = Some 1
                    end) any
    (iteration fsqrt fexp flog log10 pow10 moist_grad climate inp fuel n_top_r s).
Proof.
  unfold iteration. do 2 frame_skip.
  apply res_sat_bind_any; intros [[[[[dflux f_vec] sum] sum_1] test] n_total].
  do 2 frame_skip. destruct (flt _ _).
  - apply res_sat_bind with (P := fun o => out_flag o = 2); [|intros o Ho; exact Ho].
    unfold converged. do 2 frame_skip. reflexivity.
  - apply res_sat_bind_any; intros [[[prof1 beta1] fl1] A1].
    apply res_sat_bind_any; intros [g p].
    apply res_sat_bind_any; intros [A2 p2]. frame_skip.
    apply res_sat_bind_any; intros [p3 dflux3]. do 3 frame_skip.
    apply res_sat_bind with (P := fun st' => ls_flag st' = 1 \/ ls_flag st' = 2).
    { apply line_search_flag. left. reflexivity. }
    intros ls Hls. unfold finish. frame_skip.
    destruct (ls_flag ls =? 2) eqn:E.
    + do 2 frame_skip. apply Z.eqb_eq in E. exact E.
    + apply Z.eqb_neq in E. simpl. f_equal.
      destruct Hls as [H1|H2]; [exact H1 | contradiction].
Qed.

Lemma outer_loop_flag (its fuel : nat) (n_top_r : Z) (s : solver_state) :
  s_flag s = None \/ s_flag s = Some 1 ->
  res_sat (fun o => out_flag o = 1 \/ out_flag o = 2) any
    (outer_loop fsqrt fexp flog log10 pow10 moist_grad climate inp its fuel n_top_r s).
Proof.
  revert s. induction its as [|its IH]; intros s Hs; simpl.
  - unfold exhausted. frame_skip.
    destruct Hs as [-> | ->]; [exact I|]. cbn [bound]. rewrite bind_ok. frame_skip.
    left. reflexivity.
  - eapply res_sat_bind; [apply iteration_flag|].
    intros [o|s'] Hr; [right; exact Hr | apply IH; right; exact Hr].
Qed.

Lemma exhausted_unbound (s : solver_state) (o : output) :
  s_flag s = None -> exhausted flog inp s <> Ok o.
Proof.
  intros Hs. unfold exhausted. rewrite Hs.
  destruct (lapse_rate flog inp (s_prof s)); discriminate.
Qed.

End Status.

(** X4: whenever [t_start] returns, its status is 2 (converged, from the
    already-at-a-root check or after a line search) or 1 (the [it_max]
    iterations are used up); and it only returns when [it_max] is at
    least 1, [flag_converge] having no value before the first
    iteration. *)
Theorem t_start_flag (fsqrt fexp flog log10 pow10 : float -> float)
    (moist_grad : float -> float -> res (float * float))
    (climate : profile -> bool -> bool -> bool -> res fluxes)
    (inp : inputs) (fuel : nat) (prof : profile) (o : output) :
  t_start fsqrt fexp flog log10 pow10 moist_grad climate inp fuel prof = Ok o ->
  (out_flag o = 1 \/ out_flag o = 2) /\ 1 <= it_max inp.
Proof.
  intros Hrun. split.
  - assert (res_sat (fun o => out_flag o = 1 \/ out_flag o = 2) (fun _ => True)
              (t_start fsqrt fexp flog log10 pow10 moist_grad climate inp fuel prof))
      as Hsat.
    { unfold t_start. do 10 frame_skip. apply outer_loop_flag. left. reflexivity. }
    rewrite Hrun in Hsat. exact Hsat.
  - destruct (Z_le_gt_dec 1 (it_max inp)) as [H|H]; [exact H|]. exfalso.
    unfold t_start in Hrun.
    repeat (apply bind_Ok in Hrun as (? & _ & Hrun)).
    replace (Z.to_nat (it_max inp)) with 0%nat in Hrun by lia.
    revert Hrun. apply exhausted_unbound. reflexivity.
Qed.

Lemma t_start_flag_witness :
  exists o : output,
    t_start same same same same same no_moist_grad
      (constant_flux [Fin (-3); Fin (-3)]) (two_level [Fin 3; Fin 3]) 10
      two_level_profile = Ok o
    /\ (out_flag o = 1 \/ out_flag o = 2).
Proof.
  assert (exists o : output,
            t_start same same same same same no_moist_grad
              (constant_flux [Fin (-3); Fin (-3)]) (two_level [Fin 3; Fin 3]) 10
              two_level_profile = Ok o) as [o Ho].
  { eexists. vm_compute. reflexivity. }
  exists o. split; [exact Ho|].
  exact (proj1 (t_start_flag _ _ _ _ _ _ _ _ _ _ _ Ho)).
Defined.

(** ** NewtonSolver: the guard against NaN *)

Lemma foldl_fadd_nan (a : list float) : foldl fadd NaN a = NaN.
Proof. induction a as [|x a IH]; simpl; [reflexivity | exact IH]. Qed.

Lemma np_sum_nan (a : list float) : has_nan a -> np_sum a = NaN.
Proof.
  unfold np_sum. generalize (Fin 0). intros acc [j Hj]. revert acc j Hj.
  induction a as [|x a IH]; intros acc j Hj; [discriminate|].
  destruct j as [|j]; simpl in *.
  - injection Hj as ->. destruct acc; apply foldl_fadd_nan.
  - eapply IH, Hj.
Qed.

Lemma nan_guard_nan (flag : Z) (temp_old : list float) (prof : profile) :
  has_nan (temp prof) ->
  nan_guard flag temp_old prof
  = (1, Profile (pressure prof) ((fun x => fadd x (Fin (1 # 2))) <$> temp_old)).
Proof. intros H. unfold nan_guard. rewrite (np_sum_nan _ H). reflexivity. Qed.

(** With finite bounds, what the damper leaves in place and is not a
    number is NaN: an infinity fails one of the two tests. *)
Lemma kept_not_finite (tmin tmax t : float) :
  finite tmin -> finite tmax -> kept tmin tmax t -> ~ finite t -> t = NaN.
Proof.
  intros [a ->] [b ->] [Hlo Hhi] Ht. destruct t as [q|[|]|].
  - exfalso. apply Ht. eexists; reflexivity.
  - discriminate Hlo.
  - discriminate Hhi.
  - reflexivity.
Qed.

(** An infinity alone does not make the sum NaN: the guard looks at
    [isnan(sum(temp))] and lets it through. *)
Lemma nan_guard_keeps_infinity (flag : Z) (temp_old : list float) (p : list float) :
  nan_guard flag temp_old (Profile p [Inf false; Fin 200])
  = (flag, Profile p [Inf false; Fin 200]).
Proof. reflexivity. Qed.

Tactic Notation "inv_bind" hyp(H) "as" simple_intropattern(pat) :=
  let Hx := fresh "Hx" in
  apply bind_Ok in H as (pat & Hx & H).


(** The trial step stores into [temp] and never changes its length. *)
Section Lengths.

Variable fsqrt fexp flog : float -> float.
Variable log10 pow10 : float -> float.
Variable moist_grad : float -> float -> res (float * float).
Variable inp : inputs.
Variable L : nat.

Local Abbreviation len := (fun prof' : profile => length (temp prof') = L).
Local Abbreviation any := (fun _ : exn => True).




End Lengths.





(** ** NewtonSolver: already at a root *)

Lemma fgt_fabs_zero (z : Q) (test : float) :
  (z == 0)%Q -> test = Fin 0 -> fgt (fabs (Fin z)) test = false.
Proof.
  intros Hz ->. cbn. apply not_true_is_false. intros H.
  apply Qlt_bool_iff in H. apply Qabs_zero_iff in Hz. lra.
Qed.

Lemma assemble_residual_zero (nstr : list Z) (s b : Z) (z0 z1 m0 m1 : Q)
    (t0 t1 : float) :
  nstr !! 0%nat = Some 0 -> nstr !! 1%nat = Some s -> nstr !! 2%nat = Some b ->
  s = 0 \/ s = 1 -> (z0 == 0)%Q -> (m0 == 0)%Q ->
  exists dflux f_vec sum sum_1 n_total,
    assemble_residual 1 nstr (-1)
      [Fin z0; Fin z1] [Fin m0; Fin m1] [t0; t1] [Fin 0; Fin 0] [Fin 0; Fin 0]
    = Ok (dflux, f_vec, sum, sum_1, Fin 0, n_total).
Proof.
  intros H0 H1 H2 Hs Hz0 Hm0.
  pose proof (fgt_fabs_zero z0 (Fin 0) Hz0 eq_refl) as E0.
  pose proof (fgt_fabs_zero m0 (Fin 0) Hm0 eq_refl) as E1.
  unfold assemble_residual, guard_offset, for_range3.
  change (Z.to_nat 1) with 1%nat. cbn [for_loop Z.ltb Z.compare].
  rewrite (getitem_nonneg nstr 0 0) by first [lia | exact H0]. rewrite bind_ok.
  rewrite (getitem_nonneg nstr (0 + 1) s) by first [lia | exact H1]. rewrite bind_ok.
  rewrite (getitem_nonneg nstr (0 + 2) b) by first [lia | exact H2]. rewrite bind_ok.
  destruct Hs as [-> | ->]; cbv -[fgt fabs fadd fmul]; rewrite E0;
    cbv -[fgt fabs fadd fmul]; rewrite ?E1; eauto 10.
Qed.

Lemma fast_path_test (d0 : Q) :
  ~ (d0 == 0)%Q ->
  exists r, fdiv (Fin 0) (fabs (Fin d0)) = Ok r
            /\ flt r (fmul (Fin (1 # 100)) tolf) = true.
Proof.
  intros Hd. cbn [fabs]. unfold fdiv.
  destruct (Qeq_bool (Qabs d0) 0) eqn:E.
  - apply Qeq_bool_iff in E. apply (proj1 (Qabs_zero_iff d0)) in E. tauto.
  - eexists. split; [reflexivity|]. cbn [flt fmul tolf].
    apply Qlt_bool_iff. unfold Qdiv. rewrite Qmult_0_l. reflexivity.
Qed.

(** C1 (as stated, refuted): a 2-level atmosphere with zero tidal heating
    and a flux evaluation returning zero net flux does not take the fast
    path: the test divides by [abs(tidal[0]) = 0]. *)
Lemma t_start_zero_tidal_raises :
  t_start same same same same same no_moist_grad
    (constant_flux [Fin 0; Fin 0]) (two_level [Fin 0; Fin 0]) 10 two_level_profile
  = Raise ZeroDivisionError.
Proof. vm_compute. reflexivity. Qed.

(** C1 (amended): for a 2-level atmosphere (one zone, top of the radiative
    region at level 0) whose top tidal flux [tidal[0]] is a nonzero
    number, and a flux evaluation whose total net flux (thermal, visible
    and tidal) is exactly zero on the radiative levels of the supplied
    profile, [t_start] returns at the already-at-a-root check of its first
    iteration: flag 2, the profile unchanged, with its lapse rate. *)
Theorem t_start_already_at_root (fsqrt fexp flog log10 pow10 : float -> float)
    (moist_grad : float -> float -> res (float * float))
    (climate : profile -> bool -> bool -> bool -> res fluxes)
    (inp : inputs) (fuel : nat) (p0 p1 t0 t1 q : float) (fl : fluxes)
    (d0 z0 z1 m0 m1 : Q) (s b : Z) (fp : list float) :
  nlevel inp = 2 -> nofczns inp = 1 -> 0 < it_max inp ->
  nstr inp !! 0%nat = Some 0 -> nstr inp !! 1%nat = Some s ->
  nstr inp !! 2%nat = Some b -> s = 0 \/ s = 1 ->
  tidal inp !! 0%nat = Some (Fin d0) -> ~ (d0 == 0)%Q ->
  climate (Profile [p0; p1] [t0; t1]) true true (do_holes inp) = Ok fl ->
  net_flux (rfaci inp) (rfacv inp) (flux_net_ir fl) (flux_net_v fl) (tidal inp)
  = Ok [Fin z0; Fin z1] ->
  net_flux (rfaci inp) (rfacv inp) (flux_net_ir_layer fl) (flux_net_v_layer fl) (tidal inp)
  = Ok [Fin m0; Fin m1] ->
  (z0 == 0)%Q -> (m0 == 0)%Q ->
  fdiv (fsub (flog t0) (flog t1)) (fsub (flog p0) (flog p1)) = Ok q ->
  flux_plus_ir fl !! 0%nat = Some fp ->
  t_start fsqrt fexp flog log10 pow10 moist_grad climate inp fuel
    (Profile [p0; p1] [t0; t1])
  = Ok (Output (Profile [p0; p1] [t0; t1]) [q] 2 (flux_net_ir fl) fp
          (all_profiles0 inp)).
Proof.
  intros Hnl Hnz Hit H0 H1 H2 Hs Ht Hd Hcl Hnet Hmid Hz0 Hm0 Hq Hfp.
  unfold t_start.
  rewrite (getitem_nonneg (nstr inp) 0 0) by first [lia | exact H0]. rewrite bind_ok.
  replace (if do_holes inp
           then climate (Profile [p0; p1] [t0; t1]) true true true
           else climate (Profile [p0; p1] [t0; t1]) true true false)
    with (Ok fl) by (rewrite <- Hcl; destruct (do_holes inp); reflexivity).
  rewrite bind_ok. unfold zeros. rewrite Hnl. cbn [Z.ltb Z.compare].
  rewrite !bind_ok.
  destruct (Z.to_nat (it_max inp)) as [|its] eqn:Hits; [lia|].
  cbn [outer_loop]. unfold iteration.
  cbn [s_prof s_fl s_dflux s_f_vec s_all_profiles temp].
  rewrite Hnet, bind_ok, Hmid, bind_ok, Hnz.
  change (0 - 1) with (-1). change (Z.to_nat 2) with 2%nat. cbn [replicate].
  destruct (assemble_residual_zero (nstr inp) s b z0 z1 m0 m1 t0 t1 H0 H1 H2 Hs Hz0 Hm0)
    as (dflux & f_vec & sum & sum_1 & n_total & ->).
  rewrite bind_ok. cbn beta iota.
  rewrite (getitem_nonneg (tidal inp) 0 (Fin d0)) by first [lia | exact Ht].
  rewrite bind_ok.
  destruct (fast_path_test d0 Hd) as (r & -> & Hr). rewrite bind_ok, Hr.
  unfold converged, lapse_rate, zeros. rewrite Hnl.
  change (2 - 1) with 1. cbn [Z.ltb Z.compare]. rewrite bind_ok.
  unfold for_range. change (Z.to_nat (1 - 0)) with 1%nat. cbn [for_loop].
  cbn [temp pressure].
  change (getitem [t0; t1] 0) with (Ok t0). rewrite bind_ok.
  change (getitem [t0; t1] (0 + 1)) with (Ok t1). rewrite bind_ok.
  change (getitem [p0; p1] 0) with (Ok p0). rewrite bind_ok.
  change (getitem [p0; p1] (0 + 1)) with (Ok p1). rewrite bind_ok.
  rewrite Hq, bind_ok.
  change (setitem (replicate (Z.to_nat 1) (Fin 0)) 0 q) with (Ok [q]).
  rewrite !bind_ok.
  rewrite (getitem_nonneg (flux_plus_ir fl) 0 fp) by first [lia | exact Hfp].
  rewrite !bind_ok. reflexivity.
Qed.

Lemma t_start_already_at_root_witness :
  t_start same same same same same no_moist_grad
    (constant_flux [Fin (-3); Fin (-3)]) (two_level [Fin 3; Fin 3]) 10
    (Profile [Fin 1; Fin 2] [Fin 100; Fin 200])
  = Ok (Output (Profile [Fin 1; Fin 2] [Fin 100; Fin 200])
          [Fin ((100 - 200) / (1 - 2))] 2 [Fin (-3); Fin (-3)] [Fin 0] []).
Proof.
  apply (t_start_already_at_root same same same same same no_moist_grad
           (constant_flux [Fin (-3); Fin (-3)]) (two_level [Fin 3; Fin 3]) 10
           (Fin 1) (Fin 2) (Fin 100) (Fin 200) (Fin ((100 - 200) / (1 - 2)))
           (Fluxes [Fin 0; Fin 0] [Fin 0; Fin 0] [Fin (-3); Fin (-3)]
                   [Fin (-3); Fin (-3)] [[Fin 0]; [Fin 0]])
           3 0 0 0 0 0 0 [Fin 0]);
    try reflexivity; try (left; reflexivity).
  intros H. discriminate H.
Defined.

(** ** ZoneManager: how growup and growdown compose *)

Lemma norm_index_lt (len : nat) (i : Z) (k : nat) :
  norm_index len i = Some k -> (k < len)%nat.
Proof.
  unfold norm_index.
  destruct (0 <=? i) eqn:E1, (i <? Z.of_nat len) eqn:E2; simpl;
    try (destruct (- Z.of_nat len <=? i) eqn:E3, (i <? 0) eqn:E4; simpl);
    intros [= <-]; lia.
Qed.

Lemma wrap64_add (x d : Z) : wrap64 (wrap64 x + d) = wrap64 (x + d).
Proof.
  unfold wrap64. f_equal.
  replace ((x + 2 ^ 63) mod 2 ^ 64 - 2 ^ 63 + d + 2 ^ 63)
    with ((x + 2 ^ 63) mod 2 ^ 64 + d) by lia.
  rewrite Zplus_mod_idemp_l. f_equal. lia.
Qed.

(** [bump] by cases on where Python finds the index. *)
Lemma bump_cases (k d : Z) (l : list Z) :
  (exists i x, norm_index (length l) k = Some i /\ l !! i = Some x
               /\ bump k d l = Ok (<[i := wrap64 (x + d)]> l))
  \/ (norm_index (length l) k = None /\ bump k d l = Raise IndexError).
Proof.
  unfold bump, getitem, setitem.
  destruct (norm_index (length l) k) as [i|] eqn:E; [left | right; auto].
  destruct (lookup_lt_is_Some_2 l i (norm_index_lt _ _ _ E)) as [x Hx].
  exists i, x. rewrite Hx. auto.
Qed.

Lemma bump_bump (k d e : Z) (l : list Z) :
  bump k d l ≫= bump k e = bump k (d + e) l.
Proof.
  destruct (bump_cases k d l) as [(i & x & Hi & Hx & ->) | [Hi ->]].
  - rewrite bind_ok.
    destruct (bump_cases k (d + e) l) as [(i' & x' & Hi' & Hx' & ->) | [Hi' _]];
      [|congruence].
    assert (i' = i) as -> by congruence. assert (x' = x) as -> by congruence.
    destruct (bump_cases k e (<[i := wrap64 (x + d)]> l))
      as [(j & y & Hj & Hy & ->) | [Hj _]];
      rewrite length_insert in Hj; [|congruence].
    assert (j = i) as -> by congruence.
    rewrite list_lookup_insert_eq in Hy by (eapply lookup_lt_Some, Hx).
    injection Hy as <-. rewrite list_insert_insert_eq, wrap64_add.
    replace (x + d + e) with (x + (d + e)) by lia. reflexivity.
  - destruct (bump_cases k (d + e) l) as [(i' & x' & Hi' & _) | [_ ->]];
      [congruence | reflexivity].
Qed.

Lemma bump_comm (k k' d e : Z) (l : list Z) :
  bump k d l ≫= bump k' e = bump k' e l ≫= bump k d.
Proof.
  destruct (bump_cases k d l) as [(i & x & Hi & Hx & ->) | [Hi ->]];
    destruct (bump_cases k' e l) as [(j & y & Hj & Hy & ->) | [Hj ->]];
    rewrite ?bind_ok; cbn [mbind res_bind].
  - destruct (bump_cases k' e (<[i := wrap64 (x + d)]> l))
      as [(j' & y' & Hj' & Hy' & ->) | [Hj' _]];
      rewrite length_insert in Hj'; [|congruence].
    destruct (bump_cases k d (<[j := wrap64 (y + e)]> l))
      as [(i' & x' & Hi' & Hx' & ->) | [Hi' _]];
      rewrite length_insert in Hi'; [|congruence].
    assert (j' = j) as -> by congruence. assert (i' = i) as -> by congruence.
    pose proof (lookup_lt_Some _ _ _ Hx). pose proof (lookup_lt_Some _ _ _ Hy).
    destruct (decide (i = j)) as [->|Hne].
    + rewrite list_lookup_insert_eq in Hy', Hx' by assumption.
      injection Hy' as <-. injection Hx' as <-.
      assert (y = x) as -> by congruence.
      rewrite !list_insert_insert_eq, !wrap64_add.
      replace (x + e + d) with (x + d + e) by lia. reflexivity.
    + rewrite list_lookup_insert_ne in Hy', Hx' by congruence.
      assert (y' = y) as -> by congruence. assert (x' = x) as -> by congruence.
      f_equal. apply list_insert_insert_ne. congruence.
  - destruct (bump_cases k' e (<[i := wrap64 (x + d)]> l))
      as [(j' & y' & Hj' & _) | [_ ->]];
      [rewrite length_insert in Hj'; congruence | reflexivity].
  - destruct (bump_cases k d (<[j := wrap64 (y + e)]> l))
      as [(i' & x' & Hi' & _) | [_ ->]];
      [rewrite length_insert in Hi'; congruence | reflexivity].
  - reflexivity.
Qed.

Lemma growup_bump (nlv n : Z) (nstr : list Z) :
  growup nlv nstr n = bump (3 * nlv - 2) (- n) nstr.
Proof.
  unfold growup, bump. replace (2 + 3 * (nlv - 1) - 1) with (3 * nlv - 2) by lia.
  destruct (getitem nstr (3 * nlv - 2)) as [x|e]; [|reflexivity].
  rewrite !bind_ok. do 2 f_equal. lia.
Qed.

Lemma growdown_bump (nlv n : Z) (nstr : list Z) :
  growdown nlv nstr n = bump (3 * nlv - 1) n nstr ≫= bump (3 * nlv) n.
Proof.
  unfold growdown, bump. replace (3 + 3 * (nlv - 1) - 1) with (3 * nlv - 1) by lia.
  replace (3 * nlv - 1 + 1) with (3 * nlv) by lia.
  destruct (getitem nstr (3 * nlv - 1)) as [x|e]; [|reflexivity].
  rewrite !bind_ok. replace (x + 1 * n) with (x + n) by lia.
  destruct (setitem nstr (3 * nlv - 1) (wrap64 (x + n))) as [s1|e]; [|reflexivity].
  rewrite !bind_ok.
  destruct (getitem s1 (3 * nlv)) as [y|e]; [|reflexivity].
  rewrite !bind_ok. do 2 f_equal. lia.
Qed.

Lemma bind_ext {A B} (m : res A) (k k' : A -> res B) :
  (forall a, k a = k' a) -> m ≫= k = m ≫= k'.
Proof. intros H. destruct m; [apply H | reflexivity]. Qed.

Lemma bump_zero (k : Z) (l : list Z) :
  Forall int64 l -> bump k 0 l = Ok l \/ bump k 0 l = Raise IndexError.
Proof.
  intros Hl. destruct (bump_cases k 0 l) as [(i & x & _ & Hx & ->) | [_ ->]];
    [left | right; reflexivity].
  rewrite Forall_lookup in Hl. specialize (Hl _ _ Hx). unfold int64 in Hl.
  replace (x + 0) with x by lia. rewrite wrap64_small by exact Hl.
  rewrite list_insert_id by exact Hx. reflexivity.
Qed.

Lemma growup_twice (nlv n m : Z) (nstr : list Z) :
  (growup nlv nstr n ≫= fun s => growup nlv s m) = growup nlv nstr (n + m).
Proof.
  rewrite (bind_ext _ _ (bump (3 * nlv - 2) (- m))) by (intros; apply growup_bump).
  rewrite !growup_bump, bump_bump. f_equal. lia.
Qed.

Lemma growdown_twice (nlv n m : Z) (nstr : list Z) :
  (growdown nlv nstr n ≫= fun s => growdown nlv s m) = growdown nlv nstr (n + m).
Proof.
  rewrite (bind_ext _ _ (fun s => bump (3 * nlv - 1) m s ≫= bump (3 * nlv) m))
    by (intros; apply growdown_bump).
  rewrite !growdown_bump, bind_assoc.
  rewrite (bind_ext _ _ (fun s => (bump (3 * nlv) n s ≫= bump (3 * nlv - 1) m)
                                  ≫= bump (3 * nlv) m))
    by (intros; symmetry; apply bind_assoc).
  rewrite (bind_ext _ _ (fun s => (bump (3 * nlv - 1) m s ≫= bump (3 * nlv) n)
                                  ≫= bump (3 * nlv) m))
    by (intros; f_equal; apply bump_comm).
  rewrite (bind_ext _ _ (fun s => bump (3 * nlv - 1) m s ≫= bump (3 * nlv) (n + m))).
  2:{ intros a. rewrite bind_assoc. apply bind_ext. intros b. apply bump_bump. }
  rewrite <- bind_assoc, bump_bump. reflexivity.
Qed.

(** X7: [growup] by [n] is undone by [growup] by [-n] on the same zone,
    and [growdown] by [n] by [growdown] by [-n]: on a zone map of int64
    entries, whenever the first call returns, the second gives the
    original map back entry for entry. *)
Theorem grow_undo (nlv n : Z) (nstr : list Z) :
  Forall int64 nstr ->
  (forall s, growup nlv nstr n = Ok s -> growup nlv s (- n) = Ok nstr)
  /\ (forall s, growdown nlv nstr n = Ok s -> growdown nlv s (- n) = Ok nstr).
Proof.
  intros Hl. split; intros s Hs.
  - pose proof (growup_twice nlv n (- n) nstr) as H.
    rewrite Hs, bind_ok in H. rewrite H, growup_bump.
    replace (- (n + - n)) with 0 by lia.
    destruct (bump_zero (3 * nlv - 2) nstr Hl) as [E|E]; [exact E|].
    exfalso. rewrite growup_bump in Hs.
    destruct (bump_cases (3 * nlv - 2) 0 nstr) as [(? & ? & ? & ? & E') | [Hi _]];
      [congruence|].
    destruct (bump_cases (3 * nlv - 2) (- n) nstr) as [(? & ? & ? & _) | [_ E']];
      congruence.
  - pose proof (growdown_twice nlv n (- n) nstr) as H.
    rewrite Hs, bind_ok in H. rewrite H, growdown_bump.
    replace (n + - n) with 0 by lia.
    rewrite growdown_bump in Hs.
    destruct (bump_cases (3 * nlv - 1) n nstr) as [(i & x & Hi & Hx & E) | [_ E]];
      rewrite E in Hs; [rewrite bind_ok in Hs | discriminate].
    destruct (bump_cases (3 * nlv) n (<[i := wrap64 (x + n)]> nstr))
      as [(j & y & Hj & Hy & _) | [_ E']]; [|congruence].
    rewrite length_insert in Hj.
    destruct (bump_zero (3 * nlv - 1) nstr Hl) as [->|E0].
    2:{ destruct (bump_cases (3 * nlv - 1) 0 nstr) as [(? & ? & ? & ? & E') | [? _]];
          congruence. }
    rewrite bind_ok.
    destruct (bump_zero (3 * nlv) nstr Hl) as [->|E0]; [reflexivity|].
    destruct (bump_cases (3 * nlv) 0 nstr) as [(? & ? & ? & ? & E') | [? _]];
      congruence.
Qed.

Lemma grow_undo_witness :
  growup 1 [0; 5; 20; 30; 40; 50] (- 5) = Ok [0; 10; 20; 30; 40; 50]
  /\ growdown 1 [0; 10; 25; 35; 40; 50] (- 5) = Ok [0; 10; 20; 30; 40; 50].
Proof.
  assert (Forall int64 [0; 10; 20; 30; 40; 50]) as H
    by (repeat constructor; unfold int64; lia).
  destruct (grow_undo 1 5 [0; 10; 20; 30; 40; 50] H) as [Hup Hdown].
  split; [apply Hup | apply Hdown]; reflexivity.
Defined.

(** X8: two calls of [growup] on one zone add up, so do two calls of
    [growdown], and a [growup] and a [growdown], on the same zone or on
    two zones, give the same map (or the same IndexError) in either
    order. *)
Theorem grow_compose (nlv nlv' n m : Z) (nstr : list Z) :
  (growup nlv nstr n ≫= fun s => growup nlv s m) = growup nlv nstr (n + m)
  /\ (growdown nlv nstr n ≫= fun s => growdown nlv s m) = growdown nlv nstr (n + m)
  /\ (growup nlv nstr n ≫= fun s => growdown nlv' s m)
     = (growdown nlv' nstr m ≫= fun s => growup nlv s n).
Proof.
  split; [apply growup_twice | split; [apply growdown_twice|]].
  rewrite (bind_ext _ _ (fun s => bump (3 * nlv' - 1) m s ≫= bump (3 * nlv') m))
    by (intros; apply growdown_bump).
  rewrite (bind_ext (growdown nlv' nstr m) _ (bump (3 * nlv - 2) (- n)))
    by (intros; apply growup_bump).
  rewrite growup_bump, growdown_bump.
  rewrite <- bind_assoc, bump_comm, !bind_assoc.
  apply bind_ext. intros a. apply bump_comm.
Qed.

Lemma norm_index_spec (len : nat) (k : Z) :
  norm_index len k
  = if decide (- Z.of_nat len <= k < Z.of_nat len)
    then Some (Z.to_nat (k mod Z.of_nat len)) else None.
Proof.
  unfold norm_index.
  destruct (decide (- Z.of_nat len <= k < Z.of_nat len)) as [H|H].
  - destruct (Z_lt_le_dec k 0) as [Hneg|Hpos].
    + replace (0 <=? k) with false by (symmetry; apply Z.leb_gt; lia).
      replace (- Z.of_nat len <=? k) with true by (symmetry; apply Z.leb_le; lia).
      replace (k <? 0) with true by (symmetry; apply Z.ltb_lt; lia).
      cbn [andb]. do 2 f_equal.
      rewrite <- (Z.mod_add k 1) by lia. rewrite Z.mod_small; lia.
    + replace (0 <=? k) with true by (symmetry; apply Z.leb_le; lia).
      replace (k <? Z.of_nat len) with true by (symmetry; apply Z.ltb_lt; lia).
      cbn [andb]. rewrite Z.mod_small by lia. reflexivity.
  - destruct (Z_lt_le_dec k 0) as [Hneg|Hpos].
    + replace (0 <=? k) with false by (symmetry; apply Z.leb_gt; lia).
      replace (- Z.of_nat len <=? k) with false by (symmetry; apply Z.leb_gt; lia).
      reflexivity.
    + replace (k <? Z.of_nat len) with false by (symmetry; apply Z.ltb_ge; lia).
      replace (k <? 0) with false by (symmetry; apply Z.ltb_ge; lia).
      rewrite !andb_false_r. reflexivity.
Qed.

(** X9: where [growup] and [growdown] write.  [growup] on zone [nlv]
    updates entry [3*nlv - 2] when that index is in [-len, len), a
    negative one counting from the end as Python does (zone 0 updates
    the entry before the last), and raises IndexError otherwise;
    [growdown] raises IndexError exactly when [3*nlv - 1] or [3*nlv] is
    outside that range. *)
Theorem grow_index (nlv n : Z) (nstr : list Z) :
  let L := Z.of_nat (length nstr) in
  let i := Z.to_nat ((3 * nlv - 2) mod L) in
  (if decide (- L <= 3 * nlv - 2 < L)
   then exists x, nstr !! i = Some x
                  /\ growup nlv nstr n = Ok (<[i := wrap64 (x - n)]> nstr)
   else growup nlv nstr n = Raise IndexError)
  /\ (growdown nlv nstr n = Raise IndexError
      <-> ~ (- L <= 3 * nlv - 1 < L /\ - L <= 3 * nlv < L))
  /\ (forall e, growdown nlv nstr n = Raise e -> e = IndexError)
  /\ growup 0 [0; 10; 20; 30] 5 = Ok [0; 10; 15; 30].
Proof.
  intros L i. split; [|split; [|split; [|reflexivity]]].
  - rewrite growup_bump.
    destruct (bump_cases (3 * nlv - 2) (- n) nstr) as [(j & x & Hj & Hx & ->) | [Hj ->]];
      rewrite norm_index_spec in Hj; fold L in Hj;
      destruct (decide (- L <= 3 * nlv - 2 < L)); try discriminate; [|reflexivity].
    injection Hj as <-. exists x. split; [exact Hx | reflexivity].
  - rewrite growdown_bump.
    destruct (bump_cases (3 * nlv - 1) n nstr) as [(j & x & Hj & Hx & ->) | [Hj ->]];
      rewrite norm_index_spec in Hj; fold L in Hj;
      destruct (decide (- L <= 3 * nlv - 1 < L)); try discriminate.
    + rewrite bind_ok.
      destruct (bump_cases (3 * nlv) n (<[j := wrap64 (x + n)]> nstr))
        as [(k & y & Hk & Hy & ->) | [Hk ->]];
        rewrite length_insert, norm_index_spec in Hk; fold L in Hk;
        destruct (decide (- L <= 3 * nlv < L)); try discriminate.
      * split; [discriminate | tauto].
      * split; [tauto | reflexivity].
    + split; [tauto | reflexivity].
  - intros e. rewrite growdown_bump.
    destruct (bump_cases (3 * nlv - 1) n nstr) as [(j & x & _ & _ & ->) | [_ ->]];
      [rewrite bind_ok | intros [= <-]; reflexivity].
    destruct (bump_cases (3 * nlv) n (<[j := wrap64 (x + n)]> nstr))
      as [(k & y & _ & _ & ->) | [_ ->]]; [discriminate | intros [= <-]; reflexivity].
Qed.

(** ** ConvectiveGradient: convec *)

Lemma splice_nil {A} (i : nat) (l : list A) : splice i [] l = l.
Proof. unfold splice. simpl. rewrite Nat.add_0_r. apply take_drop. Qed.

Lemma splice_cons {A} (i : nat) (g : A) (vs l : list A) :
  (i < length l)%nat -> splice (S i) vs (<[i := g]> l) = splice i (g :: vs) l.
Proof.
  intros Hi. unfold splice.
  rewrite (take_S_r (<[i := g]> l) i g) by (apply list_lookup_insert_eq; exact Hi).
  rewrite take_insert_ge by lia.
  rewrite drop_insert_lt by lia.
  rewrite <- app_assoc. simpl.
  replace (i + S (length vs))%nat with (S (i + length vs)) by lia. reflexivity.
Qed.

Lemma splice_all {A} (vs l : list A) : length vs = length l -> splice 0 vs l = vs.
Proof.
  intros H. unfold splice. simpl. rewrite drop_ge by lia. apply app_nil_r.
Qed.

Lemma getitem_insert {A} (l : list A) (j : Z) (x : A) :
  0 <= j < Z.of_nat (length l) -> getitem (<[Z.to_nat j := x]> l) j = Ok x.
Proof.
  intros H. apply getitem_nonneg; [lia|]. apply list_lookup_insert_eq. lia.
Qed.

Lemma layer_gradients_lookup (f : Z -> res (float * float)) (k : nat) (lo : Z)
    (rs : list (float * float)) :
  layer_gradients f lo k = Ok rs ->
  length rs = k
  /\ forall i r, rs !! i = Some r -> f (lo + Z.of_nat i) = Ok r.
Proof.
  revert lo rs. induction k as [|k IH]; intros lo rs H; simpl in H.
  - injection H as <-. split; [reflexivity | intros i r Hi; discriminate].
  - destruct (f lo) as [r0|e] eqn:E0; [rewrite bind_ok in H | discriminate].
    destruct (layer_gradients f (lo + 1) k) as [rs'|e] eqn:E; [|discriminate].
    rewrite bind_ok in H. injection H as <-.
    destruct (IH _ _ E) as [Hlen Hrs]. split; [simpl; lia|].
    intros [|i] r Hi; simpl in Hi.
    + injection Hi as <-. rewrite Z.add_0_r. exact E0.
    + replace (lo + Z.of_nat (S i)) with (lo + 1 + Z.of_nat i) by lia.
      apply Hrs, Hi.
Qed.

Section ConvecLoop.

Variable fsqrt : float -> float.
Variable gradient : float -> float -> res (float * float).
Variable temp pressure : list float.

Lemma convec_layer_step (lo : Z) (tbar pbar gx cx : list float) :
  0 <= lo < Z.of_nat (length tbar) -> lo < Z.of_nat (length pbar) ->
  lo < Z.of_nat (length gx) -> lo < Z.of_nat (length cx) ->
  match layer_gradient fsqrt gradient temp pressure lo with
  | Ok (g, c) =>
      exists tbar' pbar',
        length tbar' = length tbar /\ length pbar' = length pbar
        /\ convec_layer fsqrt gradient temp pressure lo (tbar, pbar, gx, cx)
           = Ok (tbar', pbar', <[Z.to_nat lo := g]> gx, <[Z.to_nat lo := c]> cx)
  | Raise e =>
      convec_layer fsqrt gradient temp pressure lo (tbar, pbar, gx, cx) = Raise e
  end.
Proof.
  intros Ht Hp Hg Hc. unfold convec_layer, layer_gradient.
  destruct (getitem temp lo) as [tj|e]; [rewrite !bind_ok | reflexivity].
  destruct (getitem temp (lo + 1)) as [tj1|e]; [rewrite !bind_ok | reflexivity].
  rewrite setitem_nonneg by lia. rewrite bind_ok.
  destruct (getitem pressure lo) as [pj|e]; [rewrite !bind_ok | reflexivity].
  destruct (getitem pressure (lo + 1)) as [pj1|e]; [rewrite !bind_ok | reflexivity].
  rewrite setitem_nonneg by lia. rewrite bind_ok.
  rewrite !getitem_insert by lia. rewrite !bind_ok.
  destruct (gradient _ _) as [[g c]|e]; [rewrite !bind_ok | reflexivity].
  cbn beta iota. rewrite !setitem_nonneg by lia. rewrite !bind_ok.
  do 2 eexists. split; [|split]; [| |reflexivity]; apply length_insert.
Qed.

Lemma convec_loop (k : nat) (lo : Z) (tbar pbar gx cx : list float) :
  0 <= lo ->
  lo + Z.of_nat k <= Z.of_nat (length tbar) ->
  lo + Z.of_nat k <= Z.of_nat (length pbar) ->
  lo + Z.of_nat k <= Z.of_nat (length gx) ->
  lo + Z.of_nat k <= Z.of_nat (length cx) ->
  (for_loop k lo 1 (convec_layer fsqrt gradient temp pressure) (tbar, pbar, gx, cx)
   ≫= fun '(_, _, gx', cx') => Ok (gx', cx'))
  = (rs ← layer_gradients (layer_gradient fsqrt gradient temp pressure) lo k;
     Ok (splice (Z.to_nat lo) rs.*1 gx, splice (Z.to_nat lo) rs.*2 cx)).
Proof.
  revert lo tbar pbar gx cx.
  induction k as [|k IH]; intros lo tbar pbar gx cx Hlo Ht Hp Hg Hc.
  - cbn [for_loop layer_gradients]. rewrite !bind_ok. cbn [fmap list_fmap].
    rewrite !splice_nil. reflexivity.
  - cbn [for_loop layer_gradients].
    pose proof (convec_layer_step lo tbar pbar gx cx ltac:(lia) ltac:(lia)
                  ltac:(lia) ltac:(lia)) as Hstep.
    destruct (layer_gradient fsqrt gradient temp pressure lo) as [[g c]|e].
    2:{ rewrite Hstep. reflexivity. }
    destruct Hstep as (tbar' & pbar' & Lt & Lp & ->). rewrite !bind_ok.
    rewrite IH by (rewrite ?length_insert; lia).
    destruct (layer_gradients _ (lo + 1) k) as [rs|e]; [rewrite !bind_ok | reflexivity].
    cbn [fmap list_fmap fst snd].
    replace (Z.to_nat (lo + 1)) with (S (Z.to_nat lo)) by lia.
    rewrite !splice_cons by lia. reflexivity.
Qed.

End ConvecLoop.

(** X10: [convec] raises the ValueError of a negative dimension on an
    empty [temp]; otherwise it goes through the layers in order, takes
    for each one the gradient routine of its branch at the mean of the
    two level temperatures and the geometric mean of the two level
    pressures, and returns the two arrays of results, as long as [temp]
    less one, or the first exception a layer raised. *)
Theorem convec_spec (fsqrt log10 pow10 : float -> float)
    (moist_grad : float -> float -> res (float * float))
    (temp pressure t_table p_table : list float) (grad cp : matrix) (moist : bool) :
  let gradient :=
    if moist then moist_grad
    else fun t p => did_grad_cp log10 pow10 t p t_table p_table grad cp in
  let layer := layer_gradient fsqrt gradient temp pressure in
  convec fsqrt log10 pow10 moist_grad temp pressure t_table p_table grad cp moist
  = (if decide (temp = []) then Raise NegativeDimension
     else rs ← layer_gradients layer 0 (length temp - 1); Ok (rs.*1, rs.*2))
  /\ forall gx cx,
       convec fsqrt log10 pow10 moist_grad temp pressure t_table p_table grad cp moist
       = Ok (gx, cx) ->
       length gx = (length temp - 1)%nat /\ length cx = (length temp - 1)%nat
       /\ forall j g c, gx !! j = Some g -> cx !! j = Some c ->
            layer (Z.of_nat j) = Ok (g, c).
Proof.
  intros gradient layer.
  assert (convec fsqrt log10 pow10 moist_grad temp pressure t_table p_table grad cp moist
          = (if decide (temp = []) then Raise NegativeDimension
             else rs ← layer_gradients layer 0 (length temp - 1); Ok (rs.*1, rs.*2)))
    as Heq.
  { unfold convec, zeros. destruct (decide (temp = [])) as [->|Hne]; [reflexivity|].
    assert (0 < length temp)%nat as Hlen by (destruct temp; [congruence | simpl; lia]).
    replace (Z.of_nat (length temp) - 1 <? 0) with false
      by (symmetry; apply Z.ltb_ge; lia).
    cbn iota. rewrite !bind_ok.
    replace (Z.to_nat (Z.of_nat (length temp) - 1)) with (length temp - 1)%nat by lia.
    set (z := replicate (length temp - 1) (Fin 0)).
    assert (length z = (length temp - 1)%nat) as Hz by apply length_replicate.
    pose proof (convec_loop fsqrt gradient temp pressure (length temp - 1) 0 z z z z
                  ltac:(lia) ltac:(lia) ltac:(lia) ltac:(lia) ltac:(lia)) as Hloop.
    fold layer in Hloop. unfold for_range.
    replace (Z.to_nat (Z.of_nat (length temp) - 1 - 0)) with (length temp - 1)%nat by lia.
    assert ((if moist
             then for_loop (length temp - 1) 0 1
                    (convec_layer fsqrt moist_grad temp pressure) (z, z, z, z)
             else for_loop (length temp - 1) 0 1
                    (convec_layer fsqrt
                       (fun t p => did_grad_cp log10 pow10 t p t_table p_table grad cp)
                       temp pressure) (z, z, z, z))
            = for_loop (length temp - 1) 0 1
                (convec_layer fsqrt gradient temp pressure) (z, z, z, z)) as ->
      by (unfold gradient; destruct moist; reflexivity).
    etransitivity; [|etransitivity; [exact Hloop|]].
    - apply bind_ext. intros [[[? ?] ?] ?]. reflexivity.
    - destruct (layer_gradients layer 0 (length temp - 1)) as [rs|e] eqn:E;
        [|reflexivity].
      rewrite !bind_ok. destruct (layer_gradients_lookup _ _ _ _ E) as [Hrs _].
      change (Z.to_nat 0) with 0%nat.
      rewrite !splice_all by (rewrite length_fmap; lia). reflexivity. }
  split; [exact Heq|].
  intros gx cx Hrun. rewrite Heq in Hrun.
  destruct (decide (temp = [])); [discriminate|].
  destruct (layer_gradients layer 0 (length temp - 1)) as [rs|e] eqn:E; [|discriminate].
  rewrite bind_ok in Hrun. injection Hrun as <- <-.
  destruct (layer_gradients_lookup _ _ _ _ E) as [Hrs Hlook].
  rewrite !length_fmap. split; [exact Hrs | split; [exact Hrs|]].
  intros j g c Hg Hc. rewrite list_lookup_fmap in Hg, Hc.
  destruct (rs !! j) as [[g' c']|] eqn:Ej; [|discriminate].
  simpl in Hg, Hc. injection Hg as <-. injection Hc as <-.
  exact (Hlook j _ Ej).
Qed.

(** ** MoistAdiabat: cpfunc and hvapfunc *)

Lemma cp_coefficients_some (igas : Z) :
  9 <= igas <= 25 ->
  exists f, cp_coefficients igas = Some f
            /\ length (fit_A f) = 3%nat /\ length (fit_B f) = 3%nat
            /\ length (fit_C f) = 3%nat /\ length (fit_D f) = 3%nat
            /\ length (fit_E f) = 3%nat.
Proof.
  intros H.
  assert (igas = 9 \/ igas = 10 \/ igas = 11 \/ igas = 12 \/ igas = 13 \/ igas = 14
          \/ igas = 15 \/ igas = 16 \/ igas = 17 \/ igas = 18 \/ igas = 19
          \/ igas = 20 \/ igas = 21 \/ igas = 22 \/ igas = 23 \/ igas = 24
          \/ igas = 25) as Hcases by lia.
  repeat (destruct Hcases as [-> | Hcases];
          [eexists; split; [reflexivity | repeat split]|]).
  subst igas. eexists; split; [reflexivity | repeat split].
Qed.

Lemma cp_coefficients_none (igas : Z) :
  ~ 9 <= igas <= 25 -> cp_coefficients igas = None.
Proof.
  intros H. unfold cp_coefficients.
  repeat match goal with
         | |- context [igas =? ?k] =>
             replace (igas =? k) with false by (symmetry; apply Z.eqb_neq; lia)
         end.
  reflexivity.
Qed.

Lemma cp_coefficients_range (igas : Z) (f : cp_fit) :
  cp_coefficients igas = Some f -> 9 <= igas <= 25.
Proof.
  intros H. destruct (decide (9 <= igas <= 25)) as [Hr|Hr]; [exact Hr|].
  rewrite (cp_coefficients_none igas Hr) in H. discriminate.
Qed.

Lemma polyAE_past (A B C D E : list float) (t : float) (it : Z) :
  Z.of_nat (length A) <= it -> polyAE A B C D E t it = Raise IndexError.
Proof.
  intros H. pose proof (getitem_past A it H) as HA.
  unfold polyAE. rewrite HA. reflexivity.
Qed.

Lemma fdiv_thousand (temp : float) : exists t, fdiv temp (Fin 1000) = Ok t.
Proof. destruct temp as [q|s|]; eexists; reflexivity. Qed.

Lemma fdiv_Ok_divisor (x m q : float) : fdiv x m = Ok q -> feq m (Fin 0) = false.
Proof.
  unfold fdiv. destruct m as [b|s|]; [|reflexivity..].
  cbn [feq]. destruct (Qeq_bool b 0); [discriminate | reflexivity].
Qed.

Lemma cpfunc_Ok_inv (igas : Z) (temp : float) (mmw : list float) (r : float) :
  cpfunc igas temp mmw = Ok r ->
  9 <= igas <= 25 /\ fgt temp (Fin 2500) = false
  /\ exists m, getitem mmw igas = Ok m /\ feq m (Fin 0) = false.
Proof.
  unfold cpfunc. intros H.
  destruct (getitem mmw igas) as [m|e]; [rewrite bind_ok in H | discriminate].
  destruct (fdiv_thousand temp) as [t Ht]. rewrite Ht, bind_ok in H.
  destruct (cp_coefficients igas) as [f|] eqn:Ef.
  2:{ exfalso. cbn [bound] in H.
      destruct (fgt temp (Fin 2500)); [discriminate|].
      destruct (fgt temp (Fin 1000) && fle temp (Fin 2500)); [discriminate|].
      destruct (fge temp (Fin 100) && flt temp (Fin 1000)); discriminate. }
  pose proof (cp_coefficients_range _ _ Ef) as Hr.
  destruct (cp_coefficients_some igas Hr) as (f' & Ef' & LA & _).
  assert (f' = f) as -> by congruence.
  split; [exact Hr|]. cbn [bound] in H. rewrite !bind_ok in H.
  destruct (fgt temp (Fin 2500)).
  { rewrite polyAE_past in H by (rewrite LA; lia). discriminate. }
  split; [reflexivity|]. exists m. split; [reflexivity|].
  apply bind_Ok in H as (cp & _ & H). apply bind_Ok in H as (q & Eq & _).
  exact (fdiv_Ok_divisor _ _ _ Eq).
Qed.

Lemma fdiv_returns (x m : float) :
  feq m (Fin 0) = false -> exists q, fdiv x m = Ok q.
Proof.
  unfold fdiv. destruct m as [b|s|]; cbn [feq].
  - intros ->. destruct x; eexists; reflexivity.
  - intros _. destruct x; eexists; reflexivity.
  - intros _. eexists; reflexivity.
Qed.

Lemma Qdiv_thousand (T : Q) : ~ (T == 0)%Q -> ~ (T / 1000 == 0)%Q.
Proof.
  intros HT H. unfold Qdiv in H. apply Qmult_integral in H as [H|H]; [tauto|].
  discriminate H.
Qed.

Lemma polyAE_returns (A B C D E : list float) (q : Q) (it : Z) :
  length A = 3%nat -> length B = 3%nat -> length C = 3%nat ->
  length D = 3%nat -> length E = 3%nat ->
  0 <= it < 3 -> ~ (q == 0)%Q ->
  exists r, polyAE A B C D E (Fin q) it = Ok r.
Proof.
  intros LA LB LC LD LE Hit Hq. unfold polyAE.
  destruct (getitem_lookup A it) as (a & _ & ->); [lia|].
  destruct (getitem_lookup B it) as (b & _ & ->); [lia|].
  destruct (getitem_lookup C it) as (c & _ & ->); [lia|].
  destruct (getitem_lookup D it) as (d & _ & ->); [lia|].
  destruct (getitem_lookup E it) as (e & _ & ->); [lia|].
  rewrite !bind_ok. cbn [fmul].
  destruct (fdiv_nonzero e (q * q)) as (y & -> & _).
  - intros H. apply Qmult_integral in H. tauto.
  - rewrite bind_ok. eexists; reflexivity.
Qed.

(** X11: [cpfunc] returns exactly for a gas from 9 to 25, a temperature
    that is not above 2500 and a molar mass [mmw[igas]] that is not zero.
    Above 2500 the index of the fit is 3, one past the three entries of
    the coefficient lists, and the gases 9 to 25 raise [IndexError]. *)
Theorem cpfunc_returns (igas : Z) (temp : float) (mmw : list float) :
  ((exists r, cpfunc igas temp mmw = Ok r) <->
   9 <= igas <= 25 /\ fgt temp (Fin 2500) = false
   /\ exists m, getitem mmw igas = Ok m /\ feq m (Fin 0) = false)
  /\ (9 <= igas <= 25 -> fgt temp (Fin 2500) = true ->
      cpfunc igas temp mmw = Raise IndexError).
Proof.
  split; [split|].
  - intros [r H]. exact (cpfunc_Ok_inv _ _ _ _ H).
  - intros (Hr & Hhot & m & Hm & Hm0).
    destruct (cp_coefficients_some igas Hr) as (f & Ef & LA & LB & LC & LD & LE).
    unfold cpfunc. rewrite Hm, bind_ok, Ef, Hhot. cbn [bound]. rewrite !bind_ok.
    assert (forall cp : float, exists r,
               (q ← fdiv cp m; Ok (fmul q (Fin 10000000))) = Ok r) as Hend.
    { intros cp. destruct (fdiv_returns cp m Hm0) as [q ->].
      rewrite bind_ok. eexists; reflexivity. }
    destruct temp as [T|s|].
    + change (fdiv (Fin T) (Fin 1000)) with (Ok (Fin (T / 1000))).
      rewrite bind_ok.
      destruct (fgt (Fin T) (Fin 1000) && fle (Fin T) (Fin 2500)) eqn:E2.
      { rewrite bind_ok. apply andb_true_iff in E2 as [E2 _]. apply Qlt_bool_iff in E2.
        destruct (polyAE_returns (fit_A f) (fit_B f) (fit_C f) (fit_D f) (fit_E f)
                    (T / 1000) 2 LA LB LC LD LE) as [cp ->]; [lia| |apply Hend].
        apply Qdiv_thousand. lra. }
      destruct (fge (Fin T) (Fin 100) && flt (Fin T) (Fin 1000)) eqn:E1.
      { rewrite bind_ok. apply andb_true_iff in E1 as [E1 _]. apply Qle_bool_iff in E1.
        destruct (polyAE_returns (fit_A f) (fit_B f) (fit_C f) (fit_D f) (fit_E f)
                    (T / 1000) 1 LA LB LC LD LE) as [cp ->]; [lia| |apply Hend].
        apply Qdiv_thousand. lra. }
      apply Hend.
    + destruct s; [|discriminate]. cbn. apply Hend.
    + cbn. apply Hend.
  - intros Hr Hhot.
    destruct (cp_coefficients_some igas Hr) as (f & Ef & LA & _).
    unfold cpfunc. destruct (getitem mmw igas) as [m|e] eqn:Em.
    + rewrite bind_ok. destruct (fdiv_thousand temp) as [t ->].
      rewrite bind_ok, Ef, Hhot. cbn [bound]. rewrite bind_ok.
      rewrite polyAE_past by (rewrite LA; lia). reflexivity.
    + apply getitem_raises in Em. subst e. reflexivity.
Qed.

(** X12: outside the two fitted ranges - below 100, at exactly 1000, or
    for a temperature that is not a number - [cpfunc] does not evaluate
    the polynomial: it returns [default_cp / mmw[igas] * 1e7], whatever
    the temperature. *)
Theorem cpfunc_default (igas : Z) (temp : float) (mmw : list float)
    (f : cp_fit) (m : float) :
  cp_coefficients igas = Some f ->
  getitem mmw igas = Ok m ->
  flt temp (Fin 100) = true \/ feq temp (Fin 1000) = true \/ isnan temp = true ->
  cpfunc igas temp mmw = (q ← fdiv (fit_default f) m; Ok (fmul q (Fin 10000000))).
Proof.
  intros Ef Hm Hgap. unfold cpfunc. rewrite Hm, bind_ok, Ef.
  destruct (fdiv_thousand temp) as [t ->]. rewrite bind_ok.
  assert (fgt temp (Fin 2500) = false
          /\ fgt temp (Fin 1000) && fle temp (Fin 2500) = false
          /\ fge temp (Fin 100) && flt temp (Fin 1000) = false) as (-> & -> & ->).
  { destruct temp as [T|s|]; cbn in Hgap |- *.
    - assert (T < 100 \/ T == 1000)%Q as HT.
      { destruct Hgap as [H|[H|H]]; [left; apply Qlt_bool_iff; exact H
                                    |right; apply Qeq_bool_iff; exact H
                                    |discriminate]. }
      repeat split.
      + apply not_true_iff_false. intros H. apply Qlt_bool_iff in H. lra.
      + apply andb_false_iff. left.
        apply not_true_iff_false. intros H. apply Qlt_bool_iff in H. lra.
      + apply not_true_iff_false. intros H. apply andb_true_iff in H as [H1 H2].
        apply Qle_bool_iff in H1. apply Qlt_bool_iff in H2. lra.
    - destruct Hgap as [H|[H|H]]; try discriminate. subst s. repeat split.
    - repeat split. }
  cbn [bound]. rewrite bind_ok. reflexivity.
Qed.

Lemma cpfunc_default_witness :
  cpfunc 9 (Fin 1000) mmw = Ok (Fin ((33299 # 1000) / (1801528 # 100000) * 10000000)).
Proof.
  refine (eq_trans
            (cpfunc_default 9 (Fin 1000) mmw _ (Fin (1801528 # 100000)) _ _ _) _).
  - reflexivity.
  - reflexivity.
  - right; left; reflexivity.
  - reflexivity.
Defined.

Section HvapProperties.

Variable fexp : float -> float.
Variable fpow : float -> float -> float.

Lemma hvapfunc_Ok (igas : Z) (temp : float) (masses : list float) :
  (igas = 12 -> exists m, getitem masses 12 = Ok m) ->
  exists v, hvapfunc fexp fpow igas temp masses = Ok v.
Proof.
  intros Hm. unfold hvapfunc.
  destruct (igas =? 9) eqn:E9.
  { destruct (fdiv_nonzero temp 647) as (q & -> & _); [intros H; discriminate H|].
    rewrite bind_ok. destruct (flt temp (Fin 647)); rewrite bind_ok;
      eexists; reflexivity. }
  destruct (igas =? 10) eqn:E10.
  { destruct (fdiv_nonzero temp 191) as (q & -> & _); [intros H; discriminate H|].
    rewrite bind_ok. destruct (flt temp (Fin 191)); rewrite bind_ok;
      eexists; reflexivity. }
  destruct (igas =? 12) eqn:E12.
  { apply Z.eqb_eq in E12. destruct (Hm E12) as [m Em]. subst igas.
    rewrite Em, bind_ok. destruct (flt temp (Fin 406)).
    - destruct (fdiv_nonzero
                  (fsub (fmul (Fin (13791 # 100))
                           (fpow (fsub (Fin 133) (fsub temp (Fin 273))) (Fin (5 # 10))))
                        (fmul (Fin (2466 # 1000)) (fsub (Fin 133) (fsub temp (Fin 273)))))
                  1000) as (q & -> & _); [intros H; discriminate|].
      rewrite !bind_ok. eexists; reflexivity.
    - rewrite bind_ok. eexists; reflexivity. }
  destruct (igas =? 18); rewrite bind_ok; eexists; reflexivity.
Qed.

(** X13: [hvapfunc] fails in one case only: for ammonia (gas 12) when
    the list of molar masses has no entry 12, with [IndexError], at any
    temperature.  It returns zero at and above the critical temperature
    of water (647), methane (191) and ammonia (406), for a temperature
    that is not a number, and for every gas other than 9, 10, 12 and 18;
    for iron (18) it returns 3.5e12 at every temperature. *)
Theorem hvapfunc_spec (igas : Z) (temp : float) (masses : list float) :
  let zero := Ok (fmul (Fin 0) (Fin 10000000000)) in
  ((exists e, hvapfunc fexp fpow igas temp masses = Raise e) <->
   igas = 12 /\ getitem masses 12 = Raise IndexError)
  /\ (forall e, hvapfunc fexp fpow igas temp masses = Raise e -> e = IndexError)
  /\ (igas = 9 -> flt temp (Fin 647) = false ->
      hvapfunc fexp fpow igas temp masses = zero)
  /\ (igas = 10 -> flt temp (Fin 191) = false ->
      hvapfunc fexp fpow igas temp masses = zero)
  /\ (igas = 12 -> flt temp (Fin 406) = false ->
      (exists m, getitem masses 12 = Ok m) ->
      hvapfunc fexp fpow igas temp masses = zero)
  /\ (igas = 18 ->
      hvapfunc fexp fpow igas temp masses = Ok (fmul (Fin 350) (Fin 10000000000)))
  /\ (igas <> 9 -> igas <> 10 -> igas <> 12 -> igas <> 18 ->
      hvapfunc fexp fpow igas temp masses = zero).
Proof.
  intros zero.
  assert (forall e, hvapfunc fexp fpow igas temp masses = Raise e ->
                    e = IndexError /\ igas = 12
                    /\ getitem masses 12 = Raise IndexError) as Hraise.
  { intros e He.
    destruct (decide (igas = 12)) as [->|Hne].
    - destruct (getitem masses 12) as [m|e'] eqn:Em.
      + destruct (hvapfunc_Ok 12 temp masses) as [v Hv]; [eauto|]. congruence.
      + pose proof (getitem_raises _ _ _ Em) as ->.
        unfold hvapfunc in He. cbn in He. rewrite Em in He. cbn in He.
        split; [congruence | split; reflexivity].
    - destruct (hvapfunc_Ok igas temp masses) as [v Hv]; [tauto|]. congruence. }
  split; [split|split; [|repeat split]].
  - intros [e He]. destruct (Hraise e He) as (_ & H12 & Hm). split; assumption.
  - intros [-> Hm]. exists IndexError. unfold hvapfunc. cbn. rewrite Hm. reflexivity.
  - intros e He. destruct (Hraise e He) as (-> & _). reflexivity.
  - intros -> Hc. unfold hvapfunc. cbn [Z.eqb Pos.eqb]. rewrite Hc.
    destruct temp as [T|s|]; reflexivity.
  - intros -> Hc. unfold hvapfunc. cbn [Z.eqb Pos.eqb]. rewrite Hc.
    destruct temp as [T|s|]; reflexivity.
  - intros -> Hc [m Hm]. unfold hvapfunc. cbn [Z.eqb Pos.eqb]. rewrite Hm, bind_ok, Hc.
    reflexivity.
  - intros ->. reflexivity.
  - intros H9 H10 H12 H18. unfold hvapfunc.
    apply Z.eqb_neq in H9, H10, H12, H18. rewrite H9, H10, H12, H18. reflexivity.
Qed.

End HvapProperties.

(** ** MoistAdiabat: moist_grad *)

Section MoistGradProperties.

Variable fexp : float -> float.
Variable fpow : float -> float -> float.
Variable log10 pow10 : float -> float.
Variable np_divide np_floor_divide : float -> float -> float.
Variable molecular_opa : Z -> pyres (list float).

Lemma heat_step_ok (t : float) (i : Z) (dH : list float) :
  0 <= i < 4 -> length dH = 4%nat ->
  exists dH', heat_step fexp fpow t i dH = Ok dH' /\ length dH' = 4%nat.
Proof.
  intros Hi HdH.
  assert (forall (x : float) (l : list float), length l = 4%nat ->
            exists l', (d ← getitem l i; setitem l i (fadd d x)) = Ok l'
                       /\ length l' = 4%nat) as Hstore.
  { intros x l Hl. destruct (getitem_lookup l i) as (d & _ & ->); [lia|].
    rewrite bind_ok, setitem_nonneg by lia. eexists; split; [reflexivity|].
    rewrite length_insert. exact Hl. }
  assert (forall l : list float, length l = 4%nat ->
            exists l', (tf ← getitem Tfr i;
                        if flt t tf then
                          d ← getitem l i; hf ← getitem hfus i;
                          setitem l i (fadd d hf)
                        else Ok l) = Ok l' /\ length l' = 4%nat) as Hfus.
  { intros l Hl. destruct (getitem_lookup Tfr i) as (tf & _ & ->); [cbn; lia|].
    rewrite bind_ok. destruct (flt t tf); [|eauto].
    destruct (getitem_lookup hfus i) as (hf & _ & Ehf); [cbn; lia|].
    destruct (Hstore hf l Hl) as (l' & El' & Hl').
    exists l'. split; [|exact Hl'].
    destruct (getitem l i) as [d|e]; [|discriminate].
    rewrite bind_ok in El' |- *. rewrite Ehf, bind_ok. exact El'. }
  unfold heat_step.
  destruct (getitem_lookup Tcrit i) as (tc & _ & ->); [cbn; lia|].
  rewrite bind_ok. destruct (flt t tc).
  - destruct (getitem_lookup icond i) as (ig & Hig & Eig); [cbn; lia|].
    destruct (hvapfunc_Ok fexp fpow ig t mmw) as [h Eh].
    { intros _. eexists; reflexivity. }
    destruct (Hstore h dH HdH) as (l' & El' & Hl').
    destruct (getitem dH i) as [d|e]; [|discriminate].
    rewrite bind_ok in El'. rewrite bind_ok, Eig, bind_ok, Eh, bind_ok, El', bind_ok.
    apply Hfus. exact Hl'.
  - rewrite bind_ok. apply Hfus. exact HdH.
Qed.

Lemma heat_loop_ok (t : float) :
  exists dH, for_range 0 ncond (heat_step fexp fpow t) (replicate 4 (Fin 0)) = Ok dH.
Proof.
  pose proof (for_range_inv (fun dH : list float => length dH = 4%nat)
                (fun _ => False) 0 ncond (heat_step fexp fpow t)
                (replicate 4 (Fin 0))) as H.
  destruct (for_range 0 ncond (heat_step fexp fpow t) (replicate 4 (Fin 0))) as [dH|e].
  - eexists; reflexivity.
  - exfalso. apply H; [reflexivity|].
    intros k s Hk Hs. destruct (heat_step_ok t k s) as (s' & -> & Hs');
      [unfold ncond in Hk; lia | exact Hs | exact Hs'].
Qed.

Lemma read_abundances_cases :
  (exists v0 v3 v4 v14,
      molecular_opa 0 = PyOk v0 /\ molecular_opa 3 = PyOk v3
      /\ molecular_opa 4 = PyOk v4 /\ molecular_opa 14 = PyOk v14
      /\ read_abundances molecular_opa = PyOk ((((([] ++ v0) ++ v3) ++ v4) ++ v14)))
  \/ (exists k e, In k [0; 3; 4; 14] /\ molecular_opa k = PyRaise e
                  /\ read_abundances molecular_opa = PyRaise e).
Proof.
  unfold read_abundances. cbn [py_for].
  destruct (molecular_opa 0) as [v0|e] eqn:E0.
  2:{ right. exists 0, e. split; [cbn; tauto | split; [exact E0 | reflexivity]]. }
  cbn [mbind pyres_bind].
  destruct (molecular_opa 3) as [v3|e] eqn:E3.
  2:{ right. exists 3, e. split; [cbn; tauto | split; [exact E3 | reflexivity]]. }
  cbn [mbind pyres_bind].
  destruct (molecular_opa 4) as [v4|e] eqn:E4.
  2:{ right. exists 4, e. split; [cbn; tauto | split; [exact E4 | reflexivity]]. }
  cbn [mbind pyres_bind].
  destruct (molecular_opa 14) as [v14|e] eqn:E14.
  2:{ right. exists 14, e. split; [cbn; tauto | split; [exact E14 | reflexivity]]. }
  left. exists v0, v3, v4, v14. repeat split.
Qed.

(** X14: [moist_grad] never returns a gradient.  Once the four lookups
    in the opacity database have succeeded it raises [TypeError], for
    every temperature, pressure and table: line 1623 calls the array
    [output_abunds] instead of indexing it.  The only other outcome is
    the exception of a lookup that failed. *)
Theorem moist_grad_raises (t p : float) (t_table p_table : list float)
    (grad cp : list (list float)) :
  let run := moist_grad fexp fpow log10 pow10 np_divide np_floor_divide
               molecular_opa t p t_table p_table grad cp in
  (forall r, run <> PyOk r)
  /\ ((forall k, In k [0; 3; 4; 14] -> exists v, molecular_opa k = PyOk v) ->
      run = PyRaise TypeError)
  /\ (forall e, run = PyRaise e ->
      e = TypeError \/ exists k, In k [0; 3; 4; 14] /\ molecular_opa k = PyRaise e).
Proof.
  intros run.
  assert (match read_abundances molecular_opa with
          | PyOk _ => run = PyRaise TypeError
          | PyRaise e => run = PyRaise e
          end) as Hrun.
  { unfold run, moist_grad. change (zeros (Fin 0) ncond) with (Ok (replicate 4 (Fin 0))).
    cbn [lift mbind pyres_bind]. destruct (heat_loop_ok t) as [dH ->].
    cbn [lift]. destruct (read_abundances molecular_opa) as [ab|e]; reflexivity. }
  destruct read_abundances_cases as [(v0 & v3 & v4 & v14 & E0 & E3 & E4 & E14 & Hab)
                                    |(k & e & Hk & Ek & Hab)];
    rewrite Hab in Hrun.
  - repeat split.
    + intros r Hr. congruence.
    + intros _. exact Hrun.
    + intros e He. left. congruence.
  - repeat split.
    + intros r Hr. congruence.
    + intros Hall. destruct (Hall k Hk) as [v Hv]. congruence.
    + intros e' He'. right. exists k. split; [exact Hk|]. congruence.
Qed.

End MoistGradProperties.

(** ** NewtonSolver: the step length of the line search *)

Lemma fmax_capped (a : Q) (tmplam : float) :
  (0 < a)%Q ->
  fgt tmplam (Fin ((1 # 2) * a)) = false ->
  match tmplam with
  | NaN => fmax tmplam (Fin ((1 # 10) * a)) = NaN
  | _ => exists q, fmax tmplam (Fin ((1 # 10) * a)) = Fin q
                   /\ ((1 # 10) * a <= q)%Q /\ (q <= (1 # 2) * a)%Q
  end.
Proof.
  intros Ha Hcap. unfold fmax, fgt in *. destruct tmplam as [t|s|]; cbn [flt] in *.
  - apply not_true_iff_false in Hcap. rewrite Qlt_bool_iff in Hcap.
    destruct (Qlt_bool t ((1 # 10) * a)) eqn:E.
    + apply Qlt_bool_iff in E. eexists. split; [reflexivity|]. split; lra.
    + apply not_true_iff_false in E. rewrite Qlt_bool_iff in E.
      eexists. split; [reflexivity|]. split; lra.
  - destruct s; [|discriminate]. eexists. split; [reflexivity|]. split; lra.
  - reflexivity.
Qed.

(** X15: what a backtracking pass of the line search does to the step
    length [alam], a positive number.  After the first pass ([alam] is
    not 1) the new step [max(tmplam, 0.1*alam)] lies between a tenth and
    a half of the old one, unless [tmplam] is not a number.  In the
    first pass ([alam == 1.0]) the cap at [0.5*alam] is not applied;
    for a descent direction ([slope < 0]) that failed the test
    [f <= f_old + alf*alam*slope], the new step is at least 0.1 and
    below 5000/9999, and the division does not fail. *)
Theorem backtrack_step (fsqrt : float -> float) (a : Q)
    (alam2 f f2 f_old slope : float) :
  (0 < a)%Q ->
  let alam := Fin a in
  let next tmplam := fmax tmplam (fmul (Fin (1 # 10)) alam) in
  (feq alam (Fin 1) = false ->
   forall tmplam, backtrack fsqrt alam alam2 f f2 f_old slope = Ok tmplam ->
   match tmplam with
   | NaN => next tmplam = NaN
   | _ => exists q, next tmplam = Fin q /\ ((1 # 10) * a <= q)%Q /\ (q <= (1 # 2) * a)%Q
   end)
  /\ (feq alam (Fin 1) = true ->
      forall x y s : Q, f = Fin x -> f_old = Fin y -> slope = Fin s ->
      (s < 0)%Q ->
      fle f (fadd f_old (fmul (fmul alf alam) slope)) = false ->
      exists tmplam q,
        backtrack fsqrt alam alam2 f f2 f_old slope = Ok tmplam
        /\ next tmplam = Fin q /\ (1 # 10 <= q)%Q /\ (q < 5000 # 9999)%Q).
Proof.
  intros Ha alam next. split.
  - intros Hne tmplam Hrun. unfold backtrack in Hrun. fold alam in Hrun.
    rewrite Hne in Hrun.
    cbv zeta in Hrun.
    apply bind_Ok in Hrun as (q1 & _ & Hrun).
    apply bind_Ok in Hrun as (q2 & _ & Hrun).
    apply bind_Ok in Hrun as (anr & _ & Hrun).
    apply bind_Ok in Hrun as (q1' & _ & Hrun).
    apply bind_Ok in Hrun as (q2' & _ & Hrun).
    apply bind_Ok in Hrun as (b & _ & Hrun).
    apply bind_Ok in Hrun as (t0 & _ & Hrun).
    unfold next, alam in *. cbn [fmul] in *.
    destruct (fgt t0 (Fin ((1 # 2) * a))) eqn:Hcap; injection Hrun as <-.
    + apply (fmax_capped a (Fin ((1 # 2) * a)) Ha).
      unfold fgt. cbn [flt]. apply not_true_iff_false. rewrite Qlt_bool_iff. lra.
    + exact (fmax_capped a t0 Ha Hcap).
  - intros Hone x y s -> -> -> Hs Hfail.
    unfold alam in *. cbn [feq] in Hone. apply Qeq_bool_iff in Hone.
    unfold alf in Hfail. cbn [fmul fadd fle] in Hfail.
    apply not_true_iff_false in Hfail. rewrite Qle_bool_iff in Hfail.
    assert (y + (1 # 10000) * a * s < x)%Q as Hx by lra.
    assert (- s * (19998 # 10000) < 2 * (x - y - s))%Q as Hd.
    { assert (a * s == s)%Q as Has by (rewrite Hone; ring). nra. }
    assert (0 < 2 * (x - y - s))%Q as Hpos by lra.
    unfold backtrack.
    replace (feq (Fin a) (Fin 1)) with true
      by (symmetry; cbn [feq]; apply Qeq_bool_iff; exact Hone).
    cbn [fneg fsub fmul fdiv].
    replace (Qeq_bool (2 * (x - y - s)) 0) with false.
    2:{ symmetry. apply not_true_iff_false. rewrite Qeq_bool_iff. lra. }
    assert (0 < - s / (2 * (x - y - s)))%Q as Hlo.
    { apply Qlt_shift_div_l; [exact Hpos | lra]. }
    assert (- s / (2 * (x - y - s)) < 5000 # 9999)%Q as Hhi.
    { apply Qlt_shift_div_r; [exact Hpos | lra]. }
    exists (Fin (- s / (2 * (x - y - s)))).
    unfold next, fmax, fgt. cbn [fmul flt].
    destruct (Qlt_bool (- s / (2 * (x - y - s))) ((1 # 10) * a)) eqn:E.
    + eexists. split; [reflexivity|]. split; [reflexivity|]. split; lra.
    + apply not_true_iff_false in E. rewrite Qlt_bool_iff in E.
      eexists. split; [reflexivity|]. split; [reflexivity|]. split; lra.
Qed.

Lemma backtrack_step_witness :
  exists q,
    backtrack same (Fin (1 # 2)) (Fin 1) (Fin 1) (Fin 1) (Fin 1) (Fin (-1))
    = Ok (Fin (128 # 768))
    /\ fmax (Fin (128 # 768)) (fmul (Fin (1 # 10)) (Fin (1 # 2))) = Fin q
    /\ ((1 # 10) * (1 # 2) <= q)%Q /\ (q <= (1 # 2) * (1 # 2))%Q.
Proof.
  assert (backtrack same (Fin (1 # 2)) (Fin 1) (Fin 1) (Fin 1) (Fin 1) (Fin (-1))
          = Ok (Fin (128 # 768))) as Hrun.
  { vm_compute. reflexivity. }
  destruct (backtrack_step same (1 # 2) (Fin 1) (Fin 1) (Fin 1) (Fin 1) (Fin (-1)))
    as [Hlater _]; [reflexivity|].
  destruct (Hlater eq_refl _ Hrun) as (q & Hq & Hb).
  exists q. split; [exact Hrun | split; [exact Hq | exact Hb]].
Defined.

(** ** LinearSolver: what the solver computes *)

Lemma Qsum_empty (lo hi : Z) (f : Z -> Q) : hi <= lo -> Qsum lo hi f = 0%Q.
Proof. intros H. unfold Qsum. replace (Z.to_nat (hi - lo)) with 0%nat by lia. reflexivity. Qed.

Lemma Qsum_last (lo k : Z) (f : Z -> Q) :
  lo <= k -> Qsum lo (k + 1) f = (Qsum lo k f + f k)%Q.
Proof.
  intros H. unfold Qsum.
  replace (Z.to_nat (k + 1 - lo)) with (S (Z.to_nat (k - lo))) by lia.
  cbn [Qsum_n]. replace (lo + Z.of_nat (Z.to_nat (k - lo))) with k by lia.
  reflexivity.
Qed.

Lemma Qsum_n_ext (lo : Z) (len : nat) (f g : Z -> Q) :
  (forall k, lo <= k < lo + Z.of_nat len -> (f k == g k)%Q) ->
  (Qsum_n lo len f == Qsum_n lo len g)%Q.
Proof.
  induction len as [|m IH]; intros H; cbn [Qsum_n]; [reflexivity|].
  rewrite IH by (intros k Hk; apply H; lia).
  rewrite (H (lo + Z.of_nat m)) by lia. reflexivity.
Qed.

Lemma Qsum_ext (lo hi : Z) (f g : Z -> Q) :
  (forall k, lo <= k < hi -> (f k == g k)%Q) -> (Qsum lo hi f == Qsum lo hi g)%Q.
Proof. intros H. apply Qsum_n_ext. intros k Hk. apply H. lia. Qed.

Lemma Qsum_zero (lo hi : Z) (f : Z -> Q) :
  (forall k, lo <= k < hi -> (f k == 0)%Q) -> (Qsum lo hi f == 0)%Q.
Proof.
  intros H. unfold Qsum.
  assert (forall k, lo <= k < lo + Z.of_nat (Z.to_nat (hi - lo)) -> (f k == 0)%Q) as H'
    by (intros k Hk; apply H; lia).
  clear H. induction (Z.to_nat (hi - lo)) as [|m IH]; cbn [Qsum_n]; [reflexivity|].
  rewrite IH by (intros k Hk; apply H'; lia).
  rewrite (H' (lo + Z.of_nat m)) by lia. reflexivity.
Qed.

Lemma Qsum_n_add (lo : Z) (len : nat) (f g : Z -> Q) :
  (Qsum_n lo len (fun k => f k + g k) == Qsum_n lo len f + Qsum_n lo len g)%Q.
Proof. induction len as [|m IH]; cbn [Qsum_n]; [reflexivity | rewrite IH; ring]. Qed.

Lemma Qsum_add (lo hi : Z) (f g : Z -> Q) :
  (Qsum lo hi (fun k => f k + g k) == Qsum lo hi f + Qsum lo hi g)%Q.
Proof. apply Qsum_n_add. Qed.

Lemma Qsum_n_scale (lo : Z) (len : nat) (c : Q) (f : Z -> Q) :
  (Qsum_n lo len (fun k => c * f k) == c * Qsum_n lo len f)%Q.
Proof. induction len as [|m IH]; cbn [Qsum_n]; [ring | rewrite IH; ring]. Qed.

Lemma Qsum_scale (lo hi : Z) (c : Q) (f : Z -> Q) :
  (Qsum lo hi (fun k => c * f k) == c * Qsum lo hi f)%Q.
Proof. apply Qsum_n_scale. Qed.

Lemma Qsum_n_app (lo : Z) (m p : nat) (f : Z -> Q) :
  (Qsum_n lo (m + p) f == Qsum_n lo m f + Qsum_n (lo + Z.of_nat m) p f)%Q.
Proof.
  induction p as [|p IH].
  - rewrite Nat.add_0_r. cbn [Qsum_n]. ring.
  - replace (m + S p)%nat with (S (m + p)) by lia. cbn [Qsum_n]. rewrite IH.
    replace (lo + Z.of_nat (m + p)) with (lo + Z.of_nat m + Z.of_nat p) by lia. ring.
Qed.

Lemma Qsum_split (lo m hi : Z) (f : Z -> Q) :
  lo <= m <= hi -> (Qsum lo hi f == Qsum lo m f + Qsum m hi f)%Q.
Proof.
  intros H. unfold Qsum.
  replace (Z.to_nat (hi - lo)) with (Z.to_nat (m - lo) + Z.to_nat (hi - m))%nat by lia.
  rewrite Qsum_n_app. replace (lo + Z.of_nat (Z.to_nat (m - lo))) with m by lia.
  reflexivity.
Qed.

Lemma Qsum_first (lo hi : Z) (f : Z -> Q) :
  lo < hi -> (Qsum lo hi f == f lo + Qsum (lo + 1) hi f)%Q.
Proof.
  intros H. rewrite (Qsum_split lo (lo + 1) hi) by lia.
  rewrite Qsum_last by lia. rewrite Qsum_empty by lia. ring.
Qed.

Lemma Qsum_n_swap (lo lo' : Z) (len len' : nat) (f : Z -> Z -> Q) :
  (Qsum_n lo len (fun i => Qsum_n lo' len' (fun j => f i j))
   == Qsum_n lo' len' (fun j => Qsum_n lo len (fun i => f i j)))%Q.
Proof.
  induction len as [|m IH]; cbn [Qsum_n].
  - symmetry. clear. induction len' as [|p IH]; cbn [Qsum_n]; [reflexivity|].
    rewrite IH. ring.
  - rewrite IH. rewrite <- Qsum_n_add. reflexivity.
Qed.

Lemma Qsum_swap (lo hi lo' hi' : Z) (f : Z -> Z -> Q) :
  (Qsum lo hi (fun i => Qsum lo' hi' (fun j => f i j))
   == Qsum lo' hi' (fun j => Qsum lo hi (fun i => f i j)))%Q.
Proof. apply Qsum_n_swap. Qed.

(** A sum over the indices from [k] on, and over those up to [c]. *)
Lemma Qsum_from (lo hi k : Z) (f : Z -> Q) :
  lo <= k <= hi ->
  (Qsum lo hi (fun c => if k <=? c then f c else 0) == Qsum k hi f)%Q.
Proof.
  intros H. rewrite (Qsum_split lo k hi) by lia.
  rewrite Qsum_zero.
  - rewrite Qplus_0_l. apply Qsum_ext. intros c Hc.
    replace (k <=? c) with true by (symmetry; apply Z.leb_le; lia). reflexivity.
  - intros c Hc. replace (k <=? c) with false by (symmetry; apply Z.leb_gt; lia).
    reflexivity.
Qed.

Lemma Qsum_upto (lo hi c : Z) (f : Z -> Q) :
  lo <= c + 1 <= hi ->
  (Qsum lo hi (fun k => if k <=? c then f k else 0) == Qsum lo (c + 1) f)%Q.
Proof.
  intros H. rewrite (Qsum_split lo (c + 1) hi) by lia.
  rewrite (Qsum_zero (c + 1) hi).
  - rewrite Qplus_0_r. apply Qsum_ext. intros k Hk.
    replace (k <=? c) with true by (symmetry; apply Z.leb_le; lia). reflexivity.
  - intros k Hk. replace (k <=? c) with false by (symmetry; apply Z.leb_gt; lia).
    reflexivity.
Qed.

Lemma val_entry (a : matrix) (i c : Z) (q : Q) :
  entry a i c = Some (Fin q) -> val a i c = q.
Proof. intros H. unfold val. rewrite H. reflexivity. Qed.

Lemma val_frame (a a' : matrix) (i c : Z) :
  entry a' i c = entry a i c -> val a' i c = val a i c.
Proof. intros H. unfold val. rewrite H. reflexivity. Qed.

Section Values.

Variable sh : list nat.
Variable n : Z.
Hypothesis sh_covers : covers sh n.

Lemma good_getv (j : Z) (a : matrix) (i c : Z) :
  good sh j a -> 0 <= i < n -> 0 <= c < n ->
  getitem2 a i c = Ok (Fin (val a i c)) /\ entry a i c = Some (Fin (val a i c)).
Proof using sh_covers.
  intros Ha Hi Hc. destruct (good_get sh n sh_covers j a i c Ha Hi Hc) as (q & Hg & He).
  rewrite (val_entry _ _ _ _ He). split; assumption.
Qed.

Lemma good_setv (j : Z) (a : matrix) (i c : Z) (q : Q) :
  good sh j a -> 0 <= i < n -> 0 <= c < n -> j <= i \/ j <= c ->
  exists a', setitem2 a i c (Fin q) = Ok a' /\ good sh j a'
    /\ val a' i c = q
    /\ (forall k l, 0 <= k -> 0 <= l -> k <> i \/ l <> c -> entry a' k l = entry a k l).
Proof using sh_covers.
  intros Ha Hi Hc Hj.
  destruct (good_set sh n sh_covers j a i c q Ha Hi Hc Hj) as (a' & Hs & Ha' & He & Hf).
  exists a'. split; [exact Hs|]. split; [exact Ha'|].
  split; [apply val_entry, He | exact Hf].
Qed.

Lemma lu_dot_val (j : Z) (a : matrix) (i c kmax : Z) (q : Q) :
  good sh j a -> 0 <= i < n -> 0 <= c < n -> 0 <= kmax <= n ->
  exists q', lu_dot a i c kmax (Fin q) = Ok (Fin q')
             /\ (q' == q - Qsum 0 kmax (fun k => val a i k * val a k c))%Q.
Proof using sh_covers.
  intros Ha Hi Hc Hk. unfold lu_dot.
  loop_with (fun s : float => exists q', s = Fin q'
               /\ (q' == q - Qsum 0 kmax (fun k => val a i k * val a k c))%Q).
  - apply (for_range_sat (fun k (s : float) => exists q', s = Fin q'
               /\ (q' == q - Qsum 0 k (fun k => val a i k * val a k c))%Q));
      [lia | |].
    + exists q. split; [reflexivity|]. rewrite Qsum_empty by lia. ring.
    + intros k s Hk' (q' & -> & Hq').
      destruct (good_getv j a i k Ha) as [-> _]; [lia..|]. rewrite bind_ok.
      destruct (good_getv j a k c Ha) as [-> _]; [lia..|]. rewrite bind_ok.
      cbn. eexists. split; [reflexivity|].
      rewrite Qsum_last by lia. rewrite Hq'. ring.
  - destruct Hloop as (s & -> & q' & -> & Hq'). eauto.
Qed.

Lemma lu_upper_val (j : Z) (a : matrix) :
  good sh j a -> 0 <= j < n ->
  exists a', lu_upper a j = Ok a' /\ good sh j a'
    /\ (forall r c, 0 <= r -> 0 <= c -> c <> j \/ j <= r -> entry a' r c = entry a r c)
    /\ (forall r, 0 <= r < j ->
          (val a' r j + Qsum 0 r (fun k => val a' r k * val a' k j) == val a r j)%Q).
Proof using sh_covers.
  intros Ha Hj. unfold lu_upper. apply res_sat_ok.
  eapply res_sat_weaken;
    [apply (for_range_sat (fun i a' =>
       good sh j a'
       /\ (forall r c, 0 <= r -> 0 <= c -> c <> j \/ i <= r -> entry a' r c = entry a r c)
       /\ (forall r, 0 <= r < i ->
             (val a' r j + Qsum 0 r (fun k => val a' r k * val a' k j) == val a r j)%Q))
       (fun _ => False)) | |]; [lia | | | |].
  - split; [exact Ha|]. split; [reflexivity | intros r Hr; lia].
  - intros i a0 Hi (Ha0 & Hfr & Heq).
    destruct (good_getv j a0 i j Ha0) as [-> _]; [lia..|]. rewrite bind_ok.
    destruct (lu_dot_val j a0 i j i (val a0 i j) Ha0) as (s & -> & Hs); [lia..|].
    rewrite bind_ok.
    destruct (good_setv j a0 i j s Ha0) as (a1 & -> & Ha1 & Hv & Hoth); [lia..|].
    cbn [res_sat]. split; [exact Ha1|]. split.
    + intros r c Hr Hc Hrc. rewrite Hoth by lia. apply Hfr; lia.
    + intros r Hr.
      assert (Qsum 0 r (fun k => val a1 r k * val a1 k j)
              == Qsum 0 r (fun k => val a0 r k * val a0 k j))%Q as Hsum.
      { apply Qsum_ext. intros k Hk.
        rewrite (val_frame a0 a1 r k) by (apply Hoth; lia).
        rewrite (val_frame a0 a1 k j) by (apply Hoth; lia). reflexivity. }
      rewrite Hsum. destruct (decide (r = i)) as [->|Hne].
      * rewrite Hv, Hs. rewrite (val_frame a a0 i j) by (apply Hfr; lia). ring.
      * rewrite (val_frame a0 a1 r j) by (apply Hoth; lia). apply Heq. lia.
  - intros a' (Ha' & Hfr & Heq). split; [exact Ha'|]. split; [|exact Heq].
    intros r c Hr Hc Hrc. apply Hfr; lia.
  - tauto.
Qed.

Hypothesis n_max : n <= NMAX.

Lemma lu_pivot_val (j : Z) (a : matrix) (vv : list float) (imax : option Z) :
  good sh j a -> vv_good vv -> 0 <= j < n ->
  exists a' im, lu_pivot a vv j n imax = Ok (a', Some im)
    /\ good sh j a' /\ j <= im < n
    /\ (forall r c, 0 <= r -> 0 <= c -> c <> j \/ r < j -> entry a' r c = entry a r c)
    /\ (forall r, j <= r < n ->
          (val a' r j == val a r j - Qsum 0 j (fun k => val a r k * val a k j))%Q).
Proof using sh_covers n_max.
  intros Ha Hvv Hj. unfold lu_pivot.
  loop_with (fun '((a', aamax, imax') : matrix * float * option Z) =>
    good sh j a' /\ (exists im : Z, imax' = Some im /\ j <= im < n)
    /\ (forall r c, 0 <= r -> 0 <= c -> c <> j \/ r < j -> entry a' r c = entry a r c)
    /\ (forall r, j <= r < n ->
          (val a' r j == val a r j - Qsum 0 j (fun k => val a r k * val a k j))%Q)).
  - eapply res_sat_weaken;
      [apply (for_range_sat (fun i '((a', aamax, imax') : matrix * float * option Z) =>
         good sh j a'
         /\ (exists m, aamax = Fin m /\ (0 <= m)%Q /\ (i = j -> (m == 0)%Q))
         /\ (j < i -> exists im : Z, imax' = Some im /\ j <= im < i)
         /\ (forall r c, 0 <= r -> 0 <= c -> c <> j \/ r < j \/ i <= r ->
               entry a' r c = entry a r c)
         /\ (forall r, j <= r < i ->
               (val a' r j == val a r j - Qsum 0 j (fun k => val a r k * val a k j))%Q))
         (fun _ => False)) | | ]; [lia | | | |].
    + split; [exact Ha|]. split; [|split; [lia|split; [reflexivity | intros; lia]]].
      exists 0%Q. split; [reflexivity|]. split; [lra | reflexivity].
    + intros i [[a0 aamax] imax0] Hi (Ha0 & (m & -> & Hm & Hm0) & Him & Hfr & Heq).
      destruct (good_getv j a0 i j Ha0) as [-> _]; [lia..|]. rewrite bind_ok.
      destruct (lu_dot_val j a0 i j j (val a0 i j) Ha0) as (s & -> & Hs); [lia..|].
      rewrite bind_ok.
      destruct (good_setv j a0 i j s Ha0) as (a1 & -> & Ha1 & Hv & Hoth); [lia..|].
      rewrite bind_ok.
      destruct (vv_good_get n n_max vv i Hvv ltac:(lia)) as (v & -> & Hv0).
      rewrite bind_ok. cbn [fabs fmul fge fle].
      assert (0 <= v * Qabs s)%Q as Hdum.
      { apply Qmult_le_0_compat; [exact Hv0 | apply Qabs_nonneg]. }
      assert (forall r c, 0 <= r -> 0 <= c -> c <> j \/ r < j \/ i + 1 <= r ->
                entry a1 r c = entry a r c) as Hfr1.
      { intros r c Hr Hc Hrc. rewrite Hoth by lia. apply Hfr; lia. }
      assert (forall r, j <= r < i + 1 ->
                (val a1 r j == val a r j - Qsum 0 j (fun k => val a r k * val a k j))%Q)
        as Heq1.
      { intros r Hr. destruct (decide (r = i)) as [->|Hne].
        - rewrite Hv, Hs. rewrite (val_frame a a0 i j) by (apply Hfr; lia).
          apply Qplus_inj_l. apply Qopp_comp. apply Qsum_ext. intros k Hk.
          rewrite (val_frame a a0 i k) by (apply Hfr; lia).
          rewrite (val_frame a a0 k j) by (apply Hfr; lia). reflexivity.
        - rewrite (val_frame a0 a1 r j) by (apply Hoth; lia). apply Heq. lia. }
      destruct (Qle_bool m (v * Qabs s)) eqn:E; cbn [res_sat].
      * split; [exact Ha1|]. split; [|split; [|split; assumption]].
        -- exists (v * Qabs s)%Q. split; [reflexivity|]. split; [exact Hdum | intros; lia].
        -- intros _; exists i; split; [reflexivity | lia].
      * split; [exact Ha1|]. split; [|split; [|split; assumption]].
        -- exists m. split; [reflexivity|]. split; [exact Hm | intros; lia].
        -- intros _. destruct (decide (i = j)) as [->|Hne].
           ++ exfalso. specialize (Hm0 eq_refl).
              assert (Qle_bool m (v * Qabs s) = true) as E'
                by (apply Qle_bool_iff; lra).
              congruence.
           ++ destruct Him as (im & -> & Him); [lia|].
              exists im. split; [reflexivity | lia].
    + intros [[a0 aamax] imax0] (Ha0 & _ & Him & Hfr & Heq). split; [exact Ha0|].
      split; [apply Him; lia|]. split; [|exact Heq].
      intros r c Hr Hc Hrc. apply Hfr; lia.
    + tauto.
  - destruct Hloop as ([[a' aamax] imax'] & -> & Ha' & (im & -> & Him) & Hfr & Heq).
    rewrite bind_ok. eauto 10.
Qed.

Lemma transp_cases (i j r : Z) :
  (r = i /\ transp i j r = j) \/ (r <> i /\ r = j /\ transp i j r = i)
  \/ (r <> i /\ r <> j /\ transp i j r = r).
Proof.
  unfold transp. destruct (Z.eqb_spec r i); [tauto|].
  destruct (Z.eqb_spec r j); tauto.
Qed.

Lemma lu_swap_val (j im : Z) (a : matrix) :
  good sh j a -> 0 <= j < n -> j <= im < n ->
  exists a', lu_swap a n im j = Ok a' /\ good sh j a'
    /\ (forall r c, 0 <= r < n -> 0 <= c < n -> val a' r c = val a (transp j im r) c)
    /\ (forall r c, 0 <= r -> 0 <= c -> r <> j -> r <> im -> entry a' r c = entry a r c).
Proof using sh_covers.
  intros Ha Hj Him. unfold lu_swap. apply res_sat_ok.
  eapply res_sat_weaken;
    [apply (for_range_sat (fun k a' =>
       good sh j a'
       /\ (forall c, 0 <= c < k -> val a' j c = val a im c /\ val a' im c = val a j c)
       /\ (forall r c, 0 <= r -> 0 <= c -> (r <> j /\ r <> im) \/ k <= c ->
             entry a' r c = entry a r c))
       (fun _ => False)) | |]; [lia | | | |].
  - split; [exact Ha|]. split; [intros c Hc; lia | reflexivity].
  - intros k a0 Hk (Ha0 & Hsw & Hfr).
    destruct (good_getv j a0 im k Ha0) as [-> _]; [lia..|]. rewrite bind_ok.
    destruct (good_getv j a0 j k Ha0) as [-> _]; [lia..|]. rewrite bind_ok.
    destruct (good_setv j a0 im k (val a0 j k) Ha0) as (a1 & -> & Ha1 & Hv1 & Ho1);
      [lia..|]. rewrite bind_ok.
    destruct (good_setv j a1 j k (val a0 im k) Ha1) as (a2 & -> & Ha2 & Hv2 & Ho2);
      [lia..|]. cbn [res_sat].
    split; [exact Ha2|]. split.
    + intros c Hc. destruct (decide (c = k)) as [->|Hne].
      * split.
        -- rewrite Hv2. apply val_frame, Hfr; lia.
        -- destruct (decide (im = j)) as [->|Hij].
           ++ rewrite Hv2. apply val_frame, Hfr; lia.
           ++ rewrite (val_frame a1 a2 im k) by (apply Ho2; lia).
              rewrite Hv1. apply val_frame, Hfr; lia.
      * rewrite (val_frame a1 a2 j c) by (apply Ho2; lia).
        rewrite (val_frame a0 a1 j c) by (apply Ho1; lia).
        rewrite (val_frame a1 a2 im c) by (apply Ho2; lia).
        rewrite (val_frame a0 a1 im c) by (apply Ho1; lia).
        apply Hsw. lia.
    + intros r c Hr Hc Hrc. rewrite Ho2, Ho1 by lia. apply Hfr; lia.
  - intros a' (Ha' & Hsw & Hfr). split; [exact Ha'|]. split.
    + intros r c Hr Hc.
      destruct (transp_cases j im r) as [[-> ->]|[(Hne & -> & ->)|(H1 & H2 & ->)]].
      * apply Hsw. lia.
      * apply Hsw. lia.
      * apply val_frame, Hfr; lia.
    + intros r c Hr Hc H1 H2. apply Hfr; lia.
  - tauto.
Qed.

Lemma lu_scale_val (j : Z) (a : matrix) (d : Q) :
  good sh (j + 1) a -> 0 <= j < n ->
  exists a', lu_scale a j n (Fin d) = Ok a' /\ good sh (j + 1) a'
    /\ (forall r, j < r < n -> val a' r j = (val a r j * d)%Q)
    /\ (forall r c, 0 <= r -> 0 <= c -> c <> j \/ r <= j -> entry a' r c = entry a r c).
Proof using sh_covers.
  intros Ha Hj. unfold lu_scale. apply res_sat_ok.
  eapply res_sat_weaken;
    [apply (for_range_sat (fun i a' =>
       good sh (j + 1) a'
       /\ (forall r, j < r < i -> val a' r j = (val a r j * d)%Q)
       /\ (forall r c, 0 <= r -> 0 <= c -> c <> j \/ r <= j \/ i <= r ->
             entry a' r c = entry a r c))
       (fun _ => False)) | |]; [lia | | | |].
  - split; [exact Ha|]. split; [intros r Hr; lia | reflexivity].
  - intros i a0 Hi (Ha0 & Hsc & Hfr).
    destruct (good_getv (j + 1) a0 i j Ha0) as [-> _]; [lia..|]. rewrite bind_ok.
    cbn [fmul].
    destruct (good_setv (j + 1) a0 i j (val a0 i j * d) Ha0) as (a1 & -> & Ha1 & Hv & Ho);
      [lia..|]. cbn [res_sat].
    split; [exact Ha1|]. split.
    + intros r Hr. destruct (decide (r = i)) as [->|Hne].
      * rewrite Hv. rewrite (val_frame a a0 i j) by (apply Hfr; lia). reflexivity.
      * rewrite (val_frame a0 a1 r j) by (apply Ho; lia). apply Hsc. lia.
    + intros r c Hr Hc Hrc. rewrite Ho by lia. apply Hfr; lia.
  - intros a' (Ha' & Hsc & Hfr). split; [exact Ha'|]. split; [|].
    + intros r Hr. apply Hsc. lia.
    + intros r c Hr Hc Hrc. apply Hfr; lia.
  - tauto.
Qed.

Variable cast : Z -> Z.
Hypothesis cast_exact : forall z, 0 <= z < n -> cast z = z.

Lemma transp_range (j im r : Z) :
  0 <= j < n -> j <= im < n -> 0 <= r < n ->
  0 <= transp j im r < n /\ (j <= r -> j <= transp j im r)
  /\ (r < j -> transp j im r = r).
Proof.
  intros Hj Him Hr.
  destruct (transp_cases j im r) as [[? ?]|[(? & ? & ?)|(? & ? & ?)]]; lia.
Qed.

Lemma lu_column_val (j : Z) (st : lu_state) :
  lu_inv sh n j st -> 0 <= j < n ->
  exists st' im, lu_column cast n j st = Ok st' /\ lu_inv sh n (j + 1) st'
    /\ j <= im < n
    /\ lu_indx st' = <[Z.to_nat j := im]> (lu_indx st)
    /\ (forall k, 0 <= k < j -> entry (lu_a st') k k = entry (lu_a st) k k)
    /\ (entry (lu_a st') j j <> Some TINY -> column_step n j im (lu_a st) (lu_a st')).
Proof using sh_covers n_max cast_exact.
  intros Hinv Hj.
  destruct (lu_column_ok sh n sh_covers n_max cast cast_exact j st Hinv Hj)
    as (st0 & Hrun0 & Hinv0).
  destruct st as [a vv indx imax d].
  destruct Hinv as (Ha & Hvv & Hlen & Hindx & Himax).
  cbn [lu_a lu_vv lu_indx lu_imax] in *.
  unfold lu_column in Hrun0 |- *.
  destruct (lu_upper_val j a Ha Hj) as (a1 & E1 & Ha1 & Hfr1 & Heq1).
  rewrite E1, bind_ok in Hrun0 |- *.
  destruct (lu_pivot_val j a1 vv imax Ha1 Hvv Hj) as (a2 & im & E2 & Ha2 & Him & Hfr2 & Heq2).
  rewrite E2, bind_ok in Hrun0 |- *. cbn beta iota in Hrun0 |- *.
  change (bound (Some im)) with (Ok im) in Hrun0 |- *.
  rewrite bind_ok in Hrun0 |- *.
  assert (exists a3 d3 vv3,
    (if negb (j =? im)
     then a ← lu_swap a2 n im j; vj ← getitem vv j; vv0 ← setitem vv im vj;
          Ok (a, fneg d, vv0)
     else Ok (a2, d, vv)) = Ok (a3, d3, vv3) /\ good sh j a3
    /\ (forall r c, 0 <= r < n -> 0 <= c < n -> val a3 r c = val a2 (transp j im r) c)
    /\ (forall r c, 0 <= r -> 0 <= c -> r <> j -> r <> im -> entry a3 r c = entry a2 r c))
    as (a3 & d3 & vv3 & E3 & Ha3 & Hsw & Hfr3).
  { destruct (Z.eq_dec j im) as [Heq|Hne].
    - replace (j =? im) with true by (symmetry; apply Z.eqb_eq; exact Heq). cbn [negb].
      exists a2, d, vv. split; [reflexivity|]. split; [exact Ha2|]. split; [|reflexivity].
      intros r c Hr Hc.
      destruct (transp_cases j im r) as [[? H]|[(? & ? & H)|(? & ? & H)]];
        rewrite H; f_equal; lia.
    - replace (j =? im) with false by (symmetry; apply Z.eqb_neq; exact Hne). cbn [negb].
      destruct (lu_swap_val j im a2 Ha2 Hj Him) as (a3 & -> & Ha3 & Hsw & Hfr3).
      rewrite bind_ok.
      destruct (vv_good_get n n_max vv j Hvv Hj) as (vj & -> & Hvj). rewrite bind_ok.
      destruct (vv_good_set n n_max vv im vj Hvv ltac:(lia) Hvj) as (vv3 & -> & Hvv3).
      rewrite bind_ok. eauto 10. }
  rewrite E3, bind_ok in Hrun0 |- *. cbn beta iota in Hrun0 |- *.
  rewrite setitem_nonneg in Hrun0 |- * by lia. rewrite bind_ok in Hrun0 |- *.
  rewrite cast_exact in Hrun0 |- * by lia.
  destruct (good_getv j a3 j j Ha3) as [E33 He33]; [lia..|].
  rewrite E33, bind_ok in Hrun0 |- *. cbn [feq] in Hrun0 |- *.
  assert (exists a4, (if Qeq_bool (val a3 j j) 0 then setitem2 a3 j j TINY else Ok a3) = Ok a4
            /\ good sh j a4
            /\ (forall r c, 0 <= r -> 0 <= c -> r <> j \/ c <> j ->
                  entry a4 r c = entry a3 r c)
            /\ (entry a4 j j <> Some TINY -> a4 = a3 /\ ~ (val a3 j j == 0)%Q))
    as (a4 & E4 & Ha4 & Hfr4 & Hun).
  { destruct (Qeq_bool (val a3 j j) 0) eqn:E.
    - unfold TINY.
      destruct (good_set sh n sh_covers j a3 j j (1 # 100000000000000000000) Ha3)
        as (a4 & -> & Ha4 & H4 & Ho4); [lia..|].
      exists a4. split; [reflexivity|]. split; [exact Ha4|]. split; [exact Ho4|].
      intros Hne. exfalso. apply Hne. exact H4.
    - exists a3. split; [reflexivity|]. split; [exact Ha3|]. split; [reflexivity|].
      intros _. split; [reflexivity|]. intros H0. apply Qeq_bool_iff in H0. congruence. }
  rewrite E4, bind_ok in Hrun0 |- *.
  destruct (good_getv j a4 j j Ha4) as [E44 He44]; [lia..|].
  assert (good sh (j + 1) a4 /\ ~ (val a4 j j == 0)%Q) as [Ha4' Hnz4].
  { destruct (Qeq_bool (val a3 j j) 0) eqn:E.
    - unfold TINY in E4.
      destruct (good_set sh n sh_covers j a3 j j (1 # 100000000000000000000) Ha3)
        as (a4' & E4' & _ & H4 & _); [lia..|].
      assert (a4' = a4) as -> by congruence.
      rewrite (val_entry _ _ _ _ H4).
      split; [|discriminate].
      eapply good_extend; [exact Ha4 | exact H4 | discriminate].
    - injection E4 as <-.
      assert (~ (val a3 j j == 0)%Q) as Hnz
        by (intros H0; apply Qeq_bool_iff in H0; congruence).
      split; [|exact Hnz]. eapply good_extend; [exact Ha3 | exact He33 | exact Hnz]. }
  assert (exists a5, (if negb (j =? n - 1)
                      then ajj0 ← getitem2 a4 j j; dum ← fdiv (Fin 1) ajj0;
                           lu_scale a4 j n dum
                      else Ok a4) = Ok a5
            /\ (forall r, j < r < n -> val a5 r j = (val a4 r j * (1 / val a4 j j))%Q)
            /\ (forall r c, 0 <= r -> 0 <= c -> c <> j \/ r <= j ->
                  entry a5 r c = entry a4 r c))
    as (a5 & E5 & Hsc & Hfr5).
  { destruct (Z.eq_dec j (n - 1)) as [Heq|Hne].
    - replace (j =? n - 1) with true by (symmetry; apply Z.eqb_eq; exact Heq). cbn [negb].
      exists a4. split; [reflexivity|]. split; [intros r Hr; lia | reflexivity].
    - replace (j =? n - 1) with false by (symmetry; apply Z.eqb_neq; exact Hne).
      cbn [negb]. rewrite E44, bind_ok. unfold fdiv.
      replace (Qeq_bool (val a4 j j) 0) with false
        by (symmetry; apply not_true_iff_false; rewrite Qeq_bool_iff; exact Hnz4).
      rewrite bind_ok.
      destruct (lu_scale_val j a4 (1 / val a4 j j) Ha4' Hj) as (a5 & -> & _ & Hsc & Hfr5).
      eauto. }
  rewrite E5, bind_ok in Hrun0 |- *.
  injection Hrun0 as <-. cbn [lu_a lu_indx] in *.
  eexists _, im. split; [reflexivity|]. split; [exact Hinv0|].
  split; [exact Him|]. cbn [lu_a lu_indx]. split; [reflexivity|]. split.
  { intros k Hk. rewrite Hfr5, Hfr4, Hfr3, Hfr2, Hfr1 by lia. reflexivity. }
  intros Hclean.
  assert (entry a4 j j <> Some TINY) as Hclean4.
  { rewrite <- (Hfr5 j j) by lia. exact Hclean. }
  destruct (Hun Hclean4) as [-> Hnz3]. clear Hun Hfr4 E4.
  assert (forall r c, 0 <= r < n -> 0 <= c < n -> c <> j ->
            val a5 r c = val a (transp j im r) c) as C1.
  { intros r c Hr Hc Hcj.
    destruct (transp_range j im r Hj Him Hr) as (Ht & _ & _).
    rewrite (val_frame a3 a5 r c) by (apply Hfr5; lia).
    rewrite Hsw by lia.
    rewrite (val_frame a1 a2) by (apply Hfr2; lia).
    apply val_frame, Hfr1; lia. }
  assert (forall r, 0 <= r < j -> val a5 r j = val a1 r j) as Hup.
  { intros r Hr.
    destruct (transp_range j im r Hj Him ltac:(lia)) as (_ & _ & Ht).
    rewrite (val_frame a3 a5 r j) by (apply Hfr5; lia).
    rewrite Hsw by lia. rewrite Ht by lia.
    apply val_frame, Hfr2; lia. }
  assert (forall r, j <= r < n ->
            (val a3 r j + Qsum 0 j (fun k => val a (transp j im r) k * val a5 k j)
             == val a (transp j im r) j)%Q) as Hlow.
  { intros r Hr.
    destruct (transp_range j im r Hj Him ltac:(lia)) as (Ht & Ht' & _).
    specialize (Ht' ltac:(lia)).
    rewrite Hsw by lia. rewrite Heq2 by lia.
    rewrite (val_frame a a1 (transp j im r) j) by (apply Hfr1; lia).
    assert (Qsum 0 j (fun k => val a1 (transp j im r) k * val a1 k j)
            == Qsum 0 j (fun k => val a (transp j im r) k * val a5 k j))%Q as ->.
    { apply Qsum_ext. intros k Hk.
      rewrite (val_frame a a1 (transp j im r) k) by (apply Hfr1; lia).
      rewrite Hup by lia. reflexivity. }
    ring. }
  split; [exact C1|]. split.
  - intros r Hr. rewrite Hup by lia. rewrite <- (Heq1 r) by lia.
    apply Qplus_inj_l. apply Qsum_ext. intros k Hk.
    rewrite (val_frame a a1 r k) by (apply Hfr1; lia).
    rewrite Hup by lia. reflexivity.
  - intros r Hr. rewrite <- (Hlow r Hr). apply Qplus_inj_r.
    destruct (Z.eqb_spec r j) as [->|Hne].
    + rewrite (val_frame a3 a5 j j) by (apply Hfr5; lia). ring.
    + rewrite Hsc by lia.
      rewrite (val_frame a3 a5 j j) by (apply Hfr5; lia). field. exact Hnz3.
Qed.

End Values.

Lemma transp_involutive (i j r : Z) : transp i j (transp i j r) = r.
Proof.
  unfold transp.
  destruct (Z.eqb_spec r i) as [->|H1].
  - destruct (Z.eqb_spec j i) as [->|H2]; [reflexivity|]. rewrite Z.eqb_refl. reflexivity.
  - destruct (Z.eqb_spec r j) as [->|H2].
    + rewrite Z.eqb_refl. reflexivity.
    + apply Z.eqb_neq in H1, H2. rewrite H1, H2. reflexivity.
Qed.

Lemma factored_ext (n : Z) (A : Z -> Z -> Q) (pi pi' : Z -> Z) (j : Z) (a : matrix) :
  (forall r, 0 <= r < n -> pi' r = pi r) ->
  factored n A pi j a -> factored n A pi' j a.
Proof.
  intros Hpi (HU & HL & HR). split; [|split].
  - intros r c Hr Hc Hn. rewrite Hpi by lia. apply HU; lia.
  - intros r c Hc Hr. rewrite Hpi by lia. apply HL; lia.
  - intros r c Hr Hc. rewrite Hpi by lia. apply HR; lia.
Qed.

Lemma factored_step (n : Z) (A : Z -> Z -> Q) (pi : Z -> Z) (j im : Z) (a a' : matrix) :
  0 <= j < n -> j <= im < n ->
  factored n A pi j a -> column_step n j im a a' ->
  factored n A (fun r => pi (transp j im r)) (j + 1) a'.
Proof.
  intros Hj Him (HU & HL & HR) (C1 & C2 & C3).
  assert (forall r, 0 <= r < n ->
            0 <= transp j im r < n /\ (j <= r -> j <= transp j im r)
            /\ (r < j -> transp j im r = r)) as Ht
    by (intros r Hr; apply (transp_range n j im r Hj Him Hr)).
  assert (forall r c, 0 <= r < j -> 0 <= c < n -> c <> j -> val a' r c = val a r c) as Hold.
  { intros r c Hr Hc Hcj. rewrite C1 by lia.
    destruct (Ht r ltac:(lia)) as (_ & _ & Hlt). rewrite Hlt by lia. reflexivity. }
  split; [|split].
  - intros r c Hr Hc Hn. destruct (Ht r ltac:(lia)) as (Hrange & Hge & Hlt).
    destruct (decide (c = j)) as [->|Hcj].
    + destruct (decide (r = j)) as [->|Hrj].
      * rewrite <- (HR (transp j im j) j) by lia.
        rewrite <- (C3 j ltac:(lia)). rewrite Z.eqb_refl.
        assert (Qsum 0 j (fun k => val a' j k * val a' k j)
                == Qsum 0 j (fun k => val a (transp j im j) k * val a' k j))%Q as ->.
        { apply Qsum_ext. intros k Hk. rewrite C1 by lia. reflexivity. }
        ring.
      * rewrite Hlt by lia. rewrite <- (HR r j) by lia. rewrite <- (C2 r) by lia.
        apply Qplus_inj_l. apply Qsum_ext. intros k Hk.
        rewrite Hold by lia. reflexivity.
    + rewrite Hlt by lia. rewrite <- (HU r c) by lia.
      rewrite Hold by lia.
      apply Qplus_inj_l. apply Qsum_ext. intros k Hk.
      rewrite !Hold by lia. reflexivity.
  - intros r c Hc Hr. destruct (Ht r ltac:(lia)) as (Hrange & Hge & Hlt).
    destruct (decide (c = j)) as [->|Hcj].
    + rewrite <- (HR (transp j im r) j) by lia.
      rewrite <- (C3 r ltac:(lia)).
      replace (r =? j) with false by (symmetry; apply Z.eqb_neq; lia).
      apply Qplus_inj_l. apply Qsum_ext. intros k Hk. rewrite C1 by lia. reflexivity.
    + assert (c < transp j im r < n) as Hrow.
      { destruct (Z_lt_le_dec r j) as [Hlo|Hhi]; [rewrite Hlt by lia; lia|].
        specialize (Hge Hhi). lia. }
      rewrite <- (HL (transp j im r) c) by lia.
      rewrite C1 by lia. rewrite (Hold c c) by lia.
      apply Qplus_inj_l. apply Qsum_ext. intros k Hk.
      rewrite C1 by lia. rewrite (Hold k c) by lia. reflexivity.
  - intros r c Hr Hc. destruct (Ht r ltac:(lia)) as (Hrange & _ & _).
    rewrite C1 by lia. apply HR; lia.
Qed.

Lemma row_of_insert (indx : list Z) (j k : nat) (z r : Z) :
  (j <= k)%nat -> row_of (<[k := z]> indx) j r = row_of indx j r.
Proof.
  revert r. induction j as [|j IH]; intros r Hk; cbn [row_of]; [reflexivity|].
  rewrite list_lookup_insert_ne by lia. apply IH. lia.
Qed.

Lemma row_of_onto (n : Z) (indx : list Z) (j : nat) :
  (forall k z, (k < j)%nat -> indx !! k = Some z -> Z.of_nat k <= z < n) ->
  Z.of_nat j <= n ->
  (forall r, 0 <= r < n -> 0 <= row_of indx j r < n)
  /\ (forall i, 0 <= i < n -> exists r, 0 <= r < n /\ row_of indx j r = i).
Proof.
  induction j as [|j IH]; intros Hindx Hj; cbn [row_of].
  - split; [tauto | eauto].
  - destruct IH as [Hin Hon]; [intros k z Hk; apply Hindx; lia | lia |].
    assert (forall r, 0 <= r < n ->
              0 <= transp (Z.of_nat j) (default 0 (indx !! j)) r < n) as Ht.
    { intros r Hr.
      assert (0 <= default 0 (indx !! j) < n) as Hz.
      { destruct (indx !! j) as [z|] eqn:E; simpl; [|lia].
        specialize (Hindx j z ltac:(lia) E). lia. }
      destruct (transp_cases (Z.of_nat j) (default 0 (indx !! j)) r)
        as [[? H]|[(? & ? & H)|(? & ? & H)]];
        first [lia | rewrite H; lia | exact H]. }
    split.
    + intros r Hr. apply Hin, Ht, Hr.
    + intros i Hi. destruct (Hon i Hi) as (r & Hr & <-).
      exists (transp (Z.of_nat j) (default 0 (indx !! j)) r).
      split; [apply Ht, Hr|]. rewrite transp_involutive. reflexivity.
Qed.

Section Decomposition.

Variable sh : list nat.
Variable n : Z.
Hypothesis sh_covers : covers sh n.
Hypothesis n_max : n <= NMAX.
Variable cast : Z -> Z.
Hypothesis cast_exact : forall z, 0 <= z < n -> cast z = z.

Lemma lu_decomp_with_val (a : matrix) (ntot : Z) (a' : matrix) (indx : list Z) :
  shape a = sh -> finite_matrix a -> 0 <= n ->
  lu_decomp_with cast a n ntot = Ok (a', indx) ->
  good sh n a' /\ Z.of_nat (length indx) = n
  /\ (forall k z, 0 <= k < n -> indx !! Z.to_nat k = Some z -> k <= z < n)
  /\ (untainted n a' -> factored n (val a) (row_of indx (Z.to_nat n)) n a').
Proof using sh_covers n_max cast_exact.
  intros Hsh Hfin Hn Hrun. unfold lu_decomp_with, zeros in Hrun.
  change (NMAX <? 0) with false in Hrun. cbn iota in Hrun. rewrite bind_ok in Hrun.
  replace (n <? 0) with false in Hrun by (symmetry; apply Z.ltb_ge; lia).
  cbn iota in Hrun. rewrite bind_ok in Hrun.
  assert (good sh 0 a) as Ha.
  { repeat split; try assumption. intros k Hk. lia. }
  assert (vv_good (replicate (Z.to_nat NMAX) (Fin 0))) as Hvv0.
  { split; [rewrite length_replicate; reflexivity|].
    apply Forall_replicate. exists 0%Q. split; [reflexivity | lra]. }
  pose proof (lu_scaling_spec sh n sh_covers n_max 0 a _ Ha Hvv0 Hn) as Hsc.
  destruct (lu_scaling a n (replicate (Z.to_nat NMAX) (Fin 0))) as [vv|e];
    [|discriminate Hrun].
  destruct Hsc as [Hvv _]. rewrite bind_ok in Hrun.
  assert (res_sat (fun st =>
            lu_inv sh n n st
            /\ (forall k z, 0 <= k < n -> lu_indx st !! Z.to_nat k = Some z -> k <= z < n)
            /\ (untainted n (lu_a st) ->
                factored n (val a) (row_of (lu_indx st) (Z.to_nat n)) n (lu_a st)))
            (fun _ => False)
            (for_range 0 n (lu_column cast n)
               (LU a vv (replicate (Z.to_nat n) 0) None (Fin 1)))) as Hloop.
  { apply (for_range_sat (fun j st =>
            lu_inv sh n j st
            /\ (forall k z, 0 <= k < j -> lu_indx st !! Z.to_nat k = Some z -> k <= z < n)
            /\ (untainted j (lu_a st) ->
                factored n (val a) (row_of (lu_indx st) (Z.to_nat j)) j (lu_a st))));
      [lia | |].
    - split; [|split].
      + repeat split; cbn [lu_a lu_vv lu_indx lu_imax]; try apply Ha; try apply Hvv.
        * rewrite length_replicate. lia.
        * apply Forall_forall. intros z Hz. apply elem_of_replicate in Hz as [-> Hz]. lia.
        * discriminate.
        * discriminate.
      + intros k z Hk. lia.
      + intros _. cbn [lu_a lu_indx]. split; [|split].
        * intros r c Hr Hc. lia.
        * intros r c Hc. lia.
        * intros r c Hr Hc. reflexivity.
    - intros j st Hj (Hinv & Hindx & Hfac).
      destruct (lu_column_val sh n sh_covers n_max cast cast_exact j st Hinv Hj)
        as (st' & im & -> & Hinv' & Him & Hindx' & Hdiag & Hstep).
      cbn [res_sat].
      assert (Z.to_nat j < length (lu_indx st))%nat as Hlen
        by (destruct Hinv as (_ & _ & Hlen & _); lia).
      split; [exact Hinv'|]. split.
      + intros k z Hk Hz. rewrite Hindx' in Hz.
        destruct (decide (k = j)) as [->|Hne].
        * rewrite list_lookup_insert_eq in Hz by exact Hlen. injection Hz as <-. lia.
        * rewrite list_lookup_insert_ne in Hz by lia. apply (Hindx k z); [lia | exact Hz].
      + intros Hun.
        assert (untainted j (lu_a st)) as Hun0.
        { intros k Hk. rewrite <- Hdiag by lia. apply Hun. lia. }
        pose proof (factored_step n (val a) _ j im _ _ Hj Him (Hfac Hun0)
                      (Hstep (Hun j ltac:(lia)))) as Hnew.
        eapply factored_ext; [|exact Hnew].
        intros r Hr. cbn beta.
        replace (Z.to_nat (j + 1)) with (S (Z.to_nat j)) by lia.
        cbn [row_of]. rewrite Hindx'.
        rewrite list_lookup_insert_eq by exact Hlen. simpl.
        rewrite row_of_insert by lia.
        replace (Z.of_nat (Z.to_nat j)) with j by lia. reflexivity. }
  apply res_sat_ok in Hloop as (st & Est & Hinv & Hindx & Hfac).
  rewrite Est, bind_ok in Hrun. injection Hrun as <- <-.
  destruct Hinv as (Hg & _ & Hlen & _).
  split; [exact Hg|]. split; [exact Hlen|]. split; assumption.
Qed.

End Decomposition.

Lemma fin_vec_lookup (n : Z) (b : list float) (i : Z) :
  fin_vec n b -> 0 <= i < n ->
  b !! Z.to_nat i = Some (Fin (vval b i)) /\ getitem b i = Ok (Fin (vval b i))
  /\ i < Z.of_nat (length b).
Proof.
  intros Hb Hi. destruct (Hb i Hi) as [q Hq].
  assert (vval b i = q) as -> by (unfold vval; rewrite Hq; reflexivity).
  split; [exact Hq|]. split; [apply getitem_nonneg; [lia | exact Hq]|].
  apply lookup_lt_Some in Hq. lia.
Qed.

Lemma vval_insert_eq (b : list float) (i : Z) (q : Q) :
  0 <= i < Z.of_nat (length b) -> vval (<[Z.to_nat i := Fin q]> b) i = q.
Proof. intros H. unfold vval. rewrite list_lookup_insert_eq by lia. reflexivity. Qed.

Lemma vval_insert_ne (b : list float) (i k : Z) (x : float) :
  0 <= i -> 0 <= k -> i <> k -> vval (<[Z.to_nat i := x]> b) k = vval b k.
Proof. intros Hi Hk H. unfold vval. rewrite list_lookup_insert_ne by lia. reflexivity. Qed.

Lemma fin_vec_insert (n : Z) (b : list float) (k : nat) (q : Q) :
  fin_vec n b -> fin_vec n (<[k := Fin q]> b).
Proof.
  intros Hb i Hi. destruct (Hb i Hi) as [q' Hq'].
  destruct (decide (k = Z.to_nat i)) as [->|Hne].
  - exists q. apply list_lookup_insert_eq. apply lookup_lt_Some in Hq'. exact Hq'.
  - exists q'. rewrite list_lookup_insert_ne by exact Hne. exact Hq'.
Qed.

Section SubstitutionValues.

Variable sh : list nat.
Variable n : Z.
Hypothesis sh_covers : covers sh n.

(** The inner loops of [lu_backsubs]: [sum = sum - a[i,j]*b[j]]. *)
Lemma lu_row_dot (j : Z) (a : matrix) (b : list float) (i lo hi : Z) (s : Q) :
  good sh j a -> fin_vec n b -> 0 <= i < n -> 0 <= lo -> hi <= n ->
  exists q, for_range lo hi (fun j0 sum0 =>
                x ← getitem2 a i j0; y ← getitem b j0;
                Ok (fsub sum0 (fmul x y))) (Fin s) = Ok (Fin q)
            /\ (q == s - Qsum lo hi (fun k => val a i k * vval b k))%Q.
Proof using sh_covers.
  intros Ha Hb Hi Hlo Hhi.
  destruct (Z_le_gt_dec lo hi) as [Hle|Hgt].
  2:{ rewrite for_range_empty by lia. exists s. split; [reflexivity|].
      rewrite Qsum_empty by lia. ring. }
  loop_with (fun x : float => exists q, x = Fin q
               /\ (q == s - Qsum lo hi (fun k => val a i k * vval b k))%Q).
  - apply (for_range_sat (fun k (x : float) => exists q, x = Fin q
               /\ (q == s - Qsum lo k (fun k => val a i k * vval b k))%Q));
      [lia | |].
    + exists s. split; [reflexivity|]. rewrite Qsum_empty by lia. ring.
    + intros k x Hk (q & -> & Hq).
      destruct (good_getv sh n sh_covers j a i k Ha) as [-> _]; [lia..|].
      rewrite bind_ok.
      destruct (fin_vec_lookup n b k Hb ltac:(lia)) as (_ & -> & _). rewrite bind_ok.
      cbn. eexists. split; [reflexivity|]. rewrite Qsum_last by lia. rewrite Hq. ring.
  - destruct Hloop as (x & -> & q & -> & Hq). eauto.
Qed.

Lemma lu_backward_val (a : matrix) (y : list float) :
  good sh n a -> fin_vec n y ->
  exists x, lu_backward a n y = Ok x /\ fin_vec n x
    /\ forall r, 0 <= r < n ->
         (Qsum r n (fun c => val a r c * vval x c) == vval y r)%Q.
Proof using sh_covers.
  intros Ha Hy. unfold lu_backward. apply res_sat_ok.
  destruct (Z_le_gt_dec 0 n) as [Hn|Hn].
  2:{ unfold for_range_down. replace (Z.to_nat (n - 1 - -1)) with 0%nat by lia.
      cbn. split; [exact Hy | intros r Hr; lia]. }
  eapply res_sat_weaken;
    [apply (for_range_down_sat (fun i x =>
       fin_vec n x
       /\ (forall r, 0 <= r <= i -> vval x r = vval y r)
       /\ (forall r, i < r < n ->
             (Qsum r n (fun c => val a r c * vval x c) == vval y r)%Q))
       (fun _ => False)) | |]; [lia | | | |].
  - split; [exact Hy|]. split; [reflexivity | intros r Hr; lia].
  - intros i x Hi (Hx & Hlow & Hsolved).
    destruct (fin_vec_lookup n x i Hx ltac:(lia)) as (_ & -> & Hlen). rewrite bind_ok.
    destruct (lu_row_dot n a x i (i + 1) n (vval x i) Ha Hx) as (s & -> & Hs); [lia..|].
    rewrite bind_ok.
    destruct Ha as (Hsh & Hfin & Hdiag).
    destruct (Hdiag i ltac:(lia)) as (d & Hd & Hd0).
    rewrite (entry_getitem2 a i i (Fin d)) by first [lia | exact Hd].
    rewrite bind_ok. unfold fdiv.
    replace (Qeq_bool d 0) with false
      by (symmetry; apply not_true_iff_false; rewrite Qeq_bool_iff; exact Hd0).
    rewrite bind_ok. rewrite setitem_nonneg by lia. cbn [res_sat].
    split; [apply fin_vec_insert, Hx|]. split.
    + intros r Hr. rewrite vval_insert_ne by lia. apply Hlow. lia.
    + intros r Hr.
      destruct (decide (r = i)) as [->|Hne].
      * rewrite Qsum_first by lia. rewrite vval_insert_eq by lia.
        rewrite (val_entry _ _ _ _ Hd).
        assert (Qsum (i + 1) n (fun c => val a i c * vval (<[Z.to_nat i := Fin (s / d)]> x) c)
                == Qsum (i + 1) n (fun c => val a i c * vval x c))%Q as ->.
        { apply Qsum_ext. intros c Hc. rewrite vval_insert_ne by lia. reflexivity. }
        rewrite <- (Hlow i) by lia. rewrite Hs. field. exact Hd0.
      * rewrite <- (Hsolved r) by lia. apply Qsum_ext. intros c Hc.
        rewrite vval_insert_ne by lia. reflexivity.
  - intros x (Hx & _ & Hsolved). split; [exact Hx|]. intros r Hr. apply Hsolved. lia.
  - tauto.
Qed.

Lemma row_of_succ (indx : list Z) (i ll r : Z) :
  0 <= i -> indx !! Z.to_nat i = Some ll ->
  row_of indx (Z.to_nat (i + 1)) r = row_of indx (Z.to_nat i) (transp i ll r).
Proof.
  intros Hi Hll. replace (Z.to_nat (i + 1)) with (S (Z.to_nat i)) by lia.
  cbn [row_of]. rewrite Hll. simpl.
  replace (Z.of_nat (Z.to_nat i)) with i by lia. reflexivity.
Qed.

Lemma lu_forward_val (j : Z) (a : matrix) (indx : list Z) (b : list float) :
  good sh j a -> Z.of_nat (length indx) = n ->
  (forall k z, 0 <= k < n -> indx !! Z.to_nat k = Some z -> k <= z < n) ->
  fin_vec n b ->
  exists y, lu_forward a n indx b = Ok y /\ fin_vec n y
    /\ forall r, 0 <= r < n ->
         (vval y r + Qsum 0 r (fun k => val a r k * vval y k)
          == vval b (row_of indx (Z.to_nat n) r))%Q.
Proof using sh_covers.
  intros Ha Hlen Hindx Hb. unfold lu_forward.
  assert (res_sat (fun '((y, ii) : list float * Z) =>
            fin_vec n y
            /\ forall r, 0 <= r < n ->
                 (vval y r + Qsum 0 r (fun k => val a r k * vval y k)
                  == vval b (row_of indx (Z.to_nat n) r))%Q)
            (fun _ => False)
            (for_range 0 n (fun i '(b0, ii) =>
               ll ← getitem indx i; sum ← getitem b0 ll; bi ← getitem b0 i;
               b1 ← setitem b0 ll bi;
               '(sum0, ii0) ← (if negb (ii =? -1)
                  then sum0 ← for_range ii i (fun j0 sum0 =>
                                 x ← getitem2 a i j0; y ← getitem b1 j0;
                                 Ok (fsub sum0 (fmul x y))) sum;
                       Ok (sum0, ii)
                  else if negb (feq sum (Fin 0)) then Ok (sum, i) else Ok (sum, ii));
               b2 ← setitem b1 i sum0; Ok (b2, ii0)) (b, -1))) as Hloop.
  { destruct (Z_le_gt_dec 0 n) as [Hn|Hn].
    2:{ rewrite for_range_empty by lia. cbn. split; [exact Hb | intros r Hr; lia]. }
    eapply res_sat_weaken;
      [apply (for_range_sat (fun i '((y, ii) : list float * Z) =>
         fin_vec n y
         /\ (ii = -1 \/ 0 <= ii < i)
         /\ (forall r, 0 <= r < i -> ii = -1 \/ r < ii -> (vval y r == 0)%Q)
         /\ (forall r, 0 <= r < i ->
               (vval y r + Qsum 0 r (fun k => val a r k * vval y k)
                == vval b (row_of indx (Z.to_nat i) r))%Q)
         /\ (forall r, i <= r < n -> vval y r = vval b (row_of indx (Z.to_nat i) r)))
         (fun _ => False)) | | ]; [lia | | | |].
    - split; [exact Hb|]. split; [left; reflexivity|].
      split; [intros r Hr; lia|]. split; [intros r Hr; lia | reflexivity].
    - intros i [b0 ii] Hi (Hb0 & Hii & Hzero & Hsolved & Hperm).
      destruct (getitem_lookup indx i ltac:(lia)) as (ll & Hll & ->). rewrite bind_ok.
      pose proof (Hindx i ll ltac:(lia) Hll) as Hllr.
      destruct (fin_vec_lookup n b0 ll Hb0 ltac:(lia)) as (_ & -> & Hlenl).
      rewrite bind_ok.
      destruct (fin_vec_lookup n b0 i Hb0 ltac:(lia)) as (_ & -> & Hleni).
      rewrite bind_ok.
      rewrite setitem_nonneg by lia. rewrite bind_ok.
      set (b1 := <[Z.to_nat ll := Fin (vval b0 i)]> b0).
      assert (fin_vec n b1) as Hb1 by (apply fin_vec_insert, Hb0).
      assert (forall k, 0 <= k < i -> vval b1 k = vval b0 k) as Hb1lo.
      { intros k Hk. unfold b1. apply vval_insert_ne; lia. }
      assert (forall r, 0 <= r < n ->
                row_of indx (Z.to_nat (i + 1)) r
                = row_of indx (Z.to_nat i) (transp i ll r)) as Hrow
        by (intros r Hr; apply row_of_succ; [lia | exact Hll]).
      assert (vval b0 ll = vval b (row_of indx (Z.to_nat (i + 1)) i)) as Hsum.
      { rewrite Hrow by lia.
        destruct (transp_cases i ll i) as [[_ H]|[(? & ? & H)|(? & ? & H)]];
          try lia; rewrite H; apply Hperm; lia. }
      assert (ii = -1 -> (Qsum 0 i (fun k => val a i k * vval b1 k) == 0)%Q) as Hskip1.
      { intros E. apply Qsum_zero. intros k Hk. rewrite Hb1lo by lia.
        rewrite (Hzero k) by lia. ring. }
      assert (ii <> -1 -> (Qsum 0 i (fun k => val a i k * vval b1 k)
                           == Qsum ii i (fun k => val a i k * vval b1 k))%Q) as Hskip2.
      { intros E. rewrite (Qsum_split 0 ii i) by lia.
        rewrite (Qsum_zero 0 ii); [ring|].
        intros k Hk. rewrite Hb1lo by lia. rewrite (Hzero k) by lia. ring. }
      assert (exists sum0 ii0,
        (if negb (ii =? -1)
         then sum0 ← for_range ii i (fun j0 sum0 =>
                        x ← getitem2 a i j0; y ← getitem b1 j0;
                        Ok (fsub sum0 (fmul x y))) (Fin (vval b0 ll));
              Ok (sum0, ii)
         else if negb (feq (Fin (vval b0 ll)) (Fin 0)) then Ok (Fin (vval b0 ll), i)
              else Ok (Fin (vval b0 ll), ii))
        = Ok (Fin sum0, ii0)
        /\ (ii0 = -1 \/ 0 <= ii0 < i + 1)
        /\ (sum0 + Qsum 0 i (fun k => val a i k * vval b1 k) == vval b0 ll)%Q
        /\ (forall r, 0 <= r < i -> ii0 = -1 \/ r < ii0 -> (vval b0 r == 0)%Q)
        /\ (ii0 = -1 -> (sum0 == 0)%Q))
        as (sum0 & ii0 & -> & Hii0 & Hsum0 & Hzero0 & Hz0).
      { destruct (Z.eqb_spec ii (-1)) as [E|E]; cbn [negb].
        - subst ii. cbn [feq]. specialize (Hskip1 eq_refl).
          destruct (Qeq_bool (vval b0 ll) 0) eqn:E0; cbn [negb].
          + apply Qeq_bool_iff in E0. do 2 eexists. split; [reflexivity|].
            split; [lia|]. split; [rewrite Hskip1; ring|]. split; [|intros _; exact E0].
            intros r Hr _. apply Hzero; lia.
          + do 2 eexists. split; [reflexivity|].
            split; [lia|]. split; [rewrite Hskip1; ring|]. split; [|intros; lia].
            intros r Hr _. apply Hzero; lia.
        - destruct (lu_row_dot j a b1 i ii i (vval b0 ll) Ha Hb1) as (q & -> & Hq);
            [lia..|].
          rewrite bind_ok. do 2 eexists. split; [reflexivity|].
          split; [lia|]. split; [rewrite (Hskip2 E), Hq; ring|]. split; [|intros; lia].
          intros r Hr Hor. apply Hzero; lia. }
      rewrite bind_ok. cbn beta iota.
      assert (Z.to_nat i < length b1)%nat as Hleni1
        by (unfold b1; rewrite length_insert; lia).
      rewrite setitem_nonneg by lia. rewrite bind_ok. cbn [res_sat].
      set (b2 := <[Z.to_nat i := Fin sum0]> b1).
      assert (forall k, 0 <= k < i -> vval b2 k = vval b0 k) as Hb2lo.
      { intros k Hk. unfold b2. rewrite vval_insert_ne by lia. apply Hb1lo, Hk. }
      assert (vval b2 i = sum0) as Hb2i by (unfold b2; apply vval_insert_eq; lia).
      split; [apply fin_vec_insert, Hb1|]. split; [exact Hii0|]. split; [|split].
      + intros r Hr Hor. destruct (decide (r = i)) as [->|Hne].
        * rewrite Hb2i. apply Hz0. lia.
        * rewrite Hb2lo by lia. apply Hzero0; lia.
      + intros r Hr. destruct (decide (r = i)) as [->|Hne].
        * rewrite Hb2i, <- Hsum, <- Hsum0. apply Qplus_inj_l.
          apply Qsum_ext. intros k Hk. rewrite Hb2lo, Hb1lo by lia. reflexivity.
        * rewrite Hrow by lia.
          assert (transp i ll r = r) as ->.
          { destruct (transp_cases i ll r) as [[? H]|[(? & ? & H)|(? & ? & H)]];
              first [lia | exact H]. }
          rewrite <- (Hsolved r) by lia. rewrite Hb2lo by lia.
          apply Qplus_inj_l. apply Qsum_ext. intros k Hk.
          rewrite Hb2lo by lia. reflexivity.
      + intros r Hr. rewrite Hrow by lia.
        unfold b2. rewrite vval_insert_ne by lia. unfold b1.
        destruct (transp_cases i ll r) as [[? H]|[(? & ? & H)|(? & ? & H)]];
          try lia; rewrite H.
        * subst r. rewrite vval_insert_eq by lia. apply Hperm. lia.
        * rewrite vval_insert_ne by lia. apply Hperm. lia.
    - intros [y ii] (Hy & _ & _ & Hsolved & _). split; [exact Hy|].
      intros r Hr. apply Hsolved. exact Hr.
    - tauto. }
  apply res_sat_ok in Hloop as ([y ii] & -> & Hy & Hsolved). rewrite bind_ok. eauto.
Qed.

End SubstitutionValues.

Lemma Qsum_scale_r (lo hi : Z) (c : Q) (f : Z -> Q) :
  (Qsum lo hi (fun k => f k * c) == Qsum lo hi f * c)%Q.
Proof.
  rewrite (Qsum_ext lo hi _ (fun k => c * f k)%Q) by (intros k Hk; ring).
  rewrite Qsum_scale. ring.
Qed.

(** Row [r] of [L U x], for [U x = y] and row [r] of [L y = b']. *)
Lemma lu_algebra (n r : Z) (m : Z -> Z -> Q) (x y Arow : Z -> Q) (br : Q) :
  0 <= r < n ->
  (forall c, r <= c < n -> (m r c + Qsum 0 r (fun k => m r k * m k c) == Arow c)%Q) ->
  (forall c, 0 <= c < r ->
     (m r c * m c c + Qsum 0 c (fun k => m r k * m k c) == Arow c)%Q) ->
  (y r + Qsum 0 r (fun k => m r k * y k) == br)%Q ->
  (forall k, 0 <= k <= r -> (Qsum k n (fun c => m k c * x c) == y k)%Q) ->
  (Qsum 0 n (fun c => Arow c * x c) == br)%Q.
Proof.
  intros Hr HU HL HF HB.
  set (f := fun k c => (m r k * m k c * x c)%Q).
  assert (Qsum 0 r (fun c => Arow c * x c)
          == Qsum 0 r (fun c => Qsum 0 (c + 1) (fun k => f k c)))%Q as H1.
  { apply Qsum_ext. intros c Hc. rewrite <- (HL c) by lia.
    rewrite Qsum_last by lia. unfold f.
    rewrite (Qsum_scale_r 0 c (x c) (fun k => m r k * m k c)%Q). ring. }
  assert (Qsum r n (fun c => Arow c * x c)
          == y r + Qsum r n (fun c => Qsum 0 r (fun k => f k c)))%Q as H2.
  { rewrite <- (HB r) by lia. rewrite <- Qsum_add. apply Qsum_ext. intros c Hc.
    rewrite <- (HU c) by lia. unfold f.
    rewrite (Qsum_scale_r 0 r (x c) (fun k => m r k * m k c)%Q). ring. }
  assert (Qsum 0 r (fun k => m r k * y k)
          == Qsum 0 r (fun k => Qsum k r (fun c => f k c))
             + Qsum 0 r (fun k => Qsum r n (fun c => f k c)))%Q as H3.
  { rewrite <- Qsum_add. apply Qsum_ext. intros k Hk.
    rewrite <- (HB k) by lia. rewrite (Qsum_split k r n) by lia. unfold f.
    rewrite (Qsum_ext k r (fun c => m r k * m k c * x c)%Q
               (fun c => m r k * (m k c * x c))%Q) by (intros; ring).
    rewrite (Qsum_ext r n (fun c => m r k * m k c * x c)%Q
               (fun c => m r k * (m k c * x c))%Q) by (intros; ring).
    rewrite !Qsum_scale. ring. }
  assert (Qsum 0 r (fun k => Qsum r n (fun c => f k c))
          == Qsum r n (fun c => Qsum 0 r (fun k => f k c)))%Q as H4
    by apply Qsum_swap.
  assert (Qsum 0 r (fun k => Qsum k r (fun c => f k c))
          == Qsum 0 r (fun c => Qsum 0 (c + 1) (fun k => f k c)))%Q as H5.
  { rewrite (Qsum_ext 0 r (fun k => Qsum k r (fun c => f k c))
               (fun k => Qsum 0 r (fun c => if k <=? c then f k c else 0%Q)))
      by (intros k Hk; symmetry; apply (Qsum_from 0 r k (fun c => f k c)); lia).
    rewrite Qsum_swap. apply Qsum_ext. intros c Hc.
    apply (Qsum_upto 0 r c (fun k => f k c)). lia. }
  rewrite (Qsum_split 0 r n) by lia.
  rewrite H1, H2, <- HF, H3, H4, H5. ring.
Qed.

(** X16: [mat_sol] solves the linear system.  For a matrix of numbers
    holding the [n] by [n] block, [n] at most 100, and a right-hand side
    of [n] numbers: when [mat_sol] returns and none of the pivots it
    leaves on the diagonal is the stand-in [TINY], the vector it returns
    satisfies every equation, [sum_c a[i,c] * x[c] = b[i]], exactly. *)
Theorem mat_sol_solves (a : matrix) (nlevel n : Z) (b : list float)
    (anew : matrix) (x : list float) :
  covers (shape a) n -> finite_matrix a -> 0 <= n <= NMAX -> fin_vec n b ->
  mat_sol a nlevel n b = Ok (anew, x) ->
  untainted n anew ->
  forall i, 0 <= i < n ->
    (Qsum 0 n (fun c => val a i c * vval x c) == vval b i)%Q.
Proof.
  intros Hcov Hfin Hn Hb Hrun Hun i Hi.
  unfold mat_sol in Hrun.
  apply bind_Ok in Hrun as ([a' indx] & Hdec & Hrun).
  apply bind_Ok in Hrun as (x' & Hsub & Hrun). injection Hrun as -> ->.
  destruct (lu_decomp_with_val (shape a) n Hcov ltac:(lia) wrap8
              (wrap8_exact n ltac:(lia)) a nlevel anew indx eq_refl Hfin ltac:(lia) Hdec)
    as (Hgood & Hlen & Hindx & Hfac).
  destruct (Hfac Hun) as (HU & HL & _).
  unfold lu_backsubs in Hsub.
  destruct (lu_forward_val (shape a) n Hcov n anew indx b Hgood Hlen Hindx Hb)
    as (y & Ey & Hy & Hfwd).
  rewrite Ey, bind_ok in Hsub.
  destruct (lu_backward_val (shape a) n Hcov anew y Hgood Hy) as (x' & Ex & Hx & Hbwd).
  assert (x' = x) as -> by congruence.
  destruct (row_of_onto n indx (Z.to_nat n)) as [Hin Hon]; [|lia|].
  { intros k z Hk Hz. apply (Hindx (Z.of_nat k) z); [lia|].
    rewrite Nat2Z.id. exact Hz. }
  destruct (Hon i Hi) as (r & Hr & <-).
  apply (lu_algebra n r (val anew) (vval x) (vval y)).
  - exact Hr.
  - intros c Hc. apply HU; lia.
  - intros c Hc. apply HL; lia.
  - apply Hfwd. exact Hr.
  - intros k Hk. apply Hbwd. lia.
Qed.

Lemma Qsum_single (k : Z) (f : Z -> Q) : (Qsum k (k + 1) f == f k)%Q.
Proof. rewrite Qsum_last by lia. rewrite Qsum_empty by lia. ring. Qed.

Lemma factored_product (n : Z) (A : Z -> Z -> Q) (pi : Z -> Z) (a : matrix) (r c : Z) :
  factored n A pi n a -> 0 <= r < n -> 0 <= c < n ->
  (Qsum 0 n (fun k => lower a r k * upper a k c) == A (pi r) c)%Q.
Proof.
  intros (HU & HL & _) Hr Hc. unfold lower, upper.
  destruct (Z_le_gt_dec r c) as [Hrc|Hrc].
  - rewrite <- (HU r c) by lia.
    rewrite (Qsum_split 0 r n), (Qsum_split r (r + 1) n) by lia.
    rewrite Qsum_single. rewrite (Qsum_zero (r + 1) n).
    + rewrite Z.ltb_irrefl, Z.eqb_refl.
      replace (r <=? c) with true by (symmetry; apply Z.leb_le; lia).
      rewrite (Qsum_ext 0 r _ (fun k => val a r k * val a k c)%Q); [ring|].
      intros k Hk. replace (k <? r) with true by (symmetry; apply Z.ltb_lt; lia).
      replace (k <=? c) with true by (symmetry; apply Z.leb_le; lia). reflexivity.
    + intros k Hk. replace (k <? r) with false by (symmetry; apply Z.ltb_ge; lia).
      replace (k =? r) with false by (symmetry; apply Z.eqb_neq; lia). ring.
  - rewrite <- (HL r c) by lia.
    rewrite (Qsum_split 0 c n), (Qsum_split c (c + 1) n) by lia.
    rewrite Qsum_single. rewrite (Qsum_zero (c + 1) n).
    + replace (c <? r) with true by (symmetry; apply Z.ltb_lt; lia).
      rewrite Z.leb_refl.
      rewrite (Qsum_ext 0 c _ (fun k => val a r k * val a k c)%Q); [ring|].
      intros k Hk. replace (k <? r) with true by (symmetry; apply Z.ltb_lt; lia).
      replace (k <=? c) with true by (symmetry; apply Z.leb_le; lia). reflexivity.
    + intros k Hk. replace (k <=? c) with false by (symmetry; apply Z.leb_gt; lia). ring.
Qed.

(** X17: [lu_decomp] factors the matrix.  For a matrix of numbers
    holding the [n] by [n] block, [n] at most 100: when [lu_decomp]
    returns and none of the pivots on the diagonal is the stand-in
    [TINY], the matrix it returns holds L (below the diagonal, with a
    unit diagonal) and U (on and above it) with [L U] equal to the input
    with its rows exchanged as [indx] records: exchange [k] swaps row
    [k] with a row [indx[k] >= k], and every row of the input is still
    there. *)
Theorem lu_decomp_factors (a : matrix) (n ntot : Z) (anew : matrix) (indx : list Z) :
  covers (shape a) n -> finite_matrix a -> 0 <= n <= NMAX ->
  lu_decomp a n ntot = Ok (anew, indx) ->
  untainted n anew ->
  let pi := row_of indx (Z.to_nat n) in
  (forall k z, 0 <= k < n -> indx !! Z.to_nat k = Some z -> k <= z < n)
  /\ (forall i, 0 <= i < n -> exists r, 0 <= r < n /\ pi r = i)
  /\ (forall r c, 0 <= r < n -> 0 <= c < n ->
        (Qsum 0 n (fun k => lower anew r k * upper anew k c) == val a (pi r) c)%Q).
Proof.
  intros Hcov Hfin Hn Hdec Hun pi.
  destruct (lu_decomp_with_val (shape a) n Hcov ltac:(lia) wrap8
              (wrap8_exact n ltac:(lia)) a ntot anew indx eq_refl Hfin ltac:(lia) Hdec)
    as (Hgood & Hlen & Hindx & Hfac).
  split; [exact Hindx|]. split.
  - destruct (row_of_onto n indx (Z.to_nat n)) as [_ Hon]; [|lia|exact Hon].
    intros k z Hk Hz. apply (Hindx (Z.of_nat k) z); [lia|].
    rewrite Nat2Z.id. exact Hz.
  - intros r c Hr Hc. apply (factored_product n (val a) pi anew r c (Hfac Hun) Hr Hc).
Qed.

Lemma covers_square (a : matrix) (n : Z) :
  Z.of_nat (length a) = n -> Forall (fun row => Z.of_nat (length row) = n) a ->
  covers (shape a) n.
Proof.
  intros Hlen Hrows. unfold covers, shape. rewrite length_fmap.
  split; [lia|]. apply Forall_fmap. eapply Forall_impl; [exact Hrows|].
  intros row Hrow. unfold compose. cbn beta in Hrow |- *. lia.
Qed.

Lemma mat_sol_solves_witness :
  let a := [[Fin 1; Fin 2]; [Fin 3; Fin 4]] in
  let b := [Fin 5; Fin 6] in
  exists anew x,
    mat_sol a 2 2 b = Ok (anew, x)
    /\ forall i, 0 <= i < 2 ->
         (Qsum 0 2 (fun c => val a i c * vval x c) == vval b i)%Q.
Proof.
  intros a b.
  destruct (mat_sol a 2 2 b) as [[anew x]|e] eqn:Hrun; [|vm_compute in Hrun; discriminate].
  exists anew, x. split; [reflexivity|].
  apply (mat_sol_solves a 2 2 b anew x).
  - apply covers_square; [reflexivity | repeat constructor].
  - repeat constructor; eexists; reflexivity.
  - unfold NMAX. lia.
  - intros i Hi. assert (i = 0 \/ i = 1) as [-> | ->] by lia; eexists; reflexivity.
  - exact Hrun.
  - vm_compute in Hrun. injection Hrun as <- <-.
    intros k Hk. assert (k = 0 \/ k = 1) as [-> | ->] by lia; discriminate.
Defined.

Lemma lu_decomp_factors_witness :
  let a := [[Fin 1; Fin 2]; [Fin 3; Fin 4]] in
  exists anew indx,
    lu_decomp a 2 2 = Ok (anew, indx) /\ indx = [1; 1]
    /\ forall r c, 0 <= r < 2 -> 0 <= c < 2 ->
         (Qsum 0 2 (fun k => lower anew r k * upper anew k c)
          == val a (row_of indx 2 r) c)%Q.
Proof.
  intros a.
  destruct (lu_decomp a 2 2) as [[anew indx]|e] eqn:Hrun; [|vm_compute in Hrun; discriminate].
  exists anew, indx. split; [reflexivity|].
  split; [vm_compute in Hrun; congruence|].
  apply (lu_decomp_factors a 2 2 anew indx).
  - apply covers_square; [reflexivity | repeat constructor].
  - repeat constructor; eexists; reflexivity.
  - unfold NMAX. lia.
  - exact Hrun.
  - vm_compute in Hrun. injection Hrun as <- <-.
    intros k Hk. assert (k = 0 \/ k = 1) as [-> | ->] by lia; discriminate.
Defined.
